(** * Authentication clients and organisation role sync (codenow-grafana)

    A shallow embedding of
    - [pkg/services/anonymous/anonimpl] : the anonymous client,
    - [pkg/services/authn/authnimpl/sync] : [OrgSync.SyncOrgRolesHook],
    - [pkg/services/authn/clients] : [JWT.extractRolesAndAdmin],
    - [pkg/setting/setting_jwt.go] : [parseOrgMapperConfig].

    Go code that talks to injected services is embedded as a command tree
    ([Prog]): every service call is a node whose continuation receives the
    values the service returned.  [exec] runs a tree against an arbitrary
    implementation of the services and records the calls that were made. *)

From Stdlib Require Import ZArith Ascii String.
From stdpp Require Import gmap strings list fin_maps sorting.

(** ** Go run-time conventions *)

(** A Go function either returns or panics (nil dereference, slice bounds,
    [regexp.MustCompile] on a bad pattern). *)
Inductive outcome (A : Type) : Type :=
| Returned (a : A)
| Panicked.
Arguments Returned {A} a.
Arguments Panicked {A}.

(** Go [error] values.  The sentinels are the ones the embedded code tests
    with [errors.Is]; [ErrOther] stands for any other failure of a service;
    [Errorf base fmt arg] is [base.Errorf(fmt, arg)] of [errutil], an error
    that [errors.Is] its base. *)
Inductive error : Type :=
| ErrOrgNotFound
| ErrLastOrgAdmin
| ErrDeviceLimitReached
| errInvalidOrg
| errInvalidID
| ErrOther (msg : string)
| Errorf (base : error) (format : string) (arg : Z).

#[global] Instance error_eq_dec : EqDecision error.
Proof. solve_decision. Defined.

Fixpoint errors_Is (err target : error) : bool :=
  bool_decide (err = target) ||
  match err with
  | Errorf base _ _ => errors_Is base target
  | _ => false
  end.

(** ** Package [org]: organisations, roles, commands *)

(** [type RoleType string] *)
Abbreviation RoleType := string (only parsing).
Definition RoleNone : RoleType := "None".
Definition RoleViewer : RoleType := "Viewer".
Definition RoleEditor : RoleType := "Editor".
Definition RoleAdmin : RoleType := "Admin".

Record Org : Type := mkOrg { Org_ID : Z; Org_Name : string }.

Record UserOrgDTO : Type :=
  mkUserOrgDTO { dto_OrgID : Z; dto_Name : string; dto_Role : RoleType }.

Record UpdateOrgUserCommand : Type :=
  mkUpdateOrgUser { upd_OrgID : Z; upd_UserID : Z; upd_Role : RoleType }.

Record AddOrgUserCommand : Type :=
  mkAddOrgUser { add_UserID : Z; add_Role : RoleType; add_OrgID : Z }.

Record RemoveOrgUserCommand : Type :=
  mkRemoveOrgUser { rem_OrgID : Z; rem_UserID : Z }.

(** [user.UpdateUserCommand]; only the two fields the hooks set. *)
Record UpdateUserCommand : Type :=
  mkUpdateUser { uu_UserID : Z; uu_OrgID : option Z }.

(** The part of [http.Request] that [Anonymous.Authenticate] copies. *)
Record HttpRequest : Type :=
  mkHttpRequest { Header : option (list (string * string)); RemoteAddr : string }.

#[global] Instance Org_eq_dec : EqDecision Org.
Proof. solve_decision. Defined.
#[global] Instance UserOrgDTO_eq_dec : EqDecision UserOrgDTO.
Proof. solve_decision. Defined.
#[global] Instance UpdateOrgUserCommand_eq_dec : EqDecision UpdateOrgUserCommand.
Proof. solve_decision. Defined.
#[global] Instance AddOrgUserCommand_eq_dec : EqDecision AddOrgUserCommand.
Proof. solve_decision. Defined.
#[global] Instance RemoveOrgUserCommand_eq_dec : EqDecision RemoveOrgUserCommand.
Proof. solve_decision. Defined.
#[global] Instance UpdateUserCommand_eq_dec : EqDecision UpdateUserCommand.
Proof. solve_decision. Defined.
#[global] Instance HttpRequest_eq_dec : EqDecision HttpRequest.
Proof. solve_decision. Defined.

(** ** Service calls as command trees *)

(** One node per method of [org.Service], [user.Service],
    [accesscontrol.Service] and [anonymous.Service] that the embedded code
    calls.  A Go method returning [(x, err)] hands the pair to the
    continuation: the callee decides both components independently. *)
Inductive Prog (A : Type) : Type :=
| Ret (a : A)
| NilDeref
| GetUserOrgList (userID : Z) (k : list UserOrgDTO * option error → Prog A)
| GetByID (id : Z) (k : option Org * option error → Prog A)
| GetByName (name : string) (k : option Org * option error → Prog A)
| UpdateOrgUser (cmd : UpdateOrgUserCommand) (k : option error → Prog A)
| AddOrgUser (cmd : AddOrgUserCommand) (k : option error → Prog A)
| RemoveOrgUser (cmd : RemoveOrgUserCommand) (k : option error → Prog A)
| DeleteUserPermissions (orgID userID : Z) (k : option error → Prog A)
| Update (cmd : UpdateUserCommand) (k : option error → Prog A)
| TagDevice (req : HttpRequest) (k : option error → Prog A).
Arguments Ret {A} a.
Arguments NilDeref {A}.
Arguments GetUserOrgList {A} userID k.
Arguments GetByID {A} id k.
Arguments GetByName {A} name k.
Arguments UpdateOrgUser {A} cmd k.
Arguments AddOrgUser {A} cmd k.
Arguments RemoveOrgUser {A} cmd k.
Arguments DeleteUserPermissions {A} orgID userID k.
Arguments Update {A} cmd k.
Arguments TagDevice {A} req k.

Fixpoint bind {A B : Type} (m : Prog A) (f : A → Prog B) : Prog B :=
  match m with
  | Ret a => f a
  | NilDeref => NilDeref
  | GetUserOrgList q k => GetUserOrgList q (λ r, bind (k r) f)
  | GetByID q k => GetByID q (λ r, bind (k r) f)
  | GetByName q k => GetByName q (λ r, bind (k r) f)
  | UpdateOrgUser c k => UpdateOrgUser c (λ r, bind (k r) f)
  | AddOrgUser c k => AddOrgUser c (λ r, bind (k r) f)
  | RemoveOrgUser c k => RemoveOrgUser c (λ r, bind (k r) f)
  | DeleteUserPermissions o u k => DeleteUserPermissions o u (λ r, bind (k r) f)
  | Update c k => Update c (λ r, bind (k r) f)
  | TagDevice q k => TagDevice q (λ r, bind (k r) f)
  end.

(** A call together with what the service answered. *)
Inductive event : Type :=
| EvGetUserOrgList (userID : Z) (r : list UserOrgDTO * option error)
| EvGetByID (id : Z) (r : option Org * option error)
| EvGetByName (name : string) (r : option Org * option error)
| EvUpdateOrgUser (cmd : UpdateOrgUserCommand) (r : option error)
| EvAddOrgUser (cmd : AddOrgUserCommand) (r : option error)
| EvRemoveOrgUser (cmd : RemoveOrgUserCommand) (r : option error)
| EvDeleteUserPermissions (orgID userID : Z) (r : option error)
| EvUpdate (cmd : UpdateUserCommand) (r : option error)
| EvTagDevice (req : HttpRequest) (r : option error).

#[global] Instance event_eq_dec : EqDecision event.
Proof. solve_decision. Defined.

(** An implementation of the services over a world [W] (the database). *)
Record Services (W : Type) : Type := mkServices {
  svc_GetUserOrgList : Z → W → (list UserOrgDTO * option error) * W;
  svc_GetByID : Z → W → (option Org * option error) * W;
  svc_GetByName : string → W → (option Org * option error) * W;
  svc_UpdateOrgUser : UpdateOrgUserCommand → W → option error * W;
  svc_AddOrgUser : AddOrgUserCommand → W → option error * W;
  svc_RemoveOrgUser : RemoveOrgUserCommand → W → option error * W;
  svc_DeleteUserPermissions : Z → Z → W → option error * W;
  svc_Update : UpdateUserCommand → W → option error * W;
  svc_TagDevice : HttpRequest → W → option error * W;
}.
Arguments svc_GetUserOrgList {W} _ _ _.
Arguments svc_GetByID {W} _ _ _.
Arguments svc_GetByName {W} _ _ _.
Arguments svc_UpdateOrgUser {W} _ _ _.
Arguments svc_AddOrgUser {W} _ _ _.
Arguments svc_RemoveOrgUser {W} _ _ _.
Arguments svc_DeleteUserPermissions {W} _ _ _ _.
Arguments svc_Update {W} _ _ _.
Arguments svc_TagDevice {W} _ _ _.

(** Result of a run: how the function ended, the world it left behind and
    the calls it made, oldest first. *)
Record run (W A : Type) : Type :=
  mkRun { result : outcome A; world : W; trace : list event }.
Arguments mkRun {W A} result world trace.
Arguments result {W A} _.
Arguments world {W A} _.
Arguments trace {W A} _.

Definition logged {W A} (e : event) (r : run W A) : run W A :=
  mkRun (result r) (world r) (e :: trace r).

Fixpoint exec {W A : Type} (h : Services W) (p : Prog A) (w : W) : run W A :=
  match p with
  | Ret a => mkRun (Returned a) w []
  | NilDeref => mkRun Panicked w []
  | GetUserOrgList q k =>
      let r := svc_GetUserOrgList h q w in
      logged (EvGetUserOrgList q r.1) (exec h (k r.1) r.2)
  | GetByID q k =>
      let r := svc_GetByID h q w in
      logged (EvGetByID q r.1) (exec h (k r.1) r.2)
  | GetByName q k =>
      let r := svc_GetByName h q w in
      logged (EvGetByName q r.1) (exec h (k r.1) r.2)
  | UpdateOrgUser c k =>
      let r := svc_UpdateOrgUser h c w in
      logged (EvUpdateOrgUser c r.1) (exec h (k r.1) r.2)
  | AddOrgUser c k =>
      let r := svc_AddOrgUser h c w in
      logged (EvAddOrgUser c r.1) (exec h (k r.1) r.2)
  | RemoveOrgUser c k =>
      let r := svc_RemoveOrgUser h c w in
      logged (EvRemoveOrgUser c r.1) (exec h (k r.1) r.2)
  | DeleteUserPermissions o u k =>
      let r := svc_DeleteUserPermissions h o u w in
      logged (EvDeleteUserPermissions o u r.1) (exec h (k r.1) r.2)
  | Update c k =>
      let r := svc_Update h c w in
      logged (EvUpdate c r.1) (exec h (k r.1) r.2)
  | TagDevice q k =>
      let r := svc_TagDevice h q w in
      logged (EvTagDevice q r.1) (exec h (k r.1) r.2)
  end.

(** [all_runs Q p]: whatever the services answer, the calls [p] makes and
    the way it ends satisfy [Q]. *)
Fixpoint all_runs {A : Type} (Q : list event → outcome A → Prop) (p : Prog A) : Prop :=
  match p with
  | Ret a => Q [] (Returned a)
  | NilDeref => Q [] Panicked
  | GetUserOrgList q k => ∀ r, all_runs (λ tr, Q (EvGetUserOrgList q r :: tr)) (k r)
  | GetByID q k => ∀ r, all_runs (λ tr, Q (EvGetByID q r :: tr)) (k r)
  | GetByName q k => ∀ r, all_runs (λ tr, Q (EvGetByName q r :: tr)) (k r)
  | UpdateOrgUser c k => ∀ r, all_runs (λ tr, Q (EvUpdateOrgUser c r :: tr)) (k r)
  | AddOrgUser c k => ∀ r, all_runs (λ tr, Q (EvAddOrgUser c r :: tr)) (k r)
  | RemoveOrgUser c k => ∀ r, all_runs (λ tr, Q (EvRemoveOrgUser c r :: tr)) (k r)
  | DeleteUserPermissions o u k =>
      ∀ r, all_runs (λ tr, Q (EvDeleteUserPermissions o u r :: tr)) (k r)
  | Update c k => ∀ r, all_runs (λ tr, Q (EvUpdate c r :: tr)) (k r)
  | TagDevice q k => ∀ r, all_runs (λ tr, Q (EvTagDevice q r :: tr)) (k r)
  end.

(** [each_event φ tr o]: every call of the run, seen with the calls made
    after it and the way the run ended, satisfies [φ]. *)
Definition each_event {A} (φ : event → list event → outcome A → Prop)
    (tr : list event) (o : outcome A) : Prop :=
  ∀ pre ev post, tr = pre ++ ev :: post → φ ev post o.

(** The Go assignment [m[k] = v]. *)
Definition assign {K V : Type} `{Countable K} (m : gmap K V) (kv : K * V) : gmap K V :=
  <[kv.1 := kv.2]> m.

(** ** Package [authn]: identities *)

Inductive Namespace : Type :=
| NamespaceUser
| NamespaceAPIKey
| NamespaceServiceAccount
| NamespaceAnonymous
| NamespaceRenderService
| NamespaceAccessPolicy.

#[global] Instance Namespace_eq_dec : EqDecision Namespace.
Proof. solve_decision. Defined.

(** [identity.NamespaceID]: a namespace and an identifier. *)
Record NamespaceID : Type :=
  mkNamespaceID { ns_namespace : Namespace; ns_id : string }.

#[global] Instance NamespaceID_eq_dec : EqDecision NamespaceID.
Proof. solve_decision. Defined.

Definition IsNamespace (ni : NamespaceID) (expected : Namespace) : bool :=
  bool_decide (ns_namespace ni = expected).

(** Modelled from the spec: [authn.AnonymousNamespaceID] is declared in
    package [authn] outside the embedded files; the spec gives it as the
    anonymous namespace with a fixed, non-unique identifier. *)
Definition AnonymousNamespaceID : NamespaceID :=
  mkNamespaceID NamespaceAnonymous "0".

Definition digit_value (c : ascii) : option Z :=
  let n := Z.of_nat (nat_of_ascii c) in
  if bool_decide (48 ≤ n ≤ 57)%Z then Some (n - 48)%Z else None.

Fixpoint parse_digits (acc : Z) (s : string) : option Z :=
  match s with
  | EmptyString => Some acc
  | String c rest =>
      match digit_value c with
      | Some d => parse_digits (10 * acc + d)%Z rest
      | None => None
      end
  end.

(** Modelled from the spec: [NamespaceID.ParseInt] lives in package
    [identity] outside the embedded files; the spec says the identifier
    "parses to a user id".  This is [strconv.ParseInt(id, 10, 64)]: an
    optional sign, at least one decimal digit, and the int64 range. *)
Definition ParseInt (ni : NamespaceID) : option Z :=
  let '(neg, digits) :=
    match ns_id ni with
    | String "-"%char rest => (true, rest)
    | String "+"%char rest => (false, rest)
    | s => (false, s)
    end in
  match digits with
  | EmptyString => None
  | _ =>
      match parse_digits 0 digits with
      | Some n =>
          let v := if neg then (- n)%Z else n in
          if bool_decide (- 2 ^ 63 ≤ v < 2 ^ 63)%Z then Some v else None
      | None => None
      end
  end.

Record ClientParams : Type := mkClientParams {
  SyncUser : bool;
  AllowSignUp : bool;
  FetchSyncedUser : bool;
  SyncTeams : bool;
  SyncOrgRoles : bool;
  SyncPermissions : bool;
}.

#[global] Instance ClientParams_eq_dec : EqDecision ClientParams.
Proof. solve_decision. Defined.

(** Go's zero value of [ClientParams]. *)
Definition zeroClientParams : ClientParams :=
  mkClientParams false false false false false false.

(** [authn.Identity], with the fields the embedded clients and hooks read
    or write; the fields left out keep their zero value throughout. *)
Record Identity : Type := mkIdentity {
  ID : NamespaceID;
  OrgID : Z;
  OrgName : string;
  OrgRoles : gmap string string;
  Login : string;
  Name : string;
  Email : string;
  AuthenticatedBy : string;
  AuthID : string;
  Params : ClientParams;
}.

#[global] Instance Identity_eq_dec : EqDecision Identity.
Proof. solve_decision. Defined.

(** [id.OrgID = v] *)
Definition set_OrgID (id : Identity) (v : Z) : Identity :=
  mkIdentity (ID id) v (OrgName id) (OrgRoles id) (Login id) (Name id)
    (Email id) (AuthenticatedBy id) (AuthID id) (Params id).

(** [authn.Request]: only the HTTP request is read. *)
Record Request : Type := mkRequest { HTTPRequest : option HttpRequest }.

(** A Go map read [m[k]] yields the zero value when the key is absent. *)
Definition map_index (m : gmap string string) (k : string) : string :=
  default "" (m !! k).

(** ** Package [anonimpl]: the anonymous client *)

Module anonimpl.

(** The three settings of [setting.Cfg] the client reads. *)
Record Cfg : Type := mkCfg {
  AnonymousEnabled : bool;
  AnonymousOrgName : string;
  AnonymousOrgRole : string;
}.

Definition newAnonymousIdentity (cfg : Cfg) (o : Org) : Identity :=
  {| ID := AnonymousNamespaceID;
     OrgID := Org_ID o;
     OrgName := Org_Name o;
     OrgRoles := {[ Org_Name o := AnonymousOrgRole cfg ]};
     Login := ""; Name := ""; Email := "";
     AuthenticatedBy := ""; AuthID := "";
     Params := mkClientParams false false false false false true |}.

(** [httpReqCopy]: headers and remote address are copied only when the
    request and its header are non-nil. *)
Definition httpReqCopy (r : Request) : HttpRequest :=
  match HTTPRequest r with
  | Some req =>
      match Header req with
      | Some hd => mkHttpRequest (Some hd) (RemoteAddr req)
      | None => mkHttpRequest None ""
      end
  | None => mkHttpRequest None ""
  end.

(** [o] is dereferenced by [newAnonymousIdentity]: a nil organisation
    that came without an error panics. *)
Definition Authenticate (cfg : Cfg) (r : Request)
  : Prog (option Identity * option error) :=
  GetByName (AnonymousOrgName cfg) (λ '(o, err),
    match err with
    | Some e => Ret (None, Some e)
    | None =>
        TagDevice (httpReqCopy r) (λ err,
          match err with
          | Some e =>
              if errors_Is e ErrDeviceLimitReached then Ret (None, Some e)
              else match o with
                   | Some o => Ret (Some (newAnonymousIdentity cfg o), None)
                   | None => NilDeref
                   end
          | None =>
              match o with
              | Some o => Ret (Some (newAnonymousIdentity cfg o), None)
              | None => NilDeref
              end
          end)
    end).

Definition IsEnabled (cfg : Cfg) : bool := AnonymousEnabled cfg.
Definition Test (cfg : Cfg) (r : Request) : bool := true.
Definition Priority : Z := 100.

Definition ResolveIdentity (cfg : Cfg) (orgID : Z) (namespaceID : NamespaceID)
  : Prog (option Identity * option error) :=
  GetByName (AnonymousOrgName cfg) (λ '(o, err),
    match err with
    | Some e => Ret (None, Some e)
    | None =>
        match o with
        | None => NilDeref
        | Some o =>
            if bool_decide (Org_ID o ≠ orgID) then
              Ret (None, Some (Errorf errInvalidOrg
                "anonymous user cannot authenticate in org %d" (Org_ID o)))
            else if bool_decide (namespaceID ≠ AnonymousNamespaceID) then
              Ret (None, Some errInvalidID)
            else Ret (Some (newAnonymousIdentity cfg o), None)
        end
    end).

End anonimpl.

(** ** Package [sync]: [OrgSync.SyncOrgRolesHook] *)

Module sync.

(** What a loop hands to the code after it: the function has already
    returned [err], or it goes on with the loop's variables [s]. *)
Inductive flow (S : Type) : Type :=
| Return (err : option error)
| Next (s : S).
Arguments Return {S} err.
Arguments Next {S} s.

(** "update existing org roles": the loop over the user's memberships.
    The error of [GetByID] is dropped and [orgb.Name] is read
    unconditionally. *)
Fixpoint update_existing (roles : gmap string string) (userID : Z)
    (result : list UserOrgDTO)
    (handledOrgIds : gmap Z bool) (deleteOrgIds : list Z)
  : Prog (flow (gmap Z bool * list Z)) :=
  match result with
  | [] => Ret (Next (handledOrgIds, deleteOrgIds))
  | orga :: rest =>
      let handledOrgIds := <[dto_OrgID orga := true]> handledOrgIds in
      GetByID (dto_OrgID orga) (λ '(orgb, _),
        match orgb with
        | None => NilDeref
        | Some orgb =>
            let extRole := map_index roles (Org_Name orgb) in
            if bool_decide (extRole = "") then
              update_existing roles userID rest handledOrgIds
                (deleteOrgIds ++ [dto_OrgID orga])
            else if bool_decide (extRole ≠ dto_Role orga) then
              UpdateOrgUser (mkUpdateOrgUser (dto_OrgID orga) userID extRole)
                (λ err,
                  match err with
                  | Some e => Ret (Return (Some e))
                  | None =>
                      update_existing roles userID rest handledOrgIds deleteOrgIds
                  end)
            else update_existing roles userID rest handledOrgIds deleteOrgIds
        end)
  end.

(** "add any new org roles": the loop over [id.OrgRoles].  [entries] is
    the order in which Go's [range] visits the map. *)
Fixpoint add_new (userID : Z) (handledOrgIds : gmap Z bool)
    (entries : list (string * string)) (orgIDs : list Z)
  : Prog (flow (list Z)) :=
  match entries with
  | [] => Ret (Next orgIDs)
  | (orgName, orgRole) :: rest =>
      GetByName orgName (λ '(orga, e),
        match orga, e with
        | Some orga, None =>
            let orgIDs := orgIDs ++ [Org_ID orga] in
            if bool_decide (is_Some (handledOrgIds !! Org_ID orga)) then
              add_new userID handledOrgIds rest orgIDs
            else
              AddOrgUser (mkAddOrgUser userID orgRole (Org_ID orga)) (λ err,
                match err with
                | Some e' =>
                    if negb (errors_Is e' ErrOrgNotFound)
                    then Ret (Return (Some e'))
                    else add_new userID handledOrgIds rest orgIDs
                | None => add_new userID handledOrgIds rest orgIDs
                end)
        | _, _ => add_new userID handledOrgIds rest orgIDs
        end)
  end.

(** "delete any removed org roles" *)
Fixpoint remove_stale (userID : Z) (deleteOrgIds : list Z) : Prog (flow unit) :=
  match deleteOrgIds with
  | [] => Ret (Next ())
  | orgID :: rest =>
      RemoveOrgUser (mkRemoveOrgUser orgID userID) (λ err,
        match err with
        | Some e =>
            if errors_Is e ErrLastOrgAdmin then remove_stale userID rest
            else Ret (Return (Some e))
        | None =>
            DeleteUserPermissions orgID userID (λ _, remove_stale userID rest)
        end)
  end.

(** "update user's default org if needed", after [sort.Slice]. *)
Definition update_default_org (id : Identity) (userID : Z) (orgIDs : list Z)
  : Prog (option error * Identity) :=
  let orgIDs := merge_sort Z.le orgIDs in
  if bool_decide (OrgRoles id !! OrgName id = None) then
    match orgIDs with
    | first :: _ =>
        let id := set_OrgID id first in
        Update (mkUpdateUser userID (Some (OrgID id))) (λ err, Ret (err, id))
    | [] => Ret (None, id)
    end
  else Ret (None, id).

(** The part of the hook after the membership list was fetched. *)
Definition reconcile (order : list (string * string)) (id : Identity)
    (userID : Z) (result : list UserOrgDTO) : Prog (option error * Identity) :=
  bind (update_existing (OrgRoles id) userID result ∅ []) (λ f1,
    match f1 with
    | Return e => Ret (e, id)
    | Next (handledOrgIds, deleteOrgIds) =>
        bind (add_new userID handledOrgIds order []) (λ f2,
          match f2 with
          | Return e => Ret (e, id)
          | Next orgIDs =>
              bind (remove_stale userID deleteOrgIds) (λ f3,
                match f3 with
                | Return e => Ret (e, id)
                | Next _ => update_default_org id userID orgIDs
                end)
          end)
    end).

(** [SyncOrgRolesHook]: returns the error and the identity as the hook
    leaves it ([id] is a pointer; [id.OrgID] may be overwritten).
    [order] is the order in which [range id.OrgRoles] visits the map. *)
Definition SyncOrgRolesHook (order : list (string * string)) (id : Identity)
  : Prog (option error * Identity) :=
  if negb (SyncOrgRoles (Params id)) then Ret (None, id)
  else if negb (IsNamespace (ID id) NamespaceUser) then Ret (None, id)
  else
    match ParseInt (ID id) with
    | None => Ret (None, id)
    | Some userID =>
        if bool_decide (size (OrgRoles id) = 0) then Ret (None, id)
        else
          GetUserOrgList userID (λ '(result, err),
            match err with
            | Some _ => Ret (None, id)
            | None => reconcile order id userID result
            end)
    end.

(** An order in which Go may visit the entries of map [m]. *)
Definition range_order (m : gmap string string) (order : list (string * string)) : Prop :=
  order ≡ₚ map_to_list m.

(** A lookup by id that came back with a nil organisation. *)
Definition nil_lookup (ev : event) : bool :=
  match ev with
  | EvGetByID _ (None, _) => true
  | _ => false
  end.

(** Runs in which a nil lookup, if any, is the last call and the cause
    of a panic. *)
Definition lookup_safe {A} (tr : list event) (o : outcome A) : Prop :=
  match o with
  | Panicked =>
      ∃ pre ev, tr = pre ++ [ev] ∧ nil_lookup ev = true
                ∧ Forall (λ e, nil_lookup e = false) pre
  | Returned _ => Forall (λ e, nil_lookup e = false) tr
  end.

(** A failed call that makes the hook give up, with the error it
    returns then. *)
Definition fatal (ev : event) : option error :=
  match ev with
  | EvUpdateOrgUser _ (Some e) => Some e
  | EvAddOrgUser _ (Some e) => if errors_Is e ErrOrgNotFound then None else Some e
  | EvRemoveOrgUser _ (Some e) => if errors_Is e ErrLastOrgAdmin then None else Some e
  | _ => None
  end.







(** The organisation a call resolved by name, if it did. *)
Definition resolved_org (ev : event) : option Z :=
  match ev with
  | EvGetByName _ (Some o, None) => Some (Org_ID o)
  | _ => None
  end.

(** The ids of the organisations resolved by name during a run. *)
Definition resolved (tr : list event) : list Z := omap resolved_org tr.

(** [m] is the smallest of [ids]. *)
Definition least (m : Z) (ids : list Z) : Prop :=
  m ∈ ids ∧ ∀ x, x ∈ ids → (m ≤ x)%Z.

(** The organisations looked up by id during a run, in order. *)
Definition looked_up (ev : event) : option Z :=
  match ev with
  | EvGetByID q _ => Some q
  | _ => None
  end.

Definition lookups (tr : list event) : list Z := omap looked_up tr.

(** The names looked up during a run, in order. *)
Definition named (ev : event) : option string :=
  match ev with
  | EvGetByName name _ => Some name
  | _ => None
  end.

Definition names (tr : list event) : list string := omap named tr.

(** The organisations a removal was asked for, in order. *)
Definition removal (ev : event) : option Z :=
  match ev with
  | EvRemoveOrgUser cmd _ => Some (rem_OrgID cmd)
  | _ => None
  end.

Definition removals (tr : list event) : list Z := omap removal tr.

(** The memberships the first loop puts on [deleteOrgIds], in order:
    those whose organisation was found under a name with no role, or
    the empty role, among [roles]. *)
Definition marks (roles : gmap string string) (ev : event) : option Z :=
  match ev with
  | EvGetByID q (Some orgb, _) =>
      if bool_decide (map_index roles (Org_Name orgb) = "") then Some q else None
  | _ => None
  end.

Definition marked (roles : gmap string string) (tr : list event) : list Z :=
  omap (marks roles) tr.

(** The last call of the run failed in a way that makes the hook give up. *)
Definition ends_fatally (tr : list event) : Prop :=
  ∃ pre ev e, tr = pre ++ [ev] ∧ fatal ev = Some e.

(** The last call of the run is a failed [UpdateOrgUser]. *)
Definition ends_in_failed_update (tr : list event) : Prop :=
  ∃ pre cmd e, tr = pre ++ [EvUpdateOrgUser cmd (Some e)].

(** Calls that are neither a lookup, by id or by name, nor a removal. *)
Definition other_call (ev : event) : Prop :=
  looked_up ev = None ∧ named ev = None ∧ removal ev = None.

(** The calls of the first loop over the memberships [result]. *)
Definition first_loop_calls (roles : gmap string string)
    (result : list UserOrgDTO) (deletes : list Z) (tr : list event)
    (o : outcome (flow (gmap Z bool * list Z))) : Prop :=
  lookups tr `prefix_of` (dto_OrgID <$> result)
  ∧ names tr = [] ∧ removals tr = []
  ∧ match o with
    | Returned (Next (_, deletes')) =>
        lookups tr = dto_OrgID <$> result ∧ deletes' = deletes ++ marked roles tr
    | Returned (Return _) => ends_in_failed_update tr
    | Panicked => True
    end.

(** The calls of the second loop over the asserted roles [entries]. *)
Definition second_loop_calls (entries : list (string * string)) (tr : list event)
    (o : outcome (flow (list Z))) : Prop :=
  Forall (λ ev, looked_up ev = None) tr ∧ removals tr = []
  ∧ match o with
    | Returned (Next _) => names tr = entries.*1
    | Returned (Return _) => ends_fatally tr
    | Panicked => True
    end.

(** The calls of the third loop over [deleteOrgIds]. *)
Definition third_loop_calls (deletes : list Z) (tr : list event)
    (o : outcome (flow unit)) : Prop :=
  Forall (λ ev, looked_up ev = None) tr ∧ names tr = []
  ∧ match o with
    | Returned (Next _) => removals tr = deletes
    | Returned (Return _) => ends_fatally tr
    | Panicked => True
    end.

(** The loops of the hook run to their end unless the hook panics or
    gives up on a failed call.  The organisations of the fetched
    memberships [l] are looked up one by one, in order, until a panic
    or a failed update; the asserted names are looked up one by one, in
    the order of the [range], unless the hook has panicked or given up
    before any removal; and a removal is asked for every membership put
    on [deleteOrgIds], in order, unless the hook has panicked or given
    up. *)
Definition iterates {A} (roles : gmap string string)
    (order : list (string * string)) (l : list UserOrgDTO) (tr : list event)
    (o : outcome A) : Prop :=
  lookups tr `prefix_of` (dto_OrgID <$> l)
  ∧ (lookups tr = dto_OrgID <$> l ∨ o = Panicked ∨ ends_in_failed_update tr)
  ∧ (names tr = order.*1 ∨ o = Panicked ∨ (ends_fatally tr ∧ removals tr = []))
  ∧ (removals tr = marked roles tr ∨ o = Panicked ∨ ends_fatally tr).

(** The rest of a run of the hook for user [userID], [ids] being the
    organisations resolved so far, when the active organisation is not
    among the asserted roles: a call of [userService.Update] is the last
    call, carries the smallest resolved id and its answer is the hook's;
    without such a call the identity is untouched, and the hook returns
    nil only if nothing was resolved. *)
Fixpoint default_org_run (id : Identity) (userID : Z) (ids : list Z)
    (tr : list event) (o : outcome (option error * Identity)) : Prop :=
  match tr with
  | [] => o = Panicked ∨ ∃ e, o = Returned (e, id) ∧ (e = None → ids = [])
  | EvUpdate cmd res :: post =>
      post = [] ∧ ∃ m, least m ids ∧ cmd = mkUpdateUser userID (Some m)
                       ∧ o = Returned (res, set_OrgID id m)
  | ev :: post =>
      default_org_run id userID
        (match resolved_org ev with Some x => ids ++ [x] | None => ids end) post o
  end.

(** The services [h], with the error of every [GetByID] answer erased. *)
Definition without_GetByID_error {W} (h : Services W) : Services W :=
  mkServices W (svc_GetUserOrgList h)
    (λ q w, let r := svc_GetByID h q w in ((r.1.1, None), r.2))
    (svc_GetByName h) (svc_UpdateOrgUser h) (svc_AddOrgUser h)
    (svc_RemoveOrgUser h) (svc_DeleteUserPermissions h) (svc_Update h)
    (svc_TagDevice h).

(** No continuation of a [GetByID] node looks at the error it is given. *)
Fixpoint lookup_error_unused {A} (p : Prog A) : Prop :=
  match p with
  | Ret _ | NilDeref => True
  | GetByID _ k =>
      ∀ o e, k (o, e) = k (o, None) ∧ lookup_error_unused (k (o, None))
  | GetUserOrgList _ k => ∀ r, lookup_error_unused (k r)
  | GetByName _ k => ∀ r, lookup_error_unused (k r)
  | UpdateOrgUser _ k => ∀ r, lookup_error_unused (k r)
  | AddOrgUser _ k => ∀ r, lookup_error_unused (k r)
  | RemoveOrgUser _ k => ∀ r, lookup_error_unused (k r)
  | DeleteUserPermissions _ _ k => ∀ r, lookup_error_unused (k r)
  | Update _ k => ∀ r, lookup_error_unused (k r)
  | TagDevice _ k => ∀ r, lookup_error_unused (k r)
  end.

(** The hook gets as far as the membership list: role sync is on, the
    identity is a user with a numeric id, and some role is asserted. *)
Definition syncs (id : Identity) (userID : Z) : Prop :=
  SyncOrgRoles (Params id) = true
  ∧ ns_namespace (ID id) = NamespaceUser
  ∧ ParseInt (ID id) = Some userID
  ∧ OrgRoles id ≠ ∅.

End sync.

(** ** Go's [strings] package, on byte strings *)

Module gostrings.

(** Whether byte [c] occurs in [s]. *)
Fixpoint contains_byte (s : string) (c : ascii) : bool :=
  match s with
  | EmptyString => false
  | String c' rest => bool_decide (c' = c) || contains_byte rest c
  end.

(** [strings.Split(s, sep)] for a one-byte separator: one more piece
    than there are separators. *)
Fixpoint Split (s : string) (sep : ascii) : list string :=
  match s with
  | EmptyString => [""]
  | String c rest =>
      if bool_decide (c = sep) then "" :: Split rest sep
      else match Split rest sep with
           | piece :: pieces => String c piece :: pieces
           | [] => [String c ""]
           end
  end.

(** [strings.LastIndex(s, sep)] for a one-byte separator, counting from
    offset [from]: -1 when [sep] does not occur. *)
Fixpoint last_index_from (from : Z) (s : string) (sep : ascii) : Z :=
  match s with
  | EmptyString => -1
  | String c rest =>
      let later := last_index_from (from + 1) rest sep in
      if bool_decide (later ≠ -1) then later
      else if bool_decide (c = sep) then from
      else -1
  end%Z.

Definition LastIndex (s : string) (sep : ascii) : Z := last_index_from 0 s sep.

Fixpoint take_bytes (n : nat) (s : string) : string :=
  match n, s with
  | S n', String c rest => String c (take_bytes n' rest)
  | _, _ => ""
  end.

Fixpoint drop_bytes (n : nat) (s : string) : string :=
  match n, s with
  | S n', String _ rest => drop_bytes n' rest
  | _, _ => s
  end.

(** The slice expression [s[:i]]: panics unless [0 <= i <= len(s)]. *)
Definition slice_to (s : string) (i : Z) : outcome string :=
  if bool_decide (0 ≤ i ≤ Z.of_nat (String.length s))%Z
  then Returned (take_bytes (Z.to_nat i) s)
  else Panicked.

(** The slice expression [s[j:]]: panics unless [0 <= j <= len(s)]. *)
Definition slice_from (s : string) (j : Z) : outcome string :=
  if bool_decide (0 ≤ j ≤ Z.of_nat (String.length s))%Z
  then Returned (drop_bytes (Z.to_nat j) s)
  else Panicked.

(** The white-space bytes below [utf8.RuneSelf]: tab, newline, vertical
    tab, form feed, carriage return, space. *)
Definition asciiSpace (c : ascii) : bool :=
  let n := nat_of_ascii c in
  bool_decide (9 ≤ n ≤ 13)%nat || bool_decide (n = 32)%nat.

(** The number of bytes of the white-space rune that [s] starts with,
    [0] when it starts with none.  The runes are those of
    [unicode.IsSpace] in their UTF-8 encoding: the six ASCII bytes,
    U+0085, U+00A0, U+1680, U+2000 to U+200A, U+2028, U+2029, U+202F,
    U+205F and U+3000.  A byte that starts no valid encoding decodes to
    a rune of width one that is not white space, and a lead byte is
    never part of the rune before it, so looking for these encodings
    byte by byte finds the runes that decoding finds. *)
Definition space_width (s : string) : nat :=
  match s with
  | EmptyString => 0
  | String c1 rest1 =>
      let n1 := nat_of_ascii c1 in
      if asciiSpace c1 then 1
      else
        match rest1 with
        | EmptyString => 0
        | String c2 rest2 =>
            let n2 := nat_of_ascii c2 in
            if bool_decide (n1 = 194)%nat
               && (bool_decide (n2 = 133)%nat || bool_decide (n2 = 160)%nat)
            then 2
            else
              match rest2 with
              | EmptyString => 0
              | String c3 _ =>
                  let n3 := nat_of_ascii c3 in
                  if (bool_decide (n1 = 225) && bool_decide (n2 = 154)
                      && bool_decide (n3 = 128))%nat
                     || (bool_decide (n1 = 226) && bool_decide (n2 = 128)
                         && (bool_decide (128 ≤ n3 ≤ 138) || bool_decide (n3 = 168)
                             || bool_decide (n3 = 169) || bool_decide (n3 = 175)))%nat
                     || (bool_decide (n1 = 226) && bool_decide (n2 = 129)
                         && bool_decide (n3 = 159))%nat
                     || (bool_decide (n1 = 227) && bool_decide (n2 = 128)
                         && bool_decide (n3 = 128))%nat
                  then 3
                  else 0
              end
        end
  end.

(** [fields_from skip cur s]: [cur] is the field being read, reversed,
    and [skip] counts the bytes of a white-space rune still to pass. *)
Fixpoint fields_from (skip : nat) (cur : list ascii) (s : string) : list string :=
  let flush (rest : list string) :=
    match cur with
    | [] => rest
    | _ => string_of_list_ascii (rev cur) :: rest
    end in
  match s with
  | EmptyString => flush []
  | String c rest =>
      match skip with
      | S skip' => fields_from skip' cur rest
      | O =>
          match space_width s with
          | O => fields_from 0 (c :: cur) rest
          | S more => flush (fields_from more [] rest)
          end
      end
  end.

(** [strings.Fields]: the pieces of [s] between runs of white space. *)
Definition Fields (s : string) : list string := fields_from 0 [] s.

End gostrings.

(** ** Package [setting]: [parseOrgMapperConfig] *)

Module setting.

(** The settings of [AuthJWTSettings] read by role extraction. *)
Record AuthJWTSettings : Type := mkAuthJWTSettings {
  RoleAttributePath : string;
  SkipOrgRoleSync : bool;
  RegexOrgRoleMapper : gmap string string;
}.

Section parse.
(** [strings.Fields]; the library function is a parameter, so that
    nothing below depends on which bytes count as white space. *)
Variable Fields : string → list string.

(** One turn of the loop: [result[split[:i]] = split[i+1:]]. *)
Definition add_mapping (result : gmap string string) (split : string)
  : outcome (gmap string string) :=
  let i := gostrings.LastIndex split ":" in
  match gostrings.slice_to split i with
  | Panicked => Panicked
  | Returned pattern =>
      match gostrings.slice_from split (i + 1) with
      | Panicked => Panicked
      | Returned role => Returned (<[pattern := role]> result)
      end
  end.

Fixpoint add_mappings (result : gmap string string) (splits : list string)
  : outcome (gmap string string) :=
  match splits with
  | [] => Returned result
  | split :: rest =>
      match add_mapping result split with
      | Panicked => Panicked
      | Returned result => add_mappings result rest
      end
  end.

Definition parseOrgMapperConfig (input : string) : outcome (gmap string string) :=
  if bool_decide (input = "") then Returned ∅
  else add_mappings ∅ (Fields input).
End parse.

(** [token] reads [pattern:role], the colon shown being its last one. *)
Definition is_mapping (token pattern role : string) : Prop :=
  token = pattern +:+ String ":" role ∧ gostrings.contains_byte role ":" = false.

End setting.

(** ** Package [clients]: [JWT.extractRolesAndAdmin] *)

Module clients.

(** What the code uses of a compiled [*regexp.Regexp]. *)
Record Regexp : Type := mkRegexp {
  FindStringSubmatch : string → list string;
  SubexpNames : list string;
}.

Section JWT.
(** Verified claims ([map[string]any]) are opaque here. *)
Context {Claims : Type}.
(** [util.SearchJSONForStringSliceAttr] is outside the embedded files. *)
Variable SearchJSONForStringSliceAttr :
  string → Claims → list string * option error.
(** [regexp.MustCompile]: [None] when it panics on the pattern. *)
Variable MustCompile : string → option Regexp.

(** [for i, name := range myExp.SubexpNames()] *)
Fixpoint assign_groups (names : list string) (i : nat) (match_ : list string)
    (grafanaRole : string) (resultOrgRoles : gmap string string)
  : outcome (gmap string string) :=
  match names with
  | [] => Returned resultOrgRoles
  | name :: rest =>
      if bool_decide (i ≠ 0%nat) && bool_decide (name = "org") then
        match match_ !! i with
        | None => Panicked
        | Some org =>
            if bool_decide (map_index resultOrgRoles org = "") then
              assign_groups rest (S i) match_ grafanaRole
                (<[org := grafanaRole]> resultOrgRoles)
            else assign_groups rest (S i) match_ grafanaRole resultOrgRoles
        end
      else assign_groups rest (S i) match_ grafanaRole resultOrgRoles
  end.

(** [for regexString, grafanaRole := range RegexOrgRoleMapper];
    [patterns] is the order in which [range] visits the map. *)
Fixpoint match_patterns (patterns : list (string * string)) (jwtRole : string)
    (resultOrgRoles : gmap string string) : outcome (gmap string string) :=
  match patterns with
  | [] => Returned resultOrgRoles
  | (regexString, grafanaRole) :: rest =>
      match MustCompile regexString with
      | None => Panicked
      | Some myExp =>
          let match_ := FindStringSubmatch myExp jwtRole in
          if bool_decide (0 < length match_)%nat then
            match assign_groups (SubexpNames myExp) 0 match_ grafanaRole
                    resultOrgRoles with
            | Panicked => Panicked
            | Returned resultOrgRoles =>
                match_patterns rest jwtRole resultOrgRoles
            end
          else match_patterns rest jwtRole resultOrgRoles
      end
  end.

(** [for _, jwtRole := range rolesSlice], regex mode.  The inner
    [range] over the map is a fresh iteration for every role string:
    [order n] is the order of the [n]-th one. *)
Fixpoint regex_roles (order : nat → list (string * string)) (n : nat)
    (rolesSlice : list string) (resultOrgRoles : gmap string string)
  : outcome (gmap string string) :=
  match rolesSlice with
  | [] => Returned resultOrgRoles
  | jwtRole :: rest =>
      match match_patterns (order n) jwtRole resultOrgRoles with
      | Panicked => Panicked
      | Returned resultOrgRoles => regex_roles order (S n) rest resultOrgRoles
      end
  end.

(** [for _, role := range rolesSlice], static mode. *)
Fixpoint static_roles (rolesSlice : list string)
    (resultOrgRoles : gmap string string) : gmap string string :=
  match rolesSlice with
  | [] => resultOrgRoles
  | role :: rest =>
      match gostrings.Split role ":" with
      | [_; org; kind] =>
          if bool_decide (kind = "admin") then
            static_roles rest (<[org := RoleEditor]> resultOrgRoles)
          else if bool_decide (kind = "viewer") then
            static_roles rest (<[org := RoleViewer]> resultOrgRoles)
          else static_roles rest resultOrgRoles
      | _ => static_roles rest resultOrgRoles
      end
  end.

Definition extractRolesAndAdmin (cfg : setting.AuthJWTSettings)
    (order : nat → list (string * string)) (claims : Claims)
  : outcome (gmap string string * bool) :=
  if bool_decide (setting.RoleAttributePath cfg = "") then Returned (∅, false)
  else
    let '(rolesSlice, err) :=
      SearchJSONForStringSliceAttr (setting.RoleAttributePath cfg) claims in
    if bool_decide (is_Some err) || bool_decide (length rolesSlice = 0%nat)
    then Returned (∅, false)
    else if bool_decide (0 < size (setting.RegexOrgRoleMapper cfg))%nat then
      match regex_roles order 0 rolesSlice ∅ with
      | Panicked => Panicked
      | Returned resultOrgRoles => Returned (resultOrgRoles, false)
      end
    else Returned (static_roles rolesSlice ∅, false).
End JWT.

(** [role] reads [scope:org:kind], with no other colon. *)
Definition is_triple (role scope org kind : string) : Prop :=
  role = scope +:+ String ":" (org +:+ String ":" kind)
  ∧ gostrings.contains_byte scope ":" = false
  ∧ gostrings.contains_byte org ":" = false
  ∧ gostrings.contains_byte kind ":" = false.

(** A role string that assigns [r] to [org] in static mode. *)
Definition static_contribution (role org r : string) : Prop :=
  ∃ scope, (is_triple role scope org "admin" ∧ r = RoleEditor)
           ∨ (is_triple role scope org "viewer" ∧ r = RoleViewer).

(** Orders in which the successive [range] statements may visit [m]. *)
Definition range_orders (m : gmap string string)
    (order : nat → list (string * string)) : Prop :=
  ∀ n, order n ≡ₚ map_to_list m.

End clients.

(** ** A small backtracking matcher standing in for Go's [regexp]

    Enough of the library to run role patterns such as
    [eng:(?P<org>[^:]+):admin]: literals, [[^c]], [.], concatenation,
    greedy [*] and capture groups, searched leftmost-first. *)

Module regexp.

Inductive syntax : Type :=
| Eps
| Lit (c : ascii)
| NotLit (c : ascii)
| Any
| Cat (r1 r2 : syntax)
| Star (r : syntax)
| Group (name : string) (r : syntax).

(** Names of the capture groups, in the order of their opening
    parentheses. *)
Fixpoint group_names (r : syntax) : list string :=
  match r with
  | Eps | Lit _ | NotLit _ | Any => []
  | Cat r1 r2 => group_names r1 ++ group_names r2
  | Star r1 => group_names r1
  | Group name r1 => name :: group_names r1
  end.

Definition captures := gmap nat string.

(** [step r idx s caps k]: match [r] at the start of [s] and pass what
    is left to [k]; [idx] groups were opened to the left of [r]. *)
Fixpoint step {R : Type} (r : syntax) (idx : nat) (s : string) (caps : captures)
    (k : string → captures → option R) {struct r} : option R :=
  match r with
  | Eps => k s caps
  | Lit c =>
      match s with
      | String c' rest => if bool_decide (c' = c) then k rest caps else None
      | EmptyString => None
      end
  | NotLit c =>
      match s with
      | String c' rest => if bool_decide (c' ≠ c) then k rest caps else None
      | EmptyString => None
      end
  | Any =>
      match s with
      | String c' rest =>
          if bool_decide (c' ≠ "010"%char) then k rest caps else None
      | EmptyString => None
      end
  | Cat r1 r2 =>
      step r1 idx s caps
        (λ s' caps', step r2 (idx + length (group_names r1)) s' caps' k)
  | Star r1 =>
      (fix star (fuel : nat) (s : string) (caps : captures) : option R :=
         match fuel with
         | O => k s caps
         | S fuel' =>
             match step r1 idx s caps (λ s' caps',
                     if bool_decide (String.length s' < String.length s)%nat
                     then star fuel' s' caps' else None) with
             | Some x => Some x
             | None => k s caps
             end
         end) (String.length s) s caps
  | Group _ r1 =>
      step r1 (S idx) s caps (λ s' caps',
        k s' (<[S idx :=
                gostrings.take_bytes (String.length s - String.length s') s]> caps'))
  end.

(** Leftmost match: try every start offset in turn. *)
Fixpoint find (r : syntax) (s : string) : option (string * string * captures) :=
  match step r 0 s ∅ (λ rest caps, Some (rest, caps)) with
  | Some (rest, caps) => Some (s, rest, caps)
  | None =>
      match s with
      | String _ s' => find r s'
      | EmptyString => None
      end
  end.

(** The whole match followed by the text of every group, [""] for a
    group that took no part; nil when nothing matches. *)
Definition find_submatch (r : syntax) (s : string) : list string :=
  match find r s with
  | Some (start, rest, caps) =>
      gostrings.take_bytes (String.length start - String.length rest) start
      :: map (λ i, default "" (caps !! i)) (seq 1 (length (group_names r)))
  | None => []
  end.

Definition compile (r : syntax) : clients.Regexp :=
  clients.mkRegexp (find_submatch r) ("" :: group_names r).

(** A literal string. *)
Fixpoint lit (s : string) : syntax :=
  match s with
  | EmptyString => Eps
  | String c rest => Cat (Lit c) (lit rest)
  end.

(** [r+] *)
Definition plus (r : syntax) : syntax := Cat r (Star r).

(** [MustCompile] for a known set of patterns, given with their parse;
    any other pattern counts as invalid. *)
Definition MustCompile (known : list (string * syntax)) (pattern : string)
  : option clients.Regexp :=
  compile <$> (list_to_map known : gmap string syntax) !! pattern.

End regexp.

(** ** An in-memory implementation of the consumed services *)

Module memstore.

Record OrgUser : Type :=
  mkOrgUser { ou_OrgID : Z; ou_UserID : Z; ou_Role : string }.

#[global] Instance OrgUser_eq_dec : EqDecision OrgUser.
Proof. solve_decision. Defined.

(** Modelled from the spec: the organisation directory, the membership
    service and the user directory are persistence implementations
    outside the embedded files.  The spec (section 6) gives their
    operations: list memberships by user id; add, update and remove a
    (user, organisation, role) membership, "where removal may reject
    with a last admin condition"; look an organisation up by name or by
    id; update a user's active organisation; delete the permissions of
    a (user, organisation) pair; tag a device. *)
Record Store : Type := mkStore {
  orgs : list Org;
  org_users : list OrgUser;
  user_org : gmap Z Z;
  permissions : list (Z * Z);
}.

Definition org_by_id (s : Store) (id : Z) : option Org :=
  head (filter (λ o, Org_ID o = id) (orgs s)).

Definition org_by_name (s : Store) (name : string) : option Org :=
  head (filter (λ o, Org_Name o = name) (orgs s)).

Definition memberships_of (s : Store) (userID : Z) : list OrgUser :=
  filter (λ m, ou_UserID m = userID) (org_users s).

Definition is_member (s : Store) (orgID userID : Z) : bool :=
  bool_decide (Exists (λ m, ou_OrgID m = orgID ∧ ou_UserID m = userID) (org_users s)).

(** The user is an admin of the organisation and nobody else is. *)
Definition last_admin (s : Store) (orgID userID : Z) : bool :=
  bool_decide (Exists (λ m, ou_OrgID m = orgID ∧ ou_UserID m = userID
                            ∧ ou_Role m = RoleAdmin) (org_users s))
  && bool_decide (Forall (λ m, ou_OrgID m = orgID → ou_Role m = RoleAdmin
                               → ou_UserID m = userID) (org_users s)).

Definition to_dto (s : Store) (m : OrgUser) : UserOrgDTO :=
  mkUserOrgDTO (ou_OrgID m)
    (default "" (Org_Name <$> org_by_id s (ou_OrgID m))) (ou_Role m).

Definition with_org_users (s : Store) (l : list OrgUser) : Store :=
  mkStore (orgs s) l (user_org s) (permissions s).

Definition set_role (orgID userID : Z) (role : string) (m : OrgUser) : OrgUser :=
  if bool_decide (ou_OrgID m = orgID ∧ ou_UserID m = userID)
  then mkOrgUser orgID userID role else m.

Definition GetUserOrgList (userID : Z) (s : Store)
  : (list UserOrgDTO * option error) * Store :=
  ((to_dto s <$> memberships_of s userID, None), s).

Definition GetByID (id : Z) (s : Store) : (option Org * option error) * Store :=
  match org_by_id s id with
  | Some o => ((Some o, None), s)
  | None => ((None, Some ErrOrgNotFound), s)
  end.

Definition GetByName (name : string) (s : Store)
  : (option Org * option error) * Store :=
  match org_by_name s name with
  | Some o => ((Some o, None), s)
  | None => ((None, Some ErrOrgNotFound), s)
  end.

Definition UpdateOrgUser (cmd : UpdateOrgUserCommand) (s : Store)
  : option error * Store :=
  if is_member s (upd_OrgID cmd) (upd_UserID cmd) then
    (None, with_org_users s
             (set_role (upd_OrgID cmd) (upd_UserID cmd) (upd_Role cmd)
                <$> org_users s))
  else (Some (ErrOther "org user not found"), s).

Definition AddOrgUser (cmd : AddOrgUserCommand) (s : Store)
  : option error * Store :=
  match org_by_id s (add_OrgID cmd) with
  | None => (Some ErrOrgNotFound, s)
  | Some _ =>
      if is_member s (add_OrgID cmd) (add_UserID cmd) then
        (Some (ErrOther "user is already member of this organization"), s)
      else
        (None, with_org_users s
                 (org_users s ++
                  [mkOrgUser (add_OrgID cmd) (add_UserID cmd) (add_Role cmd)]))
  end.

Definition RemoveOrgUser (cmd : RemoveOrgUserCommand) (s : Store)
  : option error * Store :=
  if last_admin s (rem_OrgID cmd) (rem_UserID cmd) then (Some ErrLastOrgAdmin, s)
  else
    (None, with_org_users s
             (filter (λ m, ¬ (ou_OrgID m = rem_OrgID cmd
                              ∧ ou_UserID m = rem_UserID cmd)) (org_users s))).

Definition DeleteUserPermissions (orgID userID : Z) (s : Store)
  : option error * Store :=
  (None, mkStore (orgs s) (org_users s) (user_org s)
           (filter (λ p, p ≠ (orgID, userID)) (permissions s))).

Definition Update (cmd : UpdateUserCommand) (s : Store) : option error * Store :=
  match uu_OrgID cmd with
  | Some orgID =>
      (None, mkStore (orgs s) (org_users s)
               (<[uu_UserID cmd := orgID]> (user_org s)) (permissions s))
  | None => (None, s)
  end.

Definition TagDevice (req : HttpRequest) (s : Store) : option error * Store :=
  (None, s).

Definition services : Services Store :=
  mkServices Store GetUserOrgList GetByID GetByName UpdateOrgUser AddOrgUser
    RemoveOrgUser DeleteUserPermissions Update TagDevice.

(** The (organisation, role) pairs of a user's memberships. *)
Definition roles_of (s : Store) (userID : Z) : list (Z * string) :=
  (λ m, (ou_OrgID m, ou_Role m)) <$> memberships_of s userID.

End memstore.

(** ** Concrete worlds used in the examples *)

Module scenario.

(** The services of [memstore] with a device store that answers [r]. *)
Definition with_TagDevice (r : option error) : Services memstore.Store :=
  mkServices memstore.Store
    memstore.GetUserOrgList memstore.GetByID memstore.GetByName
    memstore.UpdateOrgUser memstore.AddOrgUser memstore.RemoveOrgUser
    memstore.DeleteUserPermissions memstore.Update (λ _ s, (r, s)).

(** The services of [memstore] with a membership service whose
    [AddOrgUser] answers [r]. *)
Definition with_AddOrgUser (r : option error) : Services memstore.Store :=
  mkServices memstore.Store
    memstore.GetUserOrgList memstore.GetByID memstore.GetByName
    memstore.UpdateOrgUser (λ _ s, (r, s)) memstore.RemoveOrgUser
    memstore.DeleteUserPermissions memstore.Update memstore.TagDevice.


Definition main_org : Org := mkOrg 1 "Main Org.".

Definition anon_cfg : anonimpl.Cfg := anonimpl.mkCfg true "Main Org." "Viewer".

Definition one_org : memstore.Store :=
  memstore.mkStore [main_org] [] ∅ [].

Definition no_request : Request := mkRequest None.

(** Role claims: the verified claims are the list of role strings
    itself, found under any attribute path. *)
Definition claimed_roles (path : string) (claims : list string)
  : list string * option error := (claims, None).

Definition static_cfg : setting.AuthJWTSettings :=
  setting.mkAuthJWTSettings "roles" false ∅.

(** [regex_org_role_mapper] with an admin rule and a catch-all rule. *)
Definition mapper_config : string :=
  "(?P<org>[^:]+):admin:Editor (?P<org>[^:]+):.*:Viewer".

Definition admin_pattern : string := "(?P<org>[^:]+):admin".
Definition any_pattern : string := "(?P<org>[^:]+):.*".

Definition known_patterns : list (string * regexp.syntax) :=
  [ (admin_pattern,
     regexp.Cat (regexp.Group "org" (regexp.plus (regexp.NotLit ":")))
                (regexp.lit ":admin"));
    (any_pattern,
     regexp.Cat (regexp.Group "org" (regexp.plus (regexp.NotLit ":")))
                (regexp.Cat (regexp.Lit ":") (regexp.Star regexp.Any))) ].

Definition role_mapper : gmap string string :=
  <[any_pattern := "Viewer"]> (<[admin_pattern := "Editor"]> ∅).

Definition regex_cfg : setting.AuthJWTSettings :=
  setting.mkAuthJWTSettings "roles" false role_mapper.

(** The two orders in which [range] can visit [role_mapper]. *)
Definition admin_first (n : nat) : list (string * string) :=
  [(admin_pattern, "Editor"); (any_pattern, "Viewer")].
Definition admin_last (n : nat) : list (string * string) :=
  [(any_pattern, "Viewer"); (admin_pattern, "Editor")].

(** A user identity as the JWT client hands it to the hooks. *)
Definition user_identity (ident orgName : string) (orgID : Z)
    (roles : gmap string string) : Identity :=
  {| ID := mkNamespaceID NamespaceUser ident;
     OrgID := orgID; OrgName := orgName; OrgRoles := roles;
     Login := "alice"; Name := ""; Email := "";
     AuthenticatedBy := "jwt"; AuthID := "alice";
     Params := mkClientParams true false true false true true |}.

(** Organisations A (id 5) and B (id 2); user 7 is a viewer of A and
    the only admin of B, and B is the user's active organisation. *)
Definition two_orgs : memstore.Store :=
  memstore.mkStore [mkOrg 5 "A"; mkOrg 2 "B"]
    [memstore.mkOrgUser 5 7 "Viewer"; memstore.mkOrgUser 2 7 "Admin"]
    {[ 7%Z := 2%Z ]} [(5, 7); (2, 7)]%Z.

(** The same organisations; user 7 is a viewer of both and user 8 is
    the admin of B. *)
Definition two_orgs_viewer : memstore.Store :=
  memstore.mkStore [mkOrg 5 "A"; mkOrg 2 "B"]
    [memstore.mkOrgUser 5 7 "Viewer"; memstore.mkOrgUser 2 7 "Viewer";
     memstore.mkOrgUser 2 8 "Admin"]
    {[ 7%Z := 2%Z ]} [(5, 7); (2, 7)]%Z.

(** The directory alone: user 7 is a member of nothing yet. *)
Definition no_memberships : memstore.Store :=
  memstore.mkStore [mkOrg 5 "A"; mkOrg 2 "B"] [] ∅ [].


(** User 7, acting in B, with the asserted roles A: Editor. *)
Definition alice : Identity := user_identity "7" "B" 2 {[ "A" := "Editor" ]}.

End scenario.

(** ** Package [sync]: [SetDefaultOrgHook] and [validateUsingOrg] *)

Module defaultorg.

(** [fmt.Errorf(format, err)] with a [%w] verb: an error that
    [errors.Is] the error it wraps. *)
Definition wrap (format : string) (err : error) : error := Errorf err format 0.

(** "validate that the org id in the list" *)
Fixpoint org_listed (orgID : Z) (result : list UserOrgDTO) : bool :=
  match result with
  | [] => false
  | other :: rest =>
      if bool_decide (dto_OrgID other = orgID) then true
      else org_listed orgID rest
  end.

Definition validateUsingOrg (userID orgID : Z) : Prog (bool * option error) :=
  GetUserOrgList userID (λ '(result, err),
    match err with
    | Some e =>
        Ret (false, Some (wrap "failed to get user's organizations: %w" e))
    | None => Ret (org_listed orgID result, None)
    end).

(** [SetDefaultOrgHook]; [LoginDefaultOrgId] is the setting of
    [setting.Cfg], [currentIdentity] may be nil and [err] is the error
    of the authentication so far.  The hook returns nothing. *)
Definition SetDefaultOrgHook (LoginDefaultOrgId : Z)
    (currentIdentity : option Identity) (err : option error) : Prog unit :=
  if bool_decide (LoginDefaultOrgId < 1)%Z then Ret ()
  else
    match currentIdentity, err with
    | None, _ => Ret ()
    | Some _, Some _ => Ret ()
    | Some currentIdentity, None =>
        if negb (IsNamespace (ID currentIdentity) NamespaceUser) then Ret ()
        else
          match ParseInt (ID currentIdentity) with
          | None => Ret ()
          | Some userID =>
              bind (validateUsingOrg userID LoginDefaultOrgId)
                (λ '(hasAssignedToOrg, err),
                  match err with
                  | Some _ => Ret ()
                  | None =>
                      if negb hasAssignedToOrg then Ret ()
                      else
                        Update (mkUpdateUser userID (Some LoginDefaultOrgId))
                          (λ _, Ret ())
                  end)
          end
    end.

(** The hook gets as far as the membership list. *)
Definition applies (LoginDefaultOrgId : Z) (currentIdentity : option Identity)
    (err : option error) (userID : Z) : Prop :=
  (1 ≤ LoginDefaultOrgId)%Z ∧ err = None
  ∧ ∃ id, currentIdentity = Some id
          ∧ ns_namespace (ID id) = NamespaceUser
          ∧ ParseInt (ID id) = Some userID.

End defaultorg.

(** ** Package [authn]: [Identity.GetOrgRole] *)

Module identity.

(** A nil [OrgRoles] reads like an empty one. *)
Definition GetOrgRole (i : Identity) : RoleType :=
  if bool_decide (map_index (OrgRoles i) (OrgName i) = "") then RoleNone
  else map_index (OrgRoles i) (OrgName i).

Definition HasUniqueId (i : Identity) : bool :=
  bool_decide (ns_namespace (ID i) = NamespaceUser)
  || bool_decide (ns_namespace (ID i) = NamespaceServiceAccount)
  || bool_decide (ns_namespace (ID i) = NamespaceAPIKey).

End identity.

(** ** Package [middleware]: [OrgRedirect] *)

Module middleware.

(** [strconv.ParseInt(s, 10, 64)], the parser behind [ParseInt]. *)
Definition ParseInt64 (s : string) : option Z :=
  ParseInt (mkNamespaceID NamespaceUser s).

(** What the handler reads of [contexthandler.ReqContext]. *)
Record ReqContext : Type := mkReqContext {
  IsSignedIn : bool;
  ctx_OrgID : Z;
  ctx_UserID : Z;
  IsApiRequest : bool;
}.

(** What the handler writes to the response, if anything. *)
Inductive response : Type :=
| JsonApiErr (status : Z) (message : string)
| HttpError (message : string) (status : Z).

(** [OrgRedirect], on the value of the [orgId] query parameter and the
    request context.  The redirect that used to end the handler is
    commented out in the source. *)
Definition OrgRedirect (orgIdValue : string) (ctx : ReqContext)
  : Prog (option response) :=
  match ParseInt64 orgIdValue with
  | None => Ret None
  | Some orgId =>
      if bool_decide (orgId = 0%Z) then Ret None
      else if negb (IsSignedIn ctx) then Ret None
      else if bool_decide (orgId = ctx_OrgID ctx) then Ret None
      else
        Update (mkUpdateUser (ctx_UserID ctx) (Some orgId)) (λ err,
          match err with
          | Some _ =>
              if IsApiRequest ctx then Ret (Some (JsonApiErr 404 "Not found"))
              else Ret (Some (HttpError "Not found" 404))
          | None => Ret None
          end)
  end.

(** The request asks a signed-in user to switch to another organisation. *)
Definition switch_requested (orgIdValue : string) (ctx : ReqContext) (orgId : Z) : Prop :=
  ParseInt64 orgIdValue = Some orgId ∧ orgId ≠ 0%Z
  ∧ IsSignedIn ctx = true ∧ orgId ≠ ctx_OrgID ctx.

End middleware.

(** ** Package [clients]: the token of a request *)

Module jwt.

(** What the token functions read of [AuthJWTSettings]. *)
Record Cfg : Type := mkCfg {
  Enabled : bool;
  HeaderName : string;
  URLLogin : bool;
}.

(** An [http.Request] as the client sees it: [Header.Get], and the
    [url.Values] that [URL.Query()] parses out of the raw query. *)
Record HTTPRequest : Type := mkHTTPRequest {
  HeaderGet : string → string;
  Query : gmap string (list string);
}.

Definition authQueryParamName : string := "auth_token".

(** [url.Values.Get] *)
Definition values_Get (v : gmap string (list string)) (key : string) : string :=
  match v !! key with
  | Some (first :: _) => first
  | _ => ""
  end.

(** [url.Values.Has] *)
Definition values_Has (v : gmap string (list string)) (key : string) : bool :=
  bool_decide (is_Some (v !! key)).

(** [strings.TrimPrefix] *)
Fixpoint TrimPrefix (s prefix : string) : option string :=
  match prefix, s with
  | EmptyString, _ => Some s
  | String p prefix', String c s' =>
      if bool_decide (c = p) then TrimPrefix s' prefix' else None
  | String _ _, EmptyString => None
  end.

Definition trim_prefix (s prefix : string) : string :=
  default s (TrimPrefix s prefix).

Definition retrieveToken (cfg : Cfg) (httpRequest : HTTPRequest) : string :=
  let jwtToken := HeaderGet httpRequest (HeaderName cfg) in
  let jwtToken :=
    if bool_decide (jwtToken = "") && URLLogin cfg
    then values_Get (Query httpRequest) "auth_token"
    else jwtToken in
  trim_prefix jwtToken "Bearer ".

(** [params.Del] followed by [RawQuery = params.Encode()]: the query
    parses to the same values without the parameter. *)
Definition stripSensitiveParam (cfg : Cfg) (httpRequest : HTTPRequest) : HTTPRequest :=
  if URLLogin cfg then
    if values_Has (Query httpRequest) authQueryParamName then
      mkHTTPRequest (HeaderGet httpRequest)
        (delete authQueryParamName (Query httpRequest))
    else httpRequest
  else httpRequest.

(** [JWT.Test]; [authJWT.HasSubClaim] is outside the embedded files. *)
Definition Test (HasSubClaim : string → bool) (cfg : Cfg)
    (httpRequest : HTTPRequest) : bool :=
  if negb (Enabled cfg) || bool_decide (HeaderName cfg = "") then false
  else
    let jwtToken := retrieveToken cfg httpRequest in
    if bool_decide (jwtToken = "") then false
    else if negb (HasSubClaim jwtToken) then false
    else true.

Definition roleGrafanaAdmin : string := "GrafanaAdmin".

(** [JWT.extractRoleAndAdmin]; [util.SearchJSONForStringAttr] is outside
    the embedded files. *)
Definition extractRoleAndAdmin {Claims : Type}
    (SearchJSONForStringAttr : string → Claims → string * option error)
    (RoleAttributePath : string) (claims : Claims) : RoleType * bool :=
  if bool_decide (RoleAttributePath = "") then ("", false)
  else
    let '(role, err) := SearchJSONForStringAttr RoleAttributePath claims in
    if bool_decide (is_Some err) || bool_decide (role = "") then ("", false)
    else if bool_decide (role = roleGrafanaAdmin) then (RoleAdmin, true)
    else (role, false).

End jwt.

(** ** What the role sync may ask of the services *)

Module syncfacts.

(** [each_with_past φ tr]: every call of the run, seen with the calls
    made before it, satisfies [φ]. *)
Definition each_with_past (φ : list event → event → Prop) (tr : list event) : Prop :=
  ∀ pre ev post, tr = pre ++ ev :: post → φ pre ev.

(** The run started by fetching memberships [l] of user [userID]. *)
Definition fetched (userID : Z) (l : list UserOrgDTO) (past : list event) : Prop :=
  head past = Some (EvGetUserOrgList userID (l, None)).

(** Membership [dto] was fetched, its organisation was looked up and the
    name found has no asserted role. *)
Definition unasserted (roles : gmap string string) (userID : Z)
    (past : list event) (orgID : Z) : Prop :=
  ∃ l dto org e,
    fetched userID l past ∧ dto ∈ l ∧ dto_OrgID dto = orgID
    ∧ EvGetByID orgID (Some org, e) ∈ past
    ∧ map_index roles (Org_Name org) = "".

(** The reason the hook has for a call, given the calls before it. *)
Definition justified (roles : gmap string string) (order : list (string * string))
    (userID : Z) (past : list event) (ev : event) : Prop :=
  match ev with
  | EvGetUserOrgList u _ => u = userID ∧ past = []
  | EvGetByID orgID _ =>
      ∃ l dto, fetched userID l past ∧ dto ∈ l ∧ dto_OrgID dto = orgID
  | EvGetByName name _ => ∃ role, (name, role) ∈ order
  | EvUpdateOrgUser cmd _ =>
      upd_UserID cmd = userID
      ∧ ∃ l dto org e,
          fetched userID l past ∧ dto ∈ l ∧ dto_OrgID dto = upd_OrgID cmd
          ∧ last past = Some (EvGetByID (upd_OrgID cmd) (Some org, e))
          ∧ upd_Role cmd = map_index roles (Org_Name org)
          ∧ upd_Role cmd ≠ "" ∧ upd_Role cmd ≠ dto_Role dto
  | EvAddOrgUser cmd _ =>
      add_UserID cmd = userID
      ∧ ∃ name org l,
          last past = Some (EvGetByName name (Some org, None))
          ∧ (name, add_Role cmd) ∈ order ∧ add_OrgID cmd = Org_ID org
          ∧ fetched userID l past ∧ Org_ID org ∉ (dto_OrgID <$> l)
  | EvRemoveOrgUser cmd _ =>
      rem_UserID cmd = userID ∧ unasserted roles userID past (rem_OrgID cmd)
  | EvDeleteUserPermissions orgID u _ =>
      u = userID
      ∧ last past = Some (EvRemoveOrgUser (mkRemoveOrgUser orgID userID) None)
  | EvUpdate cmd _ => uu_UserID cmd = userID
  | EvTagDevice _ _ => False
  end.

(** Every call of a run that continues the calls [past] has its reason. *)
Definition justified_from {A} (roles : gmap string string)
    (order : list (string * string)) (userID : Z) (past : list event)
    (tr : list event) (o : outcome A) : Prop :=
  each_with_past (λ pre, justified roles order userID (past ++ pre)) tr.

(** A call that names a user names [userID]; devices are not tagged. *)
Definition about_user (userID : Z) (ev : event) : Prop :=
  match ev with
  | EvGetUserOrgList u _ => u = userID
  | EvGetByID _ _ | EvGetByName _ _ => True
  | EvUpdateOrgUser cmd _ => upd_UserID cmd = userID
  | EvAddOrgUser cmd _ => add_UserID cmd = userID
  | EvRemoveOrgUser cmd _ => rem_UserID cmd = userID
  | EvDeleteUserPermissions _ u _ => u = userID
  | EvUpdate cmd _ => uu_UserID cmd = userID
  | EvTagDevice _ _ => False
  end.

Definition is_Update (ev : event) : bool :=
  match ev with
  | EvUpdate _ _ => true
  | _ => false
  end.

(** The hook hands back [id], up to its [OrgID]; with the active
    organisation among the asserted roles it hands back [id] itself and
    has not called [userService.Update]. *)
Definition identity_kept (id : Identity) (tr : list event)
    (o : outcome (option error * Identity)) : Prop :=
  match o with
  | Returned (_, id') =>
      id' = set_OrgID id (OrgID id')
      ∧ (is_Some (OrgRoles id !! OrgName id) → id' = id)
  | Panicked => True
  end
  ∧ (is_Some (OrgRoles id !! OrgName id) → Forall (λ ev, is_Update ev = false) tr).

Definition no_Update {A} (tr : list event) (o : outcome A) : Prop :=
  Forall (λ ev, is_Update ev = false) tr.

(** The error a loop hands to its [return]. *)
Definition flow_error {S} (f : sync.flow S) : option error :=
  match f with
  | sync.Return e => e
  | sync.Next _ => None
  end.

(** An error that is returned is the answer of the last call, which is
    a failed membership change the hook gives up on or the update of the
    default organisation. *)
Definition surfaced {A} (err_of : A → option error) (tr : list event)
    (o : outcome A) : Prop :=
  ∀ a e, o = Returned a → err_of a = Some e →
    ∃ pre ev, tr = pre ++ [ev]
              ∧ (sync.fatal ev = Some e ∨ ∃ cmd, ev = EvUpdate cmd (Some e)).

(** A successful removal is followed at once by the deletion of the
    user's permissions in that organisation. *)
Definition cleaned_up (ev : event) (post : list event) : Prop :=
  match ev with
  | EvRemoveOrgUser cmd None =>
      ∃ r post',
        post = EvDeleteUserPermissions (rem_OrgID cmd) (rem_UserID cmd) r :: post'
  | _ => True
  end.

Definition removals_cleaned_up {A} (tr : list event) (o : outcome A) : Prop :=
  each_event (λ ev post _, cleaned_up ev post) tr o.

(** A removal of the user from organisation [x] was asked for. *)
Definition removal_tried (userID : Z) (tr : list event) (x : Z) : Prop :=
  ∃ r, EvRemoveOrgUser (mkRemoveOrgUser x userID) r ∈ tr.

(** Membership [dto] was dealt with: its organisation was looked up,
    and with no role asserted for the name found it is [deleted]; with
    a role asserted, the membership has that role already or was
    updated to it. *)
Definition reconciled (roles : gmap string string) (userID : Z)
    (deleted : Z → Prop) (tr : list event) (dto : UserOrgDTO) : Prop :=
  ∃ org e,
    EvGetByID (dto_OrgID dto) (Some org, e) ∈ tr
    ∧ if bool_decide (map_index roles (Org_Name org) = "")
      then deleted (dto_OrgID dto)
      else map_index roles (Org_Name org) = dto_Role dto
           ∨ EvUpdateOrgUser
               (mkUpdateOrgUser (dto_OrgID dto) userID
                  (map_index roles (Org_Name org))) None ∈ tr.

(** The asserted role [entry] was dealt with: the organisation was
    looked up by name, and if it was found without error the user is
    [known] there or an add with the asserted role was asked for. *)
Definition provisioned (userID : Z) (known : Z → Prop) (tr : list event)
    (entry : string * string) : Prop :=
  ∃ r, EvGetByName entry.1 r ∈ tr
       ∧ ∀ org, r = (Some org, None) →
           known (Org_ID org)
           ∨ ∃ e, EvAddOrgUser (mkAddOrgUser userID entry.2 (Org_ID org)) e ∈ tr.

(** A loop that returns from the hook returns an error. *)
Definition returns_error {S} (o : outcome (sync.flow S)) : Prop :=
  ∀ e, o = Returned (sync.Return e) → is_Some e.

Definition memberships_done (roles : gmap string string) (userID : Z)
    (result : list UserOrgDTO) (handled : gmap Z bool) (deletes : list Z)
    (tr : list event) (o : outcome (sync.flow (gmap Z bool * list Z))) : Prop :=
  returns_error o
  ∧ ∀ handled' deletes', o = Returned (sync.Next (handled', deletes')) →
      (∀ dto, dto ∈ result → reconciled roles userID (λ x, x ∈ deletes') tr dto)
      ∧ deletes ⊆ deletes'
      ∧ (∀ x, is_Some (handled' !! x) →
              is_Some (handled !! x) ∨ x ∈ dto_OrgID <$> result).

Definition roles_done (userID : Z) (handled : gmap Z bool)
    (entries : list (string * string)) (tr : list event)
    (o : outcome (sync.flow (list Z))) : Prop :=
  returns_error o
  ∧ ∀ orgIDs', o = Returned (sync.Next orgIDs') →
      ∀ entry, entry ∈ entries →
        provisioned userID (λ x, is_Some (handled !! x)) tr entry.

Definition removals_done (userID : Z) (deletes : list Z) (tr : list event)
    (o : outcome (sync.flow unit)) : Prop :=
  returns_error o
  ∧ ∀ s, o = Returned (sync.Next s) → ∀ x, x ∈ deletes → removal_tried userID tr x.

(** A run of the hook that returns nil has dealt with every fetched
    membership and every asserted role. *)
Definition all_done (roles : gmap string string) (order : list (string * string))
    (userID : Z) (result : list UserOrgDTO) (tr : list event)
    (o : outcome (option error * Identity)) : Prop :=
  ∀ id', o = Returned (None, id') →
    (∀ dto, dto ∈ result → reconciled roles userID (removal_tried userID tr) tr dto)
    ∧ (∀ entry, entry ∈ order →
         provisioned userID (λ x, x ∈ dto_OrgID <$> result) tr entry).

End syncfacts.

(** ** What regex role extraction may assign *)

Module extractfacts.

(** Role [r] for organisation [org] comes from a configured pattern: the
    pattern, paired with [r], compiles and matches one of the role
    strings, and a group named [org] captured the name. *)
Definition matched (MustCompile : string → option clients.Regexp)
    (configured : string → string → Prop) (roles : list string)
    (org r : string) : Prop :=
  ∃ pattern re jwtRole i,
    configured pattern r ∧ jwtRole ∈ roles
    ∧ MustCompile pattern = Some re
    ∧ i ≠ 0%nat ∧ clients.SubexpNames re !! i = Some "org"
    ∧ clients.FindStringSubmatch re jwtRole !! i = Some org.

(** [pattern] maps to [r] in one of the iterations over the mapper. *)
Definition configured (order : nat → list (string * string))
    (pattern r : string) : Prop :=
  ∃ n, (pattern, r) ∈ order n.

(** Every entry of the result is backed by a match. *)
Definition all_matched (MustCompile : string → option clients.Regexp)
    (order : nat → list (string * string)) (roles : list string)
    (res : gmap string string) : Prop :=
  ∀ org r, res !! org = Some r →
    matched MustCompile (configured order) roles org r.

End extractfacts.

(** * Properties *)

(** ** Running command trees *)

Lemma all_runs_mono {A} (P Q : list event → outcome A → Prop) (p : Prog A) :
  (∀ tr o, P tr o → Q tr o) → all_runs P p → all_runs Q p.
Proof.
  revert P Q. induction p as [a| |q k IH|q k IH|q k IH|c k IH|c k IH|c k IH|o u k IH|c k IH|q k IH];
    intros P Q HPQ HP; simpl in *; auto;
    intros r; (eapply IH; [|apply HP]); simpl; auto.
Qed.

Lemma all_runs_exec {W A} (h : Services W) (Q : list event → outcome A → Prop)
    (p : Prog A) (w : W) :
  all_runs Q p → Q (trace (exec h p w)) (result (exec h p w)).
Proof.
  revert Q w. induction p as [a| |q k IH|q k IH|q k IH|c k IH|c k IH|c k IH|o u k IH|c k IH|q k IH];
    intros Q w HQ; simpl in *; auto;
    match goal with |- Q (?e :: trace (exec h (k ?r) ?w')) _ =>
      apply (IH r (λ tr, Q (e :: tr)) w'), HQ end.
Qed.

Lemma all_runs_bind {A B} (Q : list event → outcome B → Prop)
    (m : Prog A) (f : A → Prog B) :
  all_runs (λ tr1 o1,
      match o1 with
      | Returned a => all_runs (λ tr2 o2, Q (tr1 ++ tr2) o2) (f a)
      | Panicked => Q tr1 Panicked
      end) m →
  all_runs Q (bind m f).
Proof.
  revert Q. induction m as [a| |q k IH|q k IH|q k IH|c k IH|c k IH|c k IH|o u k IH|c k IH|q k IH];
    intros Q HQ; simpl in *; auto;
    intros r; apply IH; (eapply all_runs_mono; [|apply HQ]);
    intros tr [a|]; simpl; auto.
Qed.

Lemma exec_bind {W A B} (h : Services W) (m : Prog A) (f : A → Prog B) (w : W) :
  exec h (bind m f) w =
  match result (exec h m w) with
  | Returned a =>
      let r2 := exec h (f a) (world (exec h m w)) in
      mkRun (result r2) (world r2) (trace (exec h m w) ++ trace r2)
  | Panicked => mkRun Panicked (world (exec h m w)) (trace (exec h m w))
  end.
Proof.
  revert w. induction m as [a| |q k IH|q k IH|q k IH|c k IH|c k IH|c k IH|o u k IH|c k IH|q k IH];
    intros w; simpl; try (by destruct (exec h (f a) w)); try done;
    rewrite IH; unfold logged; simpl;
    match goal with |- context [result (exec h (k ?r) ?w')] =>
      destruct (result (exec h (k r) w')) end; done.
Qed.

(** ** The anonymous client *)

Section anonymous.
Import anonimpl.
Context {W : Type} (h : Services W) (cfg : Cfg).

(** C7. [Authenticate] returns an error exactly when the lookup of the
    configured organisation returns one, or when the lookup succeeds and
    device tagging fails with [ErrDeviceLimitReached].  When the
    organisation is found and tagging succeeds or fails in any other
    way, the call returns the anonymous identity: namespace id
    [AnonymousNamespaceID], the id and name of the organisation found,
    the configured role for that organisation, and [SyncPermissions]. *)
Theorem anonymous_authenticate_outcome (r : Request) (w : W) :
  let lookup := svc_GetByName h (AnonymousOrgName cfg) w in
  let tagged := svc_TagDevice h (httpReqCopy r) lookup.2 in
  let out := result (exec h (Authenticate cfg r) w) in
  ((∃ e, out = Returned (None, Some e)) ↔
     is_Some lookup.1.2 ∨
     (lookup.1.2 = None ∧
      ∃ e, tagged.1 = Some e ∧ errors_Is e ErrDeviceLimitReached = true))
  ∧ (∀ o, lookup.1 = (Some o, None) →
       (∀ e, tagged.1 = Some e → errors_Is e ErrDeviceLimitReached = false) →
       out = Returned
               (Some {| ID := AnonymousNamespaceID;
                        OrgID := Org_ID o;
                        OrgName := Org_Name o;
                        OrgRoles := {[ Org_Name o := AnonymousOrgRole cfg ]};
                        Login := ""; Name := ""; Email := "";
                        AuthenticatedBy := ""; AuthID := "";
                        Params := mkClientParams false false false false false true |},
                None)).
Proof.
  simpl. unfold Authenticate. simpl.
  destruct (svc_GetByName h (AnonymousOrgName cfg) w) as [[o err] w1]; simpl.
  destruct err as [e|]; simpl.
  { split; [|intros ? [=]]. split; [eauto|]. intros _. eauto. }
  destruct (svc_TagDevice h (httpReqCopy r) w1) as [[e|] w2]; simpl.
  - destruct (errors_Is e ErrDeviceLimitReached) eqn:Hlim; simpl.
    + split.
      * split; [|eauto]. intros _. right. eauto.
      * intros o' _ Hno. specialize (Hno e eq_refl). congruence.
    + split.
      * split.
        -- intros [e' He']. destruct o; simpl in He'; discriminate.
        -- intros [[? [=]]|[_ (e' & [= <-] & He')]]. congruence.
      * intros o' [= ->] _. reflexivity.
  - split.
    + split.
      * intros [e' He']. destruct o; simpl in He'; discriminate.
      * intros [[? [=]]|[_ (e' & [=] & _)]].
    + intros o' [= ->] _. reflexivity.
Qed.

(** C8, as the code has it.  With the configured organisation found:
    a different organisation id is rejected with [errInvalidOrg]; with
    the right organisation id, a namespace id other than
    [AnonymousNamespaceID] is rejected with [errInvalidID]; otherwise
    the identity is the one [newAnonymousIdentity] builds, which is the
    identity a successful [Authenticate] returns from the same world. *)
Theorem anonymous_resolve_identity (orgID : Z) (namespaceID : NamespaceID)
    (w : W) (o : Org) :
  (svc_GetByName h (AnonymousOrgName cfg) w).1 = (Some o, None) →
  let out := result (exec h (ResolveIdentity cfg orgID namespaceID) w) in
  (Org_ID o ≠ orgID →
     ∃ e, out = Returned (None, Some e) ∧ errors_Is e errInvalidOrg = true)
  ∧ (Org_ID o = orgID → namespaceID ≠ AnonymousNamespaceID →
       out = Returned (None, Some errInvalidID))
  ∧ (namespaceID ≠ AnonymousNamespaceID → ∃ e, out = Returned (None, Some e))
  ∧ (Org_ID o = orgID → namespaceID = AnonymousNamespaceID →
       out = Returned (Some (newAnonymousIdentity cfg o), None))
  ∧ (∀ r id1 id2,
       out = Returned (Some id1, None) →
       result (exec h (Authenticate cfg r) w) = Returned (Some id2, None) →
       id1 = id2).
Proof.
  intros Hlookup. simpl. unfold ResolveIdentity, Authenticate. simpl.
  destruct (svc_GetByName h (AnonymousOrgName cfg) w) as [[o' err] w1].
  simpl in Hlookup. injection Hlookup as -> ->. simpl.
  repeat case_bool_decide; simpl; repeat split; try done; eauto.
  intros r id1 id2 [= <-].
  destruct (svc_TagDevice h (httpReqCopy r) w1) as [[e|] w2]; simpl;
    [destruct (errors_Is e ErrDeviceLimitReached)|]; simpl; congruence.
Qed.
End anonymous.

(** A device store that fails with something other than the device limit
    does not stop anonymous authentication. *)
Lemma anonymous_authenticate_outcome_witness :
  result (exec (scenario.with_TagDevice (Some (ErrOther "database is locked")))
            (anonimpl.Authenticate scenario.anon_cfg scenario.no_request)
            scenario.one_org)
  = Returned
      (Some {| ID := AnonymousNamespaceID; OrgID := 1; OrgName := "Main Org.";
               OrgRoles := {[ "Main Org." := "Viewer" ]};
               Login := ""; Name := ""; Email := "";
               AuthenticatedBy := ""; AuthID := "";
               Params := mkClientParams false false false false false true |},
       None).
Proof.
  apply (proj2 (anonymous_authenticate_outcome
                  (scenario.with_TagDevice (Some (ErrOther "database is locked")))
                  scenario.anon_cfg scenario.no_request scenario.one_org)
               scenario.main_org).
  - reflexivity.
  - intros e [= <-]. reflexivity.
Defined.

(** Resolving the anonymous identity in the configured organisation. *)
Lemma anonymous_resolve_identity_witness :
  result (exec memstore.services
            (anonimpl.ResolveIdentity scenario.anon_cfg 1 AnonymousNamespaceID)
            scenario.one_org)
  = Returned (Some (anonimpl.newAnonymousIdentity scenario.anon_cfg scenario.main_org),
              None).
Proof.
  apply (anonymous_resolve_identity memstore.services scenario.anon_cfg 1
           AnonymousNamespaceID scenario.one_org scenario.main_org);
    reflexivity.
Defined.

(** C8 as stated fails: a namespace id that is not the anonymous one is
    not always answered with [errInvalidID].  Asked for organisation 2
    while the anonymous organisation is 1, [ResolveIdentity] rejects the
    user namespace id with [errInvalidOrg]; the organisation is checked
    first. *)
Lemma anonymous_resolve_foreign_id_invalid_org :
  mkNamespaceID NamespaceUser "1" ≠ AnonymousNamespaceID
  ∧ ∃ e, result (exec memstore.services
                   (anonimpl.ResolveIdentity scenario.anon_cfg 2
                      (mkNamespaceID NamespaceUser "1"))
                   scenario.one_org) = Returned (None, Some e)
         ∧ errors_Is e errInvalidID = false
         ∧ errors_Is e errInvalidOrg = true.
Proof.
  split; [discriminate|].
  eexists. split; [reflexivity|]. split; reflexivity.
Qed.

(** ** Byte strings *)

Section strings.
Import gostrings.

Lemma length_append (a b : string) :
  String.length (a +:+ b) = (String.length a + String.length b)%nat.
Proof. induction a as [|c a IH]; simpl; [done|by rewrite IH]. Qed.

Lemma take_bytes_append (a b : string) : take_bytes (String.length a) (a +:+ b) = a.
Proof. induction a as [|c a IH]; simpl; [by destruct b|by rewrite IH]. Qed.

Lemma drop_bytes_append (a b : string) : drop_bytes (String.length a) (a +:+ b) = b.
Proof. induction a as [|c a IH]; simpl; [by destruct b|by rewrite IH]. Qed.

Lemma contains_byte_append (a b : string) (c : ascii) :
  contains_byte (a +:+ b) c = contains_byte a c || contains_byte b c.
Proof. induction a as [|c' a IH]; simpl; [done|]. rewrite IH. by rewrite orb_assoc. Qed.

Lemma last_index_from_absent (from : Z) (s : string) (c : ascii) :
  contains_byte s c = false → last_index_from from s c = (-1)%Z.
Proof.
  revert from. induction s as [|c' s IH]; intros from; simpl; [done|].
  intros [Hc Hs]%orb_false_iff. rewrite (IH _ Hs).
  rewrite bool_decide_eq_false_2 by (intros H; done).
  by rewrite Hc.
Qed.

Lemma last_index_from_present (from : Z) (s : string) (c : ascii) :
  (0 ≤ from)%Z → contains_byte s c = true →
  ∃ pre post, s = pre +:+ String c post ∧ contains_byte post c = false
              ∧ last_index_from from s c = (from + Z.of_nat (String.length pre))%Z.
Proof.
  revert from. induction s as [|c' s IH]; intros from Hfrom; simpl; [done|].
  destruct (contains_byte s c) eqn:Hs.
  - intros _. destruct (IH (from + 1)%Z) as (pre & post & -> & Hpost & Hidx);
      [lia|done|].
    exists (String c' pre), post. split_and!; [done..|].
    rewrite Hidx. rewrite bool_decide_eq_true_2 by lia. simpl. lia.
  - rewrite orb_false_r. intros ->%bool_decide_eq_true.
    exists "", s. split_and!; [done..|].
    rewrite (last_index_from_absent _ _ _ Hs).
    rewrite bool_decide_eq_false_2 by (intros H; done).
    rewrite bool_decide_eq_true_2 by done. simpl. lia.
Qed.

Lemma append_byte (a b : string) (c : ascii) :
  (a +:+ String c "") +:+ b = a +:+ String c b.
Proof. induction a as [|c' a IH]; [done|]. exact (f_equal (String c') IH). Qed.

Lemma append_last_unique (p1 p2 r1 r2 : string) (c : ascii) :
  p1 +:+ String c r1 = p2 +:+ String c r2 →
  contains_byte r1 c = false → contains_byte r2 c = false →
  p1 = p2 ∧ r1 = r2.
Proof.
  revert p2. induction p1 as [|a p1 IH]; intros [|b p2]; simpl.
  - by intros [= ->].
  - intros [= <- ->] H. rewrite contains_byte_append in H. simpl in H.
    rewrite bool_decide_eq_true_2 in H by done.
    by rewrite orb_true_r in H.
  - intros [= -> <-] _ H. rewrite contains_byte_append in H. simpl in H.
    rewrite bool_decide_eq_true_2 in H by done.
    by rewrite orb_true_r in H.
  - intros [= -> H] H1 H2. destruct (IH _ H H1 H2) as [-> ->]. done.
Qed.
End strings.

(** ** Maps built by successive assignments *)

Section assignments.
Context {K : Type} `{Countable K} {V : Type}.

(** After the assignments [kvs], key [k] holds the value of the last
    assignment to it, or its old value when there is none. *)
Lemma lookup_assignments (kvs : list (K * V)) (m0 : gmap K V) (k : K) (v : V) :
  foldl assign m0 kvs !! k = Some v ↔
  (∃ pre post, kvs = pre ++ (k, v) :: post ∧ (k ∉ fst <$> post))
  ∨ ((k ∉ fst <$> kvs) ∧ m0 !! k = Some v).
Proof.
  revert m0. induction kvs as [|[k' v'] kvs IH]; intros m0; simpl.
  - split; [intros ?; right; split; [apply not_elem_of_nil|done]|].
    intros [(pre & post & Heq & _)|[_ ?]]; [by destruct pre|done].
  - rewrite IH. unfold assign. simpl. split.
    + intros [(pre & post & -> & Hk)|[Hk Hm]].
      * left. by exists ((k', v') :: pre), post.
      * destruct (decide (k' = k)) as [->|Hne].
        -- rewrite lookup_insert_eq in Hm. injection Hm as ->.
           left. by exists [], kvs.
        -- rewrite lookup_insert_ne in Hm by done.
           right. split; [|done]. rewrite not_elem_of_cons. done.
    + intros [(pre & post & Heq & Hk)|[Hk Hm]].
      * destruct pre as [|x pre]; simpl in Heq.
        -- simplify_eq/=. right.
           split; [done|]. by rewrite lookup_insert_eq.
        -- simplify_eq/=. left. by exists pre, post.
      * apply not_elem_of_cons in Hk as [Hne Hk]. right.
        split; [done|]. by rewrite lookup_insert_ne.
Qed.
End assignments.

(** ** [parseOrgMapperConfig] *)

Section parse_config.
Import setting gostrings.
Variable Fields : string → list string.

Lemma is_mapping_unique (t p1 r1 p2 r2 : string) :
  is_mapping t p1 r1 → is_mapping t p2 r2 → p1 = p2 ∧ r1 = r2.
Proof.
  intros [-> H1] [Heq H2]. by apply (append_last_unique _ _ _ _ ":").
Qed.

Lemma add_mapping_no_colon (result : gmap string string) (t : string) :
  contains_byte t ":" = false → add_mapping result t = Panicked.
Proof.
  intros Ht. unfold add_mapping, LastIndex.
  by rewrite (last_index_from_absent _ _ _ Ht).
Qed.

Lemma add_mapping_colon (result : gmap string string) (t : string) :
  contains_byte t ":" = true →
  ∃ p r, is_mapping t p r ∧ add_mapping result t = Returned (<[p := r]> result).
Proof.
  intros Ht.
  destruct (last_index_from_present 0 t ":") as (p & r & -> & Hr & Hidx); [done..|].
  exists p, r. split; [done|].
  unfold add_mapping, LastIndex. rewrite Hidx. unfold slice_to, slice_from.
  rewrite length_append. simpl.
  rewrite !bool_decide_eq_true_2 by lia.
  replace (Z.to_nat (0 + Z.of_nat (String.length p))) with (String.length p) by lia.
  replace (Z.to_nat (0 + Z.of_nat (String.length p) + 1))
    with (String.length (p +:+ ":")) by (rewrite length_append; simpl; lia).
  rewrite take_bytes_append.
  replace (p +:+ String ":" r) with ((p +:+ ":") +:+ r).
  - by rewrite drop_bytes_append.
  - apply append_byte.
Qed.

Lemma add_mappings_panics (tokens : list string) (m0 : gmap string string) :
  add_mappings m0 tokens = Panicked ↔
  ∃ t, t ∈ tokens ∧ contains_byte t ":" = false.
Proof.
  revert m0. induction tokens as [|t tokens IH]; intros m0; simpl.
  - split; [done|]. intros (t & Ht%elem_of_nil & _). done.
  - destruct (contains_byte t ":") eqn:Ht.
    + destruct (add_mapping_colon m0 t Ht) as (p & r & _ & ->).
      rewrite IH. split; intros (t' & Hin & Hno); exists t'; split; try done.
      * by right.
      * apply elem_of_cons in Hin as [->|]; [congruence|done].
    + rewrite add_mapping_no_colon by done. split; [|done].
      intros _. exists t. split; [by left|done].
Qed.

Lemma add_mappings_returns (tokens : list string) (m0 m : gmap string string) :
  add_mappings m0 tokens = Returned m →
  ∃ kvs, Forall2 (λ t kv, is_mapping t kv.1 kv.2) tokens kvs
         ∧ m = foldl assign m0 kvs.
Proof.
  revert m0. induction tokens as [|t tokens IH]; intros m0; simpl.
  - intros [= <-]. exists []. by split.
  - destruct (contains_byte t ":") eqn:Ht.
    + destruct (add_mapping_colon m0 t Ht) as (p & r & Hmap & ->).
      intros (kvs & Hkvs & ->)%IH. exists ((p, r) :: kvs). split; [|done].
      by constructor.
    + by rewrite add_mapping_no_colon.
Qed.

(** C10.  The empty input gives the empty map.  A token without a colon
    has last-colon index -1, and slicing it up to that index panics.
    On a non-empty input the function panics exactly when some token
    has no colon; when it returns, a pattern is mapped to a role exactly
    when some token reads [pattern:role] at its last colon and no later
    token has that pattern. *)
Theorem parseOrgMapperConfig_total_on_colon_tokens (input : string) :
  parseOrgMapperConfig Fields "" = Returned ∅
  ∧ (∀ t, contains_byte t ":" = false →
          LastIndex t ":" = (-1)%Z ∧ slice_to t (LastIndex t ":") = Panicked)
  ∧ (parseOrgMapperConfig Fields input = Panicked ↔
       input ≠ "" ∧ ∃ t, t ∈ Fields input ∧ contains_byte t ":" = false)
  ∧ (∀ m, input ≠ "" → parseOrgMapperConfig Fields input = Returned m →
       ∀ p r, m !! p = Some r ↔
         ∃ pre t post, Fields input = pre ++ t :: post ∧ is_mapping t p r
                       ∧ ∀ t' r', t' ∈ post → ¬ is_mapping t' p r').
Proof.
  split_and!.
  - done.
  - intros t Ht. unfold LastIndex. by rewrite (last_index_from_absent _ _ _ Ht).
  - unfold parseOrgMapperConfig. case_bool_decide as Hin.
    + split; [done|]. by intros [? _].
    + rewrite add_mappings_panics. split; [by intros ?|by intros [_ ?]].
  - intros m Hin. unfold parseOrgMapperConfig.
    rewrite bool_decide_eq_false_2 by done.
    intros (kvs & Hkvs & ->)%add_mappings_returns p r.
    rewrite lookup_assignments, lookup_empty. split.
    + intros [(kpre & kpost & -> & Hp)|[_ [=]]].
      apply Forall2_app_inv_r in Hkvs as (pre & rest & Hpre & Hrest & ->).
      apply Forall2_cons_inv_r in Hrest as (t & post & Ht & Hpost & ->).
      exists pre, t, post. split_and!; [done..|].
      intros t' r' Ht' Hmap. apply Hp.
      apply list_elem_of_lookup in Ht' as [i Hi].
      destruct (Forall2_lookup_l _ _ _ _ _ Hpost Hi) as ([p' r''] & Hkv & Hmap').
      destruct (is_mapping_unique _ _ _ _ _ Hmap Hmap') as [-> ->].
      apply list_elem_of_fmap. exists (p', r''). split; [done|].
      by eapply list_elem_of_lookup_2.
    + intros (pre & t & post & Heq & Hmap & Hlater). left.
      rewrite Heq in Hkvs.
      apply Forall2_app_inv_l in Hkvs as (kpre & krest & Hpre & Hrest & ->).
      apply Forall2_cons_inv_l in Hrest as ([p' r''] & kpost & Ht & Hpost & ->).
      destruct (is_mapping_unique _ _ _ _ _ Hmap Ht) as [-> ->].
      exists kpre, kpost. split; [done|].
      intros ([p2 r2] & Hp2 & Hin2)%list_elem_of_fmap. simpl in Hp2. subst p2.
      apply list_elem_of_lookup in Hin2 as [i Hi].
      destruct (Forall2_lookup_r _ _ _ _ _ Hpost Hi) as (t' & Ht' & Hmap').
      eapply Hlater; [|exact Hmap']. by eapply list_elem_of_lookup_2.
Qed.
End parse_config.

(** With Go's white-space splitting, ["rx:Editor eng:.*:Viewer"] maps the
    pattern [eng:.*] to [Viewer]: the second token, cut at its last colon. *)
Lemma parseOrgMapperConfig_total_on_colon_tokens_witness :
  ∃ pre t post,
    gostrings.Fields "rx:Editor eng:.*:Viewer" = pre ++ t :: post
    ∧ setting.is_mapping t "eng:.*" "Viewer"
    ∧ ∀ t' r', t' ∈ post → ¬ setting.is_mapping t' "eng:.*" r'.
Proof.
  apply (proj1 (proj2 (proj2 (proj2
           (parseOrgMapperConfig_total_on_colon_tokens gostrings.Fields
              "rx:Editor eng:.*:Viewer")))
           (<["eng:.*" := "Viewer"]> (<["rx" := "Editor"]> ∅))
           ltac:(discriminate) ltac:(vm_compute; reflexivity)
           "eng:.*" "Viewer")).
  vm_compute. reflexivity.
Defined.

(** White space is Unicode white space: a no-break space (U+00A0, the
    bytes C2 A0) separates two tokens, and the second one, which has no
    colon, makes the parser panic. *)
Example Fields_no_break_space :
  let input := "a:b" +:+ String (ascii_of_nat 194) (String (ascii_of_nat 160) "nocolon") in
  gostrings.Fields input = ["a:b"; "nocolon"]
  ∧ setting.parseOrgMapperConfig gostrings.Fields input = Panicked.
Proof. vm_compute. split; reflexivity. Qed.

(** ** Static role extraction *)

Section split.
Import gostrings.

Lemma Split_absent (s : string) (sep : ascii) :
  contains_byte s sep = false → Split s sep = [s].
Proof.
  induction s as [|c s IH]; simpl; [done|].
  intros [Hc Hs]%orb_false_iff. rewrite Hc, (IH Hs). done.
Qed.

Lemma Split_append (a rest : string) (sep : ascii) :
  contains_byte a sep = false →
  Split (a +:+ String sep rest) sep = a :: Split rest sep.
Proof.
  induction a as [|c a IH].
  - intros _. change (Split (String sep rest) sep = "" :: Split rest sep).
    simpl. by rewrite bool_decide_eq_true_2.
  - simpl. intros [Hc Ha]%orb_false_iff.
    change (Split (String c (a +:+ String sep rest)) sep
            = String c a :: Split rest sep).
    simpl. rewrite Hc, (IH Ha). done.
Qed.

Lemma Split_inv (s : string) (sep : ascii) :
  ∃ first others,
    Split s sep = first :: others ∧ contains_byte first sep = false
    ∧ ((others = [] ∧ s = first)
       ∨ ∃ rest, s = first +:+ String sep rest ∧ Split rest sep = others).
Proof.
  induction s as [|c s (first & others & Heq & Hfirst & Hrest)]; simpl.
  - exists "", []. split_and!; [done..|]. by left.
  - case_bool_decide as Hc.
    + subst c. exists "", (Split s sep). split_and!; [done..|].
      right. by exists s.
    + rewrite Heq. exists (String c first), others. split_and!; [done|..].
      * simpl. rewrite Hfirst. by rewrite bool_decide_eq_false_2.
      * destruct Hrest as [[-> ->]|(rest & -> & Hrest)]; [by left|].
        right. by exists rest.
Qed.

Lemma Split_triple (role a b c : string) :
  Split role ":" = [a; b; c] ↔ clients.is_triple role a b c.
Proof.
  split.
  - intros Hsplit.
    destruct (Split_inv role ":") as (a' & o1 & H1 & Ha & Hr1).
    rewrite Hsplit in H1. injection H1 as <- <-.
    destruct Hr1 as [[[=] _]|(r1 & -> & H2)].
    destruct (Split_inv r1 ":") as (b' & o2 & H3 & Hb & Hr2).
    rewrite H2 in H3. injection H3 as <- <-.
    destruct Hr2 as [[[=] _]|(r2 & -> & H4)].
    destruct (Split_inv r2 ":") as (c' & o3 & H5 & Hc & Hr3).
    rewrite H4 in H5. injection H5 as <- <-.
    destruct Hr3 as [[_ ->]|(r3 & _ & H6)].
    + done.
    + destruct (Split_inv r3 ":") as (? & ? & H7 & _). congruence.
  - intros (-> & Ha & Hb & Hc).
    rewrite Split_append by done. rewrite Split_append by done.
    by rewrite Split_absent.
Qed.
End split.

Section static.
Import clients.

Lemma static_contribution_unique (role org1 r1 org2 r2 : string) :
  static_contribution role org1 r1 → static_contribution role org2 r2 →
  org1 = org2 ∧ r1 = r2.
Proof.
  intros [s1 H1] [s2 H2].
  destruct H1 as [[H1%Split_triple ->]|[H1%Split_triple ->]],
           H2 as [[H2%Split_triple ->]|[H2%Split_triple ->]];
    rewrite H1 in H2; by simplify_eq.
Qed.

(** One turn of the static loop either assigns the role string's
    contribution or leaves the map alone. *)
Lemma static_roles_step (role : string) (rest : list string)
    (m : gmap string string) :
  (∃ org r, static_contribution role org r
            ∧ static_roles (role :: rest) m = static_roles rest (<[org := r]> m))
  ∨ ((∀ org r, ¬ static_contribution role org r)
     ∧ static_roles (role :: rest) m = static_roles rest m).
Proof.
  simpl.
  destruct (gostrings.Split role ":") as [|a [|b [|c [|d l]]]] eqn:Hsplit;
    try (right; split; [|done];
         intros org r [scope [[Ht%Split_triple _]|[Ht%Split_triple _]]];
         congruence).
  apply Split_triple in Hsplit.
  repeat case_bool_decide; subst.
  - left. exists b, RoleEditor. split; [|done]. exists a. by left.
  - left. exists b, RoleViewer. split; [|done]. exists a. by right.
  - right. split; [|done].
    intros org r [scope [[Ht%Split_triple _]|[Ht%Split_triple _]]];
      apply Split_triple in Hsplit; congruence.
Qed.

Lemma static_roles_lookup (roles : list string) (m0 : gmap string string)
    (org r : string) :
  static_roles roles m0 !! org = Some r ↔
  (∃ pre role post, roles = pre ++ role :: post ∧ static_contribution role org r
                    ∧ ∀ role' r', role' ∈ post → ¬ static_contribution role' org r')
  ∨ ((∀ role' r', role' ∈ roles → ¬ static_contribution role' org r')
     ∧ m0 !! org = Some r).
Proof.
  revert m0. induction roles as [|role roles IH]; intros m0.
  - simpl. split.
    + intros ?. right. split; [|done]. by intros ?? ?%elem_of_nil.
    + intros [(pre & ? & ? & Heq & _)|[_ ?]]; [by destruct pre|done].
  - destruct (static_roles_step role roles m0)
      as [(org' & r' & Hc & ->)|[Hnone ->]]; rewrite IH; clear IH; split.
    + intros [(pre & role2 & post & -> & Hc2 & Hpost)|[Hno Hm]].
      * left. by exists (role :: pre), role2, post.
      * destruct (decide (org' = org)) as [->|Hne].
        -- rewrite lookup_insert_eq in Hm. injection Hm as ->.
           left. by exists [], role, roles.
        -- rewrite lookup_insert_ne in Hm by done. right. split; [|done].
           intros role' r'' [->|Hin]%elem_of_cons Hc'; [|by eapply Hno].
           by destruct (static_contribution_unique _ _ _ _ _ Hc Hc').
    + intros [(pre & role2 & post & Heq & Hc2 & Hpost)|[Hno Hm]].
      * destruct pre as [|x pre]; simplify_eq/=.
        -- destruct (static_contribution_unique _ _ _ _ _ Hc Hc2) as [-> ->].
           right. split; [done|]. by rewrite lookup_insert_eq.
        -- left. by exists pre, role2, post.
      * right. split.
        -- intros role' r'' Hin. apply Hno. by right.
        -- rewrite lookup_insert_ne; [done|]. intros ->.
           eapply Hno; [by left|done].
    + intros [(pre & role2 & post & -> & Hc2 & Hpost)|[Hno Hm]].
      * left. by exists (role :: pre), role2, post.
      * right. split; [|done].
        intros role' r'' [->|Hin]%elem_of_cons; [apply Hnone|by apply Hno].
    + intros [(pre & role2 & post & Heq & Hc2 & Hpost)|[Hno Hm]].
      * destruct pre as [|x pre]; simplify_eq/=.
        -- by destruct (Hnone org r).
        -- left. by exists pre, role2, post.
      * right. split; [|done]. intros role' r'' Hin. apply Hno. by right.
Qed.
End static.

Section static_extraction.
Import clients.
Context {Claims : Type}.
Variable Search : string → Claims → list string * option error.
Variable MustCompile : string → option Regexp.

(** C6.  With a role attribute path, no regex mapper and role strings
    [roles] found in the claims, [extractRolesAndAdmin] returns a map in
    which [org] has role [r] exactly when some role string reads
    [scope:org:admin] (then [r] is Editor) or [scope:org:viewer] (then
    [r] is Viewer), with no further colon, and no later role string
    assigns a role to [org]; every other string is ignored.  For
    ["x:teamA:admin"; "x:teamB:viewer"; "bad"] the map is
    teamA -> Editor, teamB -> Viewer. *)
Theorem static_role_extraction (cfg : setting.AuthJWTSettings)
    (order : nat → list (string * string)) (claims : Claims)
    (roles : list string) :
  setting.RoleAttributePath cfg ≠ "" →
  size (setting.RegexOrgRoleMapper cfg) = 0%nat →
  Search (setting.RoleAttributePath cfg) claims = (roles, None) →
  ∃ m, extractRolesAndAdmin Search MustCompile cfg order claims = Returned (m, false)
       ∧ (∀ org r, m !! org = Some r ↔
            ∃ pre role post,
              roles = pre ++ role :: post ∧ static_contribution role org r
              ∧ ∀ role' r', role' ∈ post → ¬ static_contribution role' org r')
       ∧ (roles = ["x:teamA:admin"; "x:teamB:viewer"; "bad"] →
          m = <["teamB" := RoleViewer]> (<["teamA" := RoleEditor]> ∅)).
Proof.
  intros Hpath Hmapper Hsearch. exists (static_roles roles ∅). split_and!.
  - unfold extractRolesAndAdmin.
    rewrite bool_decide_eq_false_2 by done. rewrite Hsearch.
    rewrite (bool_decide_eq_false_2 (is_Some None)) by (by intros [? ?]).
    rewrite Hmapper. simpl. case_bool_decide as Hlen; [|done].
    by destruct roles.
  - intros org r. rewrite static_roles_lookup, lookup_empty. split.
    + by intros [?|[_ [=]]].
    + by left.
  - intros ->. vm_compute. reflexivity.
Qed.
End static_extraction.

(** The role strings of the example, run through [extractRolesAndAdmin]. *)
Lemma static_role_extraction_witness :
  ∃ m, clients.extractRolesAndAdmin scenario.claimed_roles (λ _, None)
         scenario.static_cfg (λ _, [])
         ["x:teamA:admin"; "x:teamB:viewer"; "bad"] = Returned (m, false)
       ∧ m = <["teamB" := RoleViewer]> (<["teamA" := RoleEditor]> ∅).
Proof.
  destruct (static_role_extraction scenario.claimed_roles (λ _, None)
              scenario.static_cfg (λ _, [])
              ["x:teamA:admin"; "x:teamB:viewer"; "bad"]
              ["x:teamA:admin"; "x:teamB:viewer"; "bad"])
    as (m & Hm & _ & Hex); [discriminate|reflexivity|reflexivity|].
  exists m. split; [exact Hm|]. apply Hex. reflexivity.
Defined.

(** ** Regex role extraction *)

(** The pattern [eng:(?P<org>[^:]+):admin] mapped to Editor turns the role
    string [eng:org-a:admin] into org-a -> Editor. *)
Example regex_role_extraction_example :
  clients.extractRolesAndAdmin scenario.claimed_roles
    (regexp.MustCompile
       [("eng:(?P<org>[^:]+):admin",
         regexp.Cat (regexp.lit "eng:")
           (regexp.Cat (regexp.Group "org" (regexp.plus (regexp.NotLit ":")))
                       (regexp.lit ":admin")))])
    (setting.mkAuthJWTSettings "roles" false
       {[ "eng:(?P<org>[^:]+):admin" := "Editor" ]})
    (λ _, [("eng:(?P<org>[^:]+):admin", "Editor")])
    ["eng:org-a:admin"]
  = Returned ({[ "org-a" := "Editor" ]}, false).
Proof. vm_compute. reflexivity. Qed.

(** C5, evaluated.  The mapper parsed from
    [(?P<org>[^:]+):admin:Editor (?P<org>[^:]+):.*:Viewer] holds two
    patterns that both match the role string [teamA:admin] and both
    capture [teamA].  Visiting the admin pattern first gives teamA the
    role Editor, visiting it last gives Viewer: the result follows the
    iteration order of the map. *)
Theorem regex_roles_follow_map_order :
  setting.parseOrgMapperConfig gostrings.Fields scenario.mapper_config
    = Returned scenario.role_mapper
  ∧ clients.range_orders scenario.role_mapper scenario.admin_first
  ∧ clients.range_orders scenario.role_mapper scenario.admin_last
  ∧ clients.extractRolesAndAdmin scenario.claimed_roles
      (regexp.MustCompile scenario.known_patterns) scenario.regex_cfg
      scenario.admin_first ["teamA:admin"]
    = Returned ({[ "teamA" := "Editor" ]}, false)
  ∧ clients.extractRolesAndAdmin scenario.claimed_roles
      (regexp.MustCompile scenario.known_patterns) scenario.regex_cfg
      scenario.admin_last ["teamA:admin"]
    = Returned ({[ "teamA" := "Viewer" ]}, false).
Proof.
  split_and!.
  - vm_compute. reflexivity.
  - intros n. unfold scenario.admin_first. vm_compute map_to_list.
    first [reflexivity | apply perm_swap].
  - intros n. unfold scenario.admin_last. vm_compute map_to_list.
    first [reflexivity | apply perm_swap].
  - vm_compute. reflexivity.
  - vm_compute. reflexivity.
Qed.

(** ** Role sync: no asserted roles *)

Section sync_noop.
Import sync.
Context {W : Type} (h : Services W).

(** C4.  For an identity without asserted roles the hook makes no call
    at all (so no update, add or remove of a membership), leaves the
    world and the identity as they were and returns no error. *)
Theorem sync_empty_roles_noop (order : list (string * string)) (id : Identity)
    (w : W) :
  OrgRoles id = ∅ →
  exec h (SyncOrgRolesHook order id) w = mkRun (Returned (None, id)) w [].
Proof.
  intros Hroles. unfold SyncOrgRolesHook. rewrite Hroles.
  destruct (SyncOrgRoles (Params id)); simpl; [|done].
  destruct (IsNamespace (ID id) NamespaceUser); simpl; [|done].
  destruct (ParseInt (ID id)); done.
Qed.
End sync_noop.

(** A user with memberships but no asserted roles keeps them. *)
Lemma sync_empty_roles_noop_witness :
  let s := memstore.mkStore [scenario.main_org] [memstore.mkOrgUser 1 7 "Admin"] ∅ [] in
  let id := scenario.user_identity "7" "Main Org." 1 ∅ in
  exec memstore.services (sync.SyncOrgRolesHook [] id) s = mkRun (Returned (None, id)) s [].
Proof.
  apply (sync_empty_roles_noop memstore.services []
           (scenario.user_identity "7" "Main Org." 1 ∅)).
  reflexivity.
Defined.

(** ** Role sync: the unguarded organisation lookup *)

Section sync_nil_lookup.
Import sync.

Lemma lookup_safe_cons {A} (ev : event) (tr : list event) (o : outcome A) :
  nil_lookup ev = false → lookup_safe tr o → lookup_safe (ev :: tr) o.
Proof.
  intros Hev. destruct o as [a|]; simpl.
  - by constructor.
  - intros (pre & ev' & -> & Hnil & Hpre). exists (ev :: pre), ev'.
    split_and!; [done..|]. by constructor.
Qed.

Lemma lookup_safe_app {A} (tr1 tr2 : list event) (o : outcome A) :
  Forall (λ e, nil_lookup e = false) tr1 → lookup_safe tr2 o →
  lookup_safe (tr1 ++ tr2) o.
Proof.
  induction 1 as [|ev tr1 Hev _ IH]; [done|]. intros Htr2. simpl.
  by apply lookup_safe_cons, IH.
Qed.

Lemma lookup_safe_bind {A B} (m : Prog A) (f : A → Prog B) :
  all_runs lookup_safe m → (∀ a, all_runs lookup_safe (f a)) →
  all_runs lookup_safe (bind m f).
Proof.
  intros Hm Hf. apply all_runs_bind. eapply all_runs_mono; [|exact Hm].
  intros tr1 [a|] Htr1; [|done]. eapply all_runs_mono; [|apply Hf].
  intros tr2 o2. by apply lookup_safe_app.
Qed.

(** A further call whose answer is not a nil lookup. *)
Ltac benign_call :=
  intros; eapply all_runs_mono;
  [intros ? ?; apply lookup_safe_cons; reflexivity|].

Lemma update_existing_lookup_safe roles userID result handled deletes :
  all_runs lookup_safe (update_existing roles userID result handled deletes).
Proof.
  revert handled deletes.
  induction result as [|orga rest IH]; intros handled deletes; simpl.
  { constructor. }
  intros [[orgb|] e]; simpl.
  - repeat case_bool_decide.
    + benign_call. apply IH.
    + intros r. benign_call. benign_call.
      destruct r; simpl; [constructor|apply IH].
    + benign_call. apply IH.
  - exists [], (EvGetByID (dto_OrgID orga) (None, e)). by split_and!.
Qed.

Lemma add_new_lookup_safe userID handled entries orgIDs :
  all_runs lookup_safe (add_new userID handled entries orgIDs).
Proof.
  revert orgIDs. induction entries as [|[orgName orgRole] rest IH];
    intros orgIDs; simpl.
  { constructor. }
  intros [[orga|] [e|]]; simpl; try (benign_call; apply IH).
  case_bool_decide; [benign_call; apply IH|].
  intros r. benign_call. benign_call.
  destruct r as [e'|]; simpl; [|apply IH].
  destruct (errors_Is e' ErrOrgNotFound); simpl; [apply IH|constructor].
Qed.

Lemma remove_stale_lookup_safe userID deletes :
  all_runs lookup_safe (remove_stale userID deletes).
Proof.
  induction deletes as [|orgID rest IH]; simpl.
  { constructor. }
  intros r. benign_call. destruct r as [e|]; simpl.
  - destruct (errors_Is e ErrLastOrgAdmin); simpl; [apply IH|constructor].
  - benign_call. apply IH.
Qed.

Lemma update_default_org_lookup_safe id userID orgIDs :
  all_runs lookup_safe (update_default_org id userID orgIDs).
Proof.
  unfold update_default_org. case_bool_decide; [|constructor].
  destruct (merge_sort _ _); simpl; [constructor|].
  intros r. repeat constructor.
Qed.

Lemma SyncOrgRolesHook_lookup_safe order id :
  all_runs lookup_safe (SyncOrgRolesHook order id).
Proof.
  unfold SyncOrgRolesHook.
  destruct (negb _); [constructor|]. destruct (negb _); [constructor|].
  destruct (ParseInt _) as [userID|]; [|constructor].
  case_bool_decide; [constructor|]. simpl.
  intros [result [e|]]; simpl; [repeat constructor|].
  benign_call. unfold reconcile.
  apply lookup_safe_bind; [apply update_existing_lookup_safe|].
  intros [e|[handled deletes]]; [constructor|].
  apply lookup_safe_bind; [apply add_new_lookup_safe|].
  intros [e|orgIDs]; [constructor|].
  apply lookup_safe_bind; [apply remove_stale_lookup_safe|].
  intros [e|[]]; [constructor|]. apply update_default_org_lookup_safe.
Qed.
End sync_nil_lookup.

(** ** Role sync: the loops run to their end *)

Section sync_iteration.
Import sync.
Context (roles : gmap string string).

Lemma lookups_app tr1 tr2 : lookups (tr1 ++ tr2) = lookups tr1 ++ lookups tr2.
Proof. apply omap_app. Qed.

Lemma names_app tr1 tr2 : names (tr1 ++ tr2) = names tr1 ++ names tr2.
Proof. apply omap_app. Qed.

Lemma removals_app tr1 tr2 : removals (tr1 ++ tr2) = removals tr1 ++ removals tr2.
Proof. apply omap_app. Qed.

Lemma marked_app tr1 tr2 :
  marked roles (tr1 ++ tr2) = marked roles tr1 ++ marked roles tr2.
Proof. apply omap_app. Qed.

Lemma no_lookup_lookups tr :
  Forall (λ ev, looked_up ev = None) tr → lookups tr = [] ∧ marked roles tr = [].
Proof.
  induction 1 as [|ev tr Hev _ [IH1 IH2]]; [done|].
  destruct ev; try discriminate Hev; split; assumption.
Qed.

Lemma ends_fatally_app tr1 tr2 : ends_fatally tr2 → ends_fatally (tr1 ++ tr2).
Proof.
  intros (pre & ev & e & -> & Hev). exists (tr1 ++ pre), ev, e.
  by rewrite app_assoc.
Qed.

Lemma ends_in_failed_update_app tr1 tr2 :
  ends_in_failed_update tr2 → ends_in_failed_update (tr1 ++ tr2).
Proof.
  intros (pre & cmd & e & ->). exists (tr1 ++ pre), cmd, e. by rewrite app_assoc.
Qed.

Lemma ends_in_failed_update_fatal tr : ends_in_failed_update tr → ends_fatally tr.
Proof. intros (pre & cmd & e & ->). by exists pre, (EvUpdateOrgUser cmd (Some e)), e. Qed.

Lemma first_loop_step pre orga rest deletes tr o :
  lookups pre = [dto_OrgID orga] → names pre = [] → removals pre = [] →
  first_loop_calls roles rest (deletes ++ marked roles pre) tr o →
  first_loop_calls roles (orga :: rest) deletes (pre ++ tr) o.
Proof.
  intros Hl Hn Hr (Hpre & Hnames & Hrem & Ho). unfold first_loop_calls.
  rewrite lookups_app, names_app, removals_app, Hl, Hn, Hr, Hnames, Hrem.
  split_and!; [by apply prefix_cons|done|done|].
  destruct o as [[e|[handled' deletes']]|]; [| |done].
  - by apply ends_in_failed_update_app.
  - destruct Ho as [-> ->]. split; [done|]. by rewrite marked_app, app_assoc.
Qed.

Lemma update_existing_calls userID result handled deletes :
  all_runs (first_loop_calls roles result deletes)
    (update_existing roles userID result handled deletes).
Proof.
  revert handled deletes.
  induction result as [|orga rest IH]; intros handled deletes; simpl.
  { split_and!; [done..|]. unfold marked. simpl. by rewrite app_nil_r. }
  intros [[orgb|] e]; simpl;
    [|split_and!; [apply prefix_cons, prefix_nil|done..]].
  assert (marked roles [EvGetByID (dto_OrgID orga) (Some orgb, e)]
          = if bool_decide (map_index roles (Org_Name orgb) = "")
            then [dto_OrgID orga] else []) as Hmark.
  { unfold marked. simpl. by case_bool_decide. }
  case_bool_decide as Hext; [|case_bool_decide as Hneq].
  - eapply all_runs_mono; [|apply (IH _ (deletes ++ [dto_OrgID orga]))].
    intros tr o Htr.
    apply (first_loop_step [EvGetByID (dto_OrgID orga) (Some orgb, e)]); [done..|].
    by rewrite Hmark.
  - intros [e'|]; simpl.
    { split_and!; [apply prefix_cons, prefix_nil|done|done|].
      by eexists [_], _, _. }
    eapply all_runs_mono; [|apply (IH _ deletes)]. intros tr o Htr.
    apply (first_loop_step [EvGetByID (dto_OrgID orga) (Some orgb, e); _]); [done..|].
    unfold marked. simpl. rewrite bool_decide_eq_false_2 by done.
    by rewrite app_nil_r.
  - eapply all_runs_mono; [|apply (IH _ deletes)]. intros tr o Htr.
    apply (first_loop_step [EvGetByID (dto_OrgID orga) (Some orgb, e)]); [done..|].
    by rewrite Hmark, app_nil_r.
Qed.

Lemma second_loop_step pre (entry : string * string) rest tr o :
  Forall (λ ev, looked_up ev = None) pre → removals pre = [] →
  names pre = [entry.1] →
  second_loop_calls rest tr o → second_loop_calls (entry :: rest) (pre ++ tr) o.
Proof.
  intros Hl Hr Hn (Hquiet & Hrem & Ho). unfold second_loop_calls.
  rewrite removals_app, Hr, Hrem.
  split_and!; [by apply Forall_app|done|].
  destruct o as [[e|orgIDs']|]; [| |done].
  - by apply ends_fatally_app.
  - by rewrite names_app, Hn, Ho.
Qed.

Lemma add_new_calls userID handled entries orgIDs :
  all_runs (second_loop_calls entries) (add_new userID handled entries orgIDs).
Proof.
  revert orgIDs.
  induction entries as [|[orgName orgRole] rest IH]; intros orgIDs; simpl.
  { by split_and!. }
  assert (∀ r tr o, second_loop_calls rest tr o →
            second_loop_calls ((orgName, orgRole) :: rest)
              (EvGetByName orgName r :: tr) o) as Hlookup.
  { intros r tr o. apply (second_loop_step [EvGetByName orgName r]); [|done..].
    by repeat constructor. }
  assert (∀ r cmd err tr o, second_loop_calls rest tr o →
            second_loop_calls ((orgName, orgRole) :: rest)
              (EvGetByName orgName r :: EvAddOrgUser cmd err :: tr) o) as Hadd.
  { intros r cmd err tr o. apply (second_loop_step [EvGetByName orgName r; _]); [|done..].
    by repeat constructor. }
  intros [[orga|] [e|]]; simpl;
    try (eapply all_runs_mono; [|apply IH]; intros tr o; apply Hlookup).
  case_bool_decide; [eapply all_runs_mono; [|apply IH]; intros tr o; apply Hlookup|].
  intros [e'|]; simpl.
  - destruct (errors_Is e' ErrOrgNotFound) eqn:Hnf; simpl.
    + eapply all_runs_mono; [|apply IH]. intros tr o. apply Hadd.
    + split_and!; [by repeat constructor|done|].
      eexists [_], _, e'. split; [done|].
      simpl. by rewrite Hnf.
  - eapply all_runs_mono; [|apply IH]. intros tr o. apply Hadd.
Qed.

Lemma third_loop_step pre x rest tr o :
  Forall (λ ev, looked_up ev = None) pre → names pre = [] → removals pre = [x] →
  third_loop_calls rest tr o → third_loop_calls (x :: rest) (pre ++ tr) o.
Proof.
  intros Hl Hn Hr (Hquiet & Hnames & Ho). unfold third_loop_calls.
  rewrite names_app, Hn, Hnames.
  split_and!; [by apply Forall_app|done|].
  destruct o as [[e|s]|]; [| |done].
  - by apply ends_fatally_app.
  - by rewrite removals_app, Hr, Ho.
Qed.

Lemma remove_stale_calls userID deletes :
  all_runs (third_loop_calls deletes) (remove_stale userID deletes).
Proof.
  induction deletes as [|orgID rest IH]; simpl.
  { by split_and!. }
  intros [e|]; simpl.
  - destruct (errors_Is e ErrLastOrgAdmin) eqn:Hla; simpl.
    + eapply all_runs_mono; [|apply IH]. intros tr o.
      apply (third_loop_step [_]); [by repeat constructor|done..].
    + split_and!; [by repeat constructor|done|].
      eexists [], _, e. split; [done|]. simpl. by rewrite Hla.
  - intros r. eapply all_runs_mono; [|apply IH]. intros tr o.
    apply (third_loop_step [_; _]); [by repeat constructor|done..].
Qed.

Lemma update_default_org_calls id userID orgIDs :
  all_runs (λ tr _, Forall (λ ev, looked_up ev = None) tr
                    ∧ names tr = [] ∧ removals tr = [])
    (update_default_org id userID orgIDs).
Proof.
  unfold update_default_org. case_bool_decide; [|by split_and!].
  destruct (merge_sort _ _); simpl; [by split_and!|].
  intros r. split_and!; [by repeat constructor|done..].
Qed.

Lemma iterates_panicked {A} order l tr :
  lookups tr `prefix_of` (dto_OrgID <$> l) →
  iterates (A:=A) roles order l tr Panicked.
Proof. intros Hpre. split_and!; [done|right; by left..]. Qed.
End sync_iteration.

Lemma reconcile_iterates order id userID result :
  all_runs (sync.iterates (OrgRoles id) order result)
    (sync.reconcile order id userID result).
Proof.
  unfold sync.reconcile. apply all_runs_bind.
  eapply all_runs_mono; [|apply update_existing_calls].
  intros tr1 [[e|[handled deletes]]|] (Hpre1 & Hn1 & Hr1 & Ho1); simpl;
    [|destruct Ho1 as [Hl1 Hd1]; simpl in Hd1|by apply iterates_panicked].
  { rewrite app_nil_r. pose proof (ends_in_failed_update_fatal _ Ho1).
    split_and!; [done|by right; right|by right; right|by right; right]. }
  assert (∀ A tr (o : outcome A),
            sync.lookups tr = [] →
            sync.lookups (tr1 ++ tr) `prefix_of` (dto_OrgID <$> result)) as Hpre.
  { intros A tr o Hl. by rewrite lookups_app, Hl, app_nil_r, Hl1. }
  apply all_runs_bind. eapply all_runs_mono; [|apply add_new_calls].
  intros tr2 [[e|orgIDs]|] (Hq2 & Hr2 & Ho2); simpl;
    destruct (no_lookup_lookups (OrgRoles id) tr2 Hq2) as [Hl2 Hm2];
    [| |by eapply iterates_panicked, (Hpre unit _ Panicked)].
  { rewrite app_nil_r. split_and!.
    - by apply (Hpre unit _ Panicked).
    - left. by rewrite lookups_app, Hl2, app_nil_r.
    - right. right. split; [by apply ends_fatally_app|].
      by rewrite removals_app, Hr1, Hr2.
    - right. right. by apply ends_fatally_app. }
  apply all_runs_bind. eapply all_runs_mono; [|apply remove_stale_calls].
  intros tr3 [[e|[]]|] (Hq3 & Hn3 & Ho3); simpl;
    destruct (no_lookup_lookups (OrgRoles id) tr3 Hq3) as [Hl3 Hm3].
  - rewrite app_nil_r. split_and!.
    + apply (Hpre unit _ Panicked). by rewrite lookups_app, Hl2, Hl3.
    + left. by rewrite !lookups_app, Hl1, Hl2, Hl3, !app_nil_r.
    + left. by rewrite !names_app, Hn1, Hn3, Ho2, app_nil_r.
    + right. right. by do 2 apply ends_fatally_app.
  - eapply all_runs_mono; [|apply update_default_org_calls].
    intros tr4 o (Hq4 & Hn4 & Hr4).
    destruct (no_lookup_lookups (OrgRoles id) tr4 Hq4) as [Hl4 Hm4].
    split_and!.
    + apply (Hpre unit _ Panicked). by rewrite !lookups_app, Hl2, Hl3, Hl4.
    + left. by rewrite !lookups_app, Hl1, Hl2, Hl3, Hl4, !app_nil_r.
    + left. by rewrite !names_app, Hn1, Hn3, Hn4, Ho2, !app_nil_r.
    + left. rewrite !removals_app, !marked_app, Hr1, Hr2, Hr4, Ho3, Hm2, Hm3, Hm4, Hd1.
      by rewrite !app_nil_r.
  - apply iterates_panicked, (Hpre unit _ Panicked).
    by rewrite lookups_app, Hl2, Hl3.
Qed.

Lemma SyncOrgRolesHook_iterates order id :
  all_runs (λ tr o, ∀ userID l,
              head tr = Some (EvGetUserOrgList userID (l, None)) →
              sync.iterates (OrgRoles id) order l tr o)
    (sync.SyncOrgRolesHook order id).
Proof.
  unfold sync.SyncOrgRolesHook.
  destruct (negb _); [by intros ?? [=]|]. destruct (negb _); [by intros ?? [=]|].
  destruct (ParseInt _) as [uid|]; [|by intros ?? [=]].
  case_bool_decide; [by intros ?? [=]|]. simpl.
  intros [result [e|]]; simpl; [by intros ?? [=]|].
  eapply all_runs_mono; [|apply reconcile_iterates].
  intros tr o (Hpre & Hl & Hn & Hr) userID l [= -> ->].
  assert (∀ ev tr', sync.ends_fatally tr' → sync.ends_fatally (ev :: tr')) as Hfatal.
  { intros ev tr'. apply (ends_fatally_app [ev]). }
  split_and!; [done| | |].
  - destruct Hl as [?|[?|?]]; [by left|by right; left|right; right].
    by apply (ends_in_failed_update_app [_]).
  - destruct Hn as [?|[?|[? ?]]]; [by left|by right; left|right; right].
    split; [by apply Hfatal|done].
  - destruct Hr as [?|[?|?]]; [by left|by right; left|right; right].
    by apply Hfatal.
Qed.

Section sync_lookup_error.
Import sync.

Lemma lookup_error_unused_bind {A B} (m : Prog A) (f : A → Prog B) :
  lookup_error_unused m → (∀ a, lookup_error_unused (f a)) →
  lookup_error_unused (bind m f).
Proof.
  intros Hm Hf.
  induction m as [a| |q k IH|q k IH|q k IH|c k IH|c k IH|c k IH|o u k IH|c k IH|q k IH];
    simpl in *; auto.
  intros o e. destruct (Hm o e) as [Heq Hk]. split; [by rewrite Heq|auto].
Qed.

Lemma exec_without_GetByID_error {W A} (h : Services W) (p : Prog A) (w : W) :
  lookup_error_unused p →
  result (exec (without_GetByID_error h) p w) = result (exec h p w)
  ∧ world (exec (without_GetByID_error h) p w) = world (exec h p w).
Proof.
  revert w.
  induction p as [a| |q k IH|q k IH|q k IH|c k IH|c k IH|c k IH|o u k IH|c k IH|q k IH];
    intros w Hp; simpl in *; auto.
  destruct (svc_GetByID h q w) as [[o e] w1]; simpl.
  destruct (Hp o e) as [-> Hk]. auto.
Qed.

Lemma update_existing_lookup_error_unused roles userID result handled deletes :
  lookup_error_unused (update_existing roles userID result handled deletes).
Proof.
  revert handled deletes.
  induction result as [|orga rest IH]; intros handled deletes; simpl; [done|].
  intros o e. split; [done|]. destruct o as [orgb|]; [|done].
  repeat case_bool_decide; simpl; auto. intros [e'|]; simpl; auto.
Qed.

Lemma add_new_lookup_error_unused userID handled entries orgIDs :
  lookup_error_unused (add_new userID handled entries orgIDs).
Proof.
  revert orgIDs. induction entries as [|[orgName orgRole] rest IH];
    intros orgIDs; simpl; [done|].
  intros [[orga|] [e|]]; simpl; auto.
  case_bool_decide; simpl; auto. intros [e'|]; simpl; auto.
  destruct (errors_Is e' ErrOrgNotFound); simpl; auto.
Qed.

Lemma remove_stale_lookup_error_unused userID deletes :
  lookup_error_unused (remove_stale userID deletes).
Proof.
  induction deletes as [|orgID rest IH]; simpl; [done|].
  intros [e|]; simpl; auto.
  destruct (errors_Is e ErrLastOrgAdmin); simpl; auto.
Qed.

Lemma SyncOrgRolesHook_lookup_error_unused order id :
  lookup_error_unused (SyncOrgRolesHook order id).
Proof.
  unfold SyncOrgRolesHook.
  destruct (negb _); [done|]. destruct (negb _); [done|].
  destruct (ParseInt _) as [userID|]; [|done].
  case_bool_decide; [done|]. simpl.
  intros [result [e|]]; simpl; [done|]. unfold reconcile.
  apply lookup_error_unused_bind; [apply update_existing_lookup_error_unused|].
  intros [e|[handled deletes]]; [done|].
  apply lookup_error_unused_bind; [apply add_new_lookup_error_unused|].
  intros [e|orgIDs]; [done|].
  apply lookup_error_unused_bind; [apply remove_stale_lookup_error_unused|].
  intros [e|[]]; [done|]. unfold update_default_org.
  case_bool_decide; [|done]. destruct (merge_sort _ _); simpl; done.
Qed.

(** C9.  Whatever the services do.  The organisations of the fetched
    memberships are looked up by id one by one, in the order of the
    list, and every membership gets its lookup unless the hook has
    panicked or returned on a failed update before.  The hook panics
    exactly when a lookup by id answered with a nil organisation, and
    that lookup is then the last call the hook made: nothing handles
    it.  So a nil answer to the lookup for the first membership always
    ends the hook in a panic, right after that lookup.  The error that
    comes with a lookup plays no part: erasing it from every answer
    changes neither how the hook ends nor the world it leaves. *)
Theorem sync_panics_on_nil_lookup {W} (h : Services W)
    (order : list (string * string)) (id : Identity) (w : W) :
  let r := exec h (SyncOrgRolesHook order id) w in
  (result r = Panicked ↔ Exists (λ ev, nil_lookup ev = true) (trace r))
  ∧ (Exists (λ ev, nil_lookup ev = true) (trace r) ↔
       ∃ pre orgID e, trace r = pre ++ [EvGetByID orgID (None, e)])
  ∧ result (exec (without_GetByID_error h) (SyncOrgRolesHook order id) w) = result r
  ∧ world (exec (without_GetByID_error h) (SyncOrgRolesHook order id) w) = world r
  ∧ (∀ userID l, head (trace r) = Some (EvGetUserOrgList userID (l, None)) →
       lookups (trace r) `prefix_of` (dto_OrgID <$> l)
       ∧ (lookups (trace r) = dto_OrgID <$> l ∨ result r = Panicked
          ∨ ends_in_failed_update (trace r)))
  ∧ (∀ pre orgID e post, trace r = pre ++ EvGetByID orgID (None, e) :: post →
       post = [] ∧ result r = Panicked)
  ∧ (∀ userID dto rest e,
       syncs id userID →
       (svc_GetUserOrgList h userID w).1 = (dto :: rest, None) →
       (svc_GetByID h (dto_OrgID dto) (svc_GetUserOrgList h userID w).2).1 = (None, e) →
       result r = Panicked
       ∧ trace r = [EvGetUserOrgList userID (dto :: rest, None);
                    EvGetByID (dto_OrgID dto) (None, e)]).
Proof.
  simpl.
  pose proof (all_runs_exec h _ _ w (SyncOrgRolesHook_lookup_safe order id)) as Hsafe.
  pose proof (all_runs_exec h _ _ w (SyncOrgRolesHook_iterates order id)) as Hiter.
  destruct (exec_without_GetByID_error h _ w
              (SyncOrgRolesHook_lookup_error_unused order id)) as [Hres Hworld].
  split_and!; [| |done|done| | |].
  - destruct (result (exec h _ w)) as [a|]; simpl in Hsafe.
    + split; [done|]. intros Hex. apply Exists_exists in Hex as (ev & Hin & Hev).
      rewrite Forall_forall in Hsafe. specialize (Hsafe ev Hin). congruence.
    + split; [|done]. intros _. destruct Hsafe as (pre & ev & -> & Hev & _).
      apply Exists_app. right. by constructor.
  - split.
    + intros Hex. destruct (result (exec h _ w)) as [a|]; simpl in Hsafe.
      * apply Exists_exists in Hex as (ev & Hin & Hev).
        rewrite Forall_forall in Hsafe. specialize (Hsafe ev Hin). congruence.
      * destruct Hsafe as (pre & ev & -> & Hev & _).
        destruct ev as [| ? [[?|] ?] | | | | | | |]; try done. eauto.
    + intros (pre & orgID & e & ->). apply Exists_app. right. by constructor.
  - intros userID l Hhead. destruct (Hiter userID l Hhead) as (Hpre & Hall & _).
    by split.
  - intros pre orgID e post Heq.
    destruct (result (exec h _ w)) as [a|]; simpl in Hsafe.
    + rewrite Heq, Forall_app, Forall_cons in Hsafe.
      by destruct Hsafe as (_ & ? & _).
    + split; [|done]. destruct Hsafe as (pre' & ev & Heq' & _ & Hpre').
      rewrite Heq in Heq'. destruct post as [|ev' post _] using rev_ind; [done|].
      rewrite app_comm_cons, app_assoc in Heq'.
      apply app_inj_tail in Heq' as [<- _].
      rewrite Forall_app, Forall_cons in Hpre'. by destruct Hpre' as (_ & ? & _).
  - intros userID dto rest e (Hsync & Hns & Hparse & Hroles) Hfetch Hlookup.
    unfold SyncOrgRolesHook, reconcile, IsNamespace.
    rewrite Hsync, Hns, Hparse. simpl.
    rewrite bool_decide_eq_false_2 by (by intros ?%map_size_empty_iff).
    simpl. destruct (svc_GetUserOrgList h userID w) as [[l err] w1].
    simpl in Hfetch, Hlookup. injection Hfetch as -> ->. simpl.
    destruct (svc_GetByID h (dto_OrgID dto) w1) as [[o e0] w2].
    simpl in Hlookup. injection Hlookup as -> ->. done.
Qed.
End sync_lookup_error.

(** A membership whose organisation is gone from the directory: the
    lookup by id fails and the hook panics. *)
Example sync_dangling_membership_panics :
  result (exec memstore.services
            (sync.SyncOrgRolesHook [("Main Org.", "Editor")]
               (scenario.user_identity "7" "Main Org." 1 {[ "Main Org." := "Editor" ]}))
            (memstore.mkStore [scenario.main_org] [memstore.mkOrgUser 5 7 "Viewer"] ∅ []))
  = Panicked.
Proof. vm_compute. reflexivity. Qed.

(** The same run, by the theorem: user 7 has a membership in
    organisation 5, which the directory does not know; the lookup comes
    back nil with [ErrOrgNotFound], and the hook panics on it. *)
Lemma sync_panics_on_nil_lookup_witness :
  let r := exec memstore.services
             (sync.SyncOrgRolesHook [("Main Org.", "Editor")]
                (scenario.user_identity "7" "Main Org." 1 {[ "Main Org." := "Editor" ]}))
             (memstore.mkStore [scenario.main_org] [memstore.mkOrgUser 5 7 "Viewer"] ∅ []) in
  result r = Panicked
  ∧ trace r = [EvGetUserOrgList 7 ([mkUserOrgDTO 5 "" "Viewer"], None);
               EvGetByID 5 (None, Some ErrOrgNotFound)].
Proof.
  apply (proj2 (proj2 (proj2 (proj2 (proj2 (proj2
           (sync_panics_on_nil_lookup memstore.services [("Main Org.", "Editor")]
              (scenario.user_identity "7" "Main Org." 1 {[ "Main Org." := "Editor" ]})
              (memstore.mkStore [scenario.main_org] [memstore.mkOrgUser 5 7 "Viewer"] ∅ [])))))))
           7%Z (mkUserOrgDTO 5 "" "Viewer") [] (Some ErrOrgNotFound)).
  - unfold sync.syncs. split_and!; [vm_compute; reflexivity..|apply insert_non_empty].
  - vm_compute. reflexivity.
  - vm_compute. reflexivity.
Defined.

(** ** Role sync: which failures end the hook *)

Lemma each_event_nil {A} (φ : event → list event → outcome A → Prop) (o : outcome A) :
  each_event φ [] o.
Proof. intros pre ev post Heq. by destruct pre. Qed.

Lemma each_event_cons {A} (φ : event → list event → outcome A → Prop)
    (ev : event) (tr : list event) (o : outcome A) :
  φ ev tr o → each_event φ tr o → each_event φ (ev :: tr) o.
Proof.
  intros Hev Htr [|ev' pre] ev'' post Heq; simplify_eq/=; [done|].
  by eapply Htr.
Qed.

Section sync_errors.
Import sync.
Context (id : Identity).
Implicit Types f : flow unit → Prog (option error * Identity).













Lemma all_runs_true {A} (p : Prog A) : all_runs (λ _ _, True) p.
Proof.
  induction p as [a| |q k IH|q k IH|q k IH|c k IH|c k IH|c k IH|o u k IH|c k IH|q k IH];
    simpl; auto.
Qed.

End sync_errors.




(** ** Role sync: the active organisation *)

Section sync_default.
Import sync.
Context (id : Identity) (userID : Z).
Hypothesis Hname : OrgRoles id !! OrgName id = None.

Lemma default_org_run_sound (tr : list event) (ids : list Z)
    (o : outcome (option error * Identity)) :
  default_org_run id userID ids tr o →
  (∀ pre cmd res post, tr = pre ++ EvUpdate cmd res :: post →
     post = [] ∧ ∃ m, least m (ids ++ resolved tr)
                      ∧ cmd = mkUpdateUser userID (Some m)
                      ∧ o = Returned (res, set_OrgID id m))
  ∧ (∀ id', o = Returned (None, id') → ids ++ resolved tr ≠ [] →
       ∃ pre cmd, tr = pre ++ [EvUpdate cmd None])
  ∧ ((∀ cmd res, EvUpdate cmd res ∉ tr) →
       ∀ e id', o = Returned (e, id') → id' = id).
Proof.
  revert ids. induction tr as [|ev tr IH]; intros ids Hrun.
  { simpl in Hrun. split_and!.
    - intros pre ???. by destruct pre.
    - intros id' -> Hids. destruct Hrun as [[=]|(e & [= <- <-] & He)].
      rewrite (He eq_refl) in Hids. done.
    - intros _ e id' ->. by destruct Hrun as [[=]|(e' & [= <- <-] & _)]. }
  assert ((∃ cmd res, ev = EvUpdate cmd res)
          ∨ ((∀ cmd res, ev ≠ EvUpdate cmd res)
             ∧ default_org_run id userID
                 (match resolved_org ev with Some x => ids ++ [x] | None => ids end)
                 tr o)) as [(cmd & res & ->)|[Hev Hrest]].
  { destruct ev; eauto; right; by split. }
  - simpl in Hrun. destruct Hrun as (-> & m & Hm & -> & ->). split_and!.
    + intros [|ev pre] cmd' res' post Heq; simplify_eq/=.
      * split; [done|]. exists m. unfold resolved. simpl. by rewrite app_nil_r.
      * by destruct pre.
    + intros id' [= -> <-] _. by exists [], (mkUpdateUser userID (Some m)).
    + intros Hno. destruct (Hno (mkUpdateUser userID (Some m)) res). by left.
  - apply IH in Hrest as (Hupd & Hdone & Hnone).
    assert (ids ++ resolved (ev :: tr)
            = (match resolved_org ev with Some x => ids ++ [x] | None => ids end)
              ++ resolved tr) as Hids.
    { unfold resolved. simpl. destruct (resolved_org ev); [|done].
      by rewrite <- app_assoc. }
    rewrite Hids. split_and!.
    + intros [|ev' pre] cmd res post Heq; simplify_eq/=; [by destruct (Hev cmd res)|].
      by eapply Hupd.
    + intros id' Ho Hne. destruct (Hdone id' Ho Hne) as (pre & cmd & ->).
      by exists (ev :: pre), cmd.
    + intros Hno. apply Hnone. intros cmd res Hin. apply (Hno cmd res). by right.
Qed.

Lemma update_existing_default roles result handled deletes ids
    (f : flow (gmap Z bool * list Z) → Prog (option error * Identity)) :
  (∀ e, f (Return e) = Ret (e, id)) →
  (∀ s, all_runs (default_org_run id userID ids) (f (Next s))) →
  all_runs (default_org_run id userID ids)
    (bind (update_existing roles userID result handled deletes) f).
Proof.
  intros Hret Hnext. revert handled deletes.
  induction result as [|orga rest IH]; intros handled deletes; simpl.
  { apply Hnext. }
  intros [[orgb|] e]; simpl; [|by left].
  repeat case_bool_decide; try apply IH.
  intros [e'|]; simpl; [|apply IH].
  rewrite Hret. simpl. right. by exists (Some e').
Qed.

Lemma add_new_default handled entries orgIDs
    (f : flow (list Z) → Prog (option error * Identity)) :
  (∀ e, f (Return e) = Ret (e, id)) →
  (∀ ids, all_runs (default_org_run id userID ids) (f (Next ids))) →
  all_runs (default_org_run id userID orgIDs)
    (bind (add_new userID handled entries orgIDs) f).
Proof.
  intros Hret Hnext. revert orgIDs.
  induction entries as [|[orgName orgRole] rest IH]; intros orgIDs; simpl.
  { apply Hnext. }
  intros [[orga|] [e|]]; simpl; try apply IH.
  case_bool_decide; [apply IH|].
  intros [e'|]; simpl; [|apply IH].
  destruct (errors_Is e' ErrOrgNotFound); simpl; [apply IH|].
  rewrite Hret. simpl. right. by exists (Some e').
Qed.

Lemma remove_stale_default deletes ids
    (f : flow unit → Prog (option error * Identity)) :
  (∀ e, f (Return e) = Ret (e, id)) →
  (∀ s, all_runs (default_org_run id userID ids) (f (Next s))) →
  all_runs (default_org_run id userID ids) (bind (remove_stale userID deletes) f).
Proof.
  intros Hret Hnext. induction deletes as [|orgID rest IH]; simpl.
  { apply Hnext. }
  intros [e|]; simpl.
  - destruct (errors_Is e ErrLastOrgAdmin); simpl; [apply IH|].
    rewrite Hret. simpl. right. by exists (Some e).
  - intros r. apply IH.
Qed.

Lemma update_default_org_default orgIDs :
  all_runs (default_org_run id userID orgIDs) (update_default_org id userID orgIDs).
Proof.
  unfold update_default_org. rewrite bool_decide_eq_true_2 by done.
  pose proof (merge_sort_Permutation Z.le orgIDs) as Hperm.
  pose proof (StronglySorted_merge_sort Z.le orgIDs) as Hsorted.
  destruct (merge_sort Z.le orgIDs) as [|first rest]; simpl.
  - right. exists None. split; [done|]. intros _.
    by apply Permutation_nil_l in Hperm.
  - intros res. split; [done|]. exists first. split_and!; [|done..].
    apply StronglySorted_inv in Hsorted as [_ Hfirst]. split.
    + rewrite <- Hperm. by left.
    + intros x. rewrite <- Hperm. intros [->|Hin]%elem_of_cons; [done|].
      rewrite Forall_forall in Hfirst. by apply Hfirst.
Qed.

Lemma SyncOrgRolesHook_default order :
  ParseInt (ID id) = Some userID →
  all_runs (default_org_run id userID []) (SyncOrgRolesHook order id).
Proof.
  intros Hparse. unfold SyncOrgRolesHook. rewrite Hparse.
  destruct (negb _); [right; by exists None|].
  destruct (negb _); [right; by exists None|].
  case_bool_decide; [right; by exists None|]. simpl.
  intros [result [e|]]; simpl; [right; by exists None|].
  unfold reconcile. apply update_existing_default; [done|].
  intros [handled deletes]. apply add_new_default; [done|]. intros ids.
  apply remove_stale_default; [done|]. intros [].
  apply update_default_org_default.
Qed.
End sync_default.

(** C2, as the code has it.  Let the hook run for user [userID] with an
    active organisation that is not among the asserted roles, against any
    services, and let [ids] be the ids of the organisations it resolved by
    name from the asserted roles.  A call of [userService.Update] is the
    hook's last call; it asks for the smallest of [ids], the identity's
    [OrgID] is that id, and the call's answer is the hook's result.  The
    call is made whenever the hook returns nil after resolving at least
    one organisation.  Without the call the identity is unchanged. *)
Theorem sync_default_org {W} (h : Services W) (order : list (string * string))
    (id : Identity) (userID : Z) (w : W) :
  sync.syncs id userID →
  OrgRoles id !! OrgName id = None →
  let r := exec h (sync.SyncOrgRolesHook order id) w in
  let ids := sync.resolved (trace r) in
  (∀ pre cmd res post, trace r = pre ++ EvUpdate cmd res :: post →
     post = [] ∧ ∃ m, sync.least m ids ∧ cmd = mkUpdateUser userID (Some m)
                      ∧ result r = Returned (res, set_OrgID id m))
  ∧ (∀ id', result r = Returned (None, id') → ids ≠ [] →
       ∃ pre cmd, trace r = pre ++ [EvUpdate cmd None])
  ∧ ((∀ cmd res, EvUpdate cmd res ∉ trace r) →
       ∀ e id', result r = Returned (e, id') → id' = id).
Proof.
  intros (_ & _ & Hparse & _) Hname. simpl.
  pose proof (all_runs_exec h _ _ w
                (SyncOrgRolesHook_default id userID Hname order Hparse)) as Hrun.
  by apply default_org_run_sound in Hrun.
Qed.

(** User 7, asserted Editor of A (id 5) and acting in B: the hook's last
    call persists an active organisation for the user. *)
Lemma sync_default_org_witness :
  ∃ pre cmd,
    trace (exec memstore.services
             (sync.SyncOrgRolesHook [("A", "Editor")] scenario.alice)
             scenario.two_orgs) = pre ++ [EvUpdate cmd None].
Proof.
  apply (proj1 (proj2 (sync_default_org memstore.services [("A", "Editor")]
                         scenario.alice 7 scenario.two_orgs
                         ltac:(unfold sync.syncs; split_and!;
                                  [vm_compute; reflexivity..|apply insert_non_empty])
                         ltac:(vm_compute; reflexivity)))
               (set_OrgID scenario.alice 5)).
  - vm_compute. reflexivity.
  - vm_compute. discriminate.
Defined.

(** C2 as stated fails.  User 7 is a viewer of A (id 5) and the only admin
    of B (id 2), acts in B, and is asserted Editor of A alone.  The removal
    from B is rejected, so after the sync the user is a member of A and of
    B; the smallest id among these organisations is 2, yet the hook makes
    5 the active organisation, in the identity and in the user directory:
    only the organisations resolved from the asserted roles are counted. *)
Lemma sync_default_org_ignores_retained :
  let r := exec memstore.services
             (sync.SyncOrgRolesHook [("A", "Editor")] scenario.alice)
             scenario.two_orgs in
  OrgRoles scenario.alice !! OrgName scenario.alice = None
  ∧ result r = Returned (None, set_OrgID scenario.alice 5)
  ∧ memstore.user_org (world r) !! 7%Z = Some 5%Z
  ∧ memstore.roles_of (world r) 7 = [(5, "Editor"); (2, "Admin")]%Z
  ∧ ¬ sync.least 5 (fst <$> memstore.roles_of (world r) 7).
Proof.
  split_and!; [vm_compute; reflexivity..|].
  intros [_ Hleast]. specialize (Hleast 2%Z).
  assert (5 ≤ 2)%Z; [|lia]. apply Hleast. vm_compute. set_solver.
Qed.

(** ** Role sync against the in-memory services *)

Section memstore_facts.
Import memstore.

Lemma set_role_UserID orgID userID role m :
  ou_UserID (set_role orgID userID role m) = ou_UserID m.
Proof. unfold set_role. case_bool_decide as Hm; [|done]. by destruct Hm as [_ ->]. Qed.

Lemma set_role_other orgID userID role m :
  ou_OrgID m ≠ orgID → set_role orgID userID role m = m.
Proof. intros Hne. unfold set_role. rewrite bool_decide_eq_false_2; [done|]. by intros [? _]. Qed.

Lemma filter_user_set_role orgID userID role uid (users : list OrgUser) :
  filter (λ m, ou_UserID m = uid) (set_role orgID userID role <$> users)
  = set_role orgID userID role <$> filter (λ m, ou_UserID m = uid) users.
Proof.
  induction users as [|m users IH]; [done|].
  rewrite fmap_cons, !filter_cons, set_role_UserID.
  case_decide; by rewrite ?fmap_cons, IH.
Qed.

Lemma last_admin_set_role s orgID userID role orgID' userID' :
  orgID ≠ orgID' →
  last_admin (with_org_users s (set_role orgID userID role <$> org_users s))
    orgID' userID'
  = last_admin s orgID' userID'.
Proof.
  intros Hne. unfold last_admin, with_org_users. simpl. f_equal.
  - apply bool_decide_ext. rewrite Exists_fmap. apply Exists_proper; [|done].
    intros m. unfold compose, set_role. case_bool_decide as Hm; [|done].
    destruct Hm as [Horg Huser]. simpl. split; intros [? _]; congruence.
  - apply bool_decide_ext. rewrite Forall_fmap. apply Forall_proper; [|done].
    intros m. unfold compose, set_role. case_bool_decide as Hm; [|done].
    destruct Hm as [Horg Huser]. simpl. split; intros _ ?; congruence.
Qed.

Lemma memberships_two s uid idA idB rA rB :
  roles_of s uid ≡ₚ [(idA, rA); (idB, rB)] →
  memberships_of s uid = [mkOrgUser idA uid rA; mkOrgUser idB uid rB]
  ∨ memberships_of s uid = [mkOrgUser idB uid rB; mkOrgUser idA uid rA].
Proof.
  unfold roles_of. intros Hperm.
  assert (Forall (λ m, ou_UserID m = uid) (memberships_of s uid)) as Huser.
  { apply Forall_forall. intros m Hm. unfold memberships_of in Hm.
    by apply list_elem_of_filter in Hm as [? _]. }
  destruct (memberships_of s uid) as [|[o1 u1 r1] [|[o2 u2 r2] [|m3 l]]].
  - by apply Permutation_nil_l in Hperm.
  - by apply Permutation_length in Hperm.
  - apply Forall_cons in Huser as [Hu1 Huser].
    apply Forall_cons in Huser as [Hu2 _]. simpl in *. subst u1 u2.
    symmetry in Hperm. apply Permutation_length_2_inv in Hperm as [Heq|Heq];
      simplify_eq/=; auto.
  - by apply Permutation_length in Hperm.
Qed.

Lemma is_member_of s uid orgID role :
  mkOrgUser orgID uid role ∈ memberships_of s uid → is_member s orgID uid = true.
Proof.
  intros [_ Hin]%list_elem_of_filter. apply bool_decide_eq_true.
  apply Exists_exists. by exists (mkOrgUser orgID uid role).
Qed.
End memstore_facts.

(** Single calls against the in-memory services. *)
Section memstore_steps.
Context {A : Type}.

Lemma step_GetByID q (k : option Org * option error → Prog A) s o :
  memstore.org_by_id s q = Some o →
  exec memstore.services (GetByID q k) s
  = logged (EvGetByID q (Some o, None)) (exec memstore.services (k (Some o, None)) s).
Proof. intros Ho. simpl. unfold memstore.GetByID. by rewrite Ho. Qed.

Lemma step_GetByName q (k : option Org * option error → Prog A) s o :
  memstore.org_by_name s q = Some o →
  exec memstore.services (GetByName q k) s
  = logged (EvGetByName q (Some o, None)) (exec memstore.services (k (Some o, None)) s).
Proof. intros Ho. simpl. unfold memstore.GetByName. by rewrite Ho. Qed.

Lemma step_UpdateOrgUser cmd (k : option error → Prog A) s :
  memstore.is_member s (upd_OrgID cmd) (upd_UserID cmd) = true →
  exec memstore.services (UpdateOrgUser cmd k) s
  = logged (EvUpdateOrgUser cmd None)
      (exec memstore.services (k None)
         (memstore.with_org_users s
            (memstore.set_role (upd_OrgID cmd) (upd_UserID cmd) (upd_Role cmd)
               <$> memstore.org_users s))).
Proof. intros Hm. simpl. unfold memstore.UpdateOrgUser. by rewrite Hm. Qed.

Lemma step_RemoveOrgUser cmd (k : option error → Prog A) s :
  exec memstore.services (RemoveOrgUser cmd k) s
  = if memstore.last_admin s (rem_OrgID cmd) (rem_UserID cmd)
    then logged (EvRemoveOrgUser cmd (Some ErrLastOrgAdmin))
           (exec memstore.services (k (Some ErrLastOrgAdmin)) s)
    else logged (EvRemoveOrgUser cmd None)
           (exec memstore.services (k None)
              (memstore.with_org_users s
                 (filter (λ m, ¬ (memstore.ou_OrgID m = rem_OrgID cmd
                                  ∧ memstore.ou_UserID m = rem_UserID cmd))
                    (memstore.org_users s)))).
Proof.
  simpl. unfold memstore.RemoveOrgUser. by destruct (memstore.last_admin _ _ _).
Qed.
End memstore_steps.

Section two_memberships.
Context (s : memstore.Store) (uid idA idB : Z) (nA nB rA rB : string).
Hypothesis HidAB : idA ≠ idB.
Hypothesis HnAB : nA ≠ nB.
Hypothesis HA : memstore.org_by_id s idA = Some (mkOrg idA nA).
Hypothesis HB : memstore.org_by_id s idB = Some (mkOrg idB nB).
Hypothesis HnameA : memstore.org_by_name s nA = Some (mkOrg idA nA).
Hypothesis Hmem : memstore.roles_of s uid ≡ₚ [(idA, rA); (idB, rB)].

(** The store once the role in A has been brought to Editor. *)
Let promoted : memstore.Store :=
  memstore.with_org_users s
    (memstore.set_role idA uid RoleEditor <$> memstore.org_users s).

Lemma roles_of_promoted :
  memstore.roles_of promoted uid ≡ₚ [(idA, RoleEditor); (idB, rB)].
Proof.
  unfold memstore.roles_of, memstore.memberships_of, promoted, memstore.with_org_users.
  cbn [memstore.org_users].
  rewrite filter_user_set_role. fold (memstore.memberships_of s uid).
  destruct (memberships_two _ _ _ _ _ _ Hmem) as [-> | ->]; cbn [fmap list_fmap];
    unfold memstore.set_role; cbn [memstore.ou_OrgID memstore.ou_UserID memstore.ou_Role];
    rewrite (bool_decide_eq_true_2 (idA = idA ∧ uid = uid)) by done;
    rewrite (bool_decide_eq_false_2 (idB = idA ∧ uid = uid)) by (by intros [? _]);
    cbn [memstore.ou_OrgID memstore.ou_Role]; [done|apply perm_swap].
Qed.

(** The turns of the first loop: the membership of A or of B is visited,
    and the role in A is kept or brought to Editor. *)
Ltac visit_org H Hrole :=
  first [rewrite (step_GetByID _ _ _ _ H) | rewrite (step_GetByID _ _ promoted _ H)];
  cbn beta iota;
  cbn [Org_Name memstore.to_dto dto_Role dto_OrgID memstore.ou_Role memstore.ou_OrgID];
  rewrite Hrole.
Ltac visit_A :=
  match goal with
  | HA : memstore.org_by_id _ ?a = Some (mkOrg ?a ?n),
    Hrole : map_index _ ?n = RoleEditor |- _ =>
      visit_org HA Hrole;
      rewrite (bool_decide_eq_false_2 (RoleEditor = "")) by done
  end.
Ltac visit_B :=
  match goal with
  | HB : memstore.org_by_id _ ?b = Some (mkOrg ?b ?n),
    Hrole : map_index _ ?n = "" |- _ =>
      visit_org HB Hrole;
      rewrite (bool_decide_eq_true_2 ("" = "")) by done
  end.
Ltac keep_role :=
  match goal with
  | H : RoleEditor = ?r |- _ =>
      rewrite (bool_decide_eq_false_2 (RoleEditor ≠ r)) by (by intros ?)
  end.
Ltac promote :=
  match goal with
  | H : RoleEditor ≠ ?r, Hm : memstore.is_member _ _ _ = true |- _ =>
      rewrite (bool_decide_eq_true_2 (RoleEditor ≠ r)) by done;
      rewrite step_UpdateOrgUser by exact Hm;
      cbn [upd_OrgID upd_UserID upd_Role]; fold promoted
  end.

Lemma exec_update_existing_two :
  ∃ handled tr s1,
    exec memstore.services
      (sync.update_existing {[ nA := RoleEditor ]} uid
         (memstore.to_dto s <$> memstore.memberships_of s uid) ∅ []) s
    = mkRun (Returned (sync.Next (handled, [idB]))) s1 tr
    ∧ is_Some (handled !! idA)
    ∧ memstore.org_by_name s1 nA = Some (mkOrg idA nA)
    ∧ memstore.last_admin s1 idB uid = memstore.last_admin s idB uid
    ∧ memstore.roles_of s1 uid ≡ₚ [(idA, RoleEditor); (idB, rB)].
Proof.
  assert (map_index {[ nA := RoleEditor ]} nA = RoleEditor) as HroleA.
  { unfold map_index. by rewrite lookup_singleton_eq. }
  assert (map_index {[ nA := RoleEditor ]} nB = "") as HroleB.
  { unfold map_index. by rewrite lookup_singleton_ne. }
  assert (memstore.is_member s idA uid = true) as HmemberA.
  { apply (is_member_of _ _ _ rA).
    destruct (memberships_two _ _ _ _ _ _ Hmem) as [-> | ->]; set_solver. }
  assert (∀ r, r = RoleEditor →
            memstore.roles_of s uid ≡ₚ [(idA, r); (idB, rB)] →
            memstore.roles_of s uid ≡ₚ [(idA, RoleEditor); (idB, rB)]) as Hsame.
  { by intros r ->. }
  destruct (memberships_two _ _ _ _ _ _ Hmem) as [Hl|Hl]; rewrite Hl;
    cbn [fmap list_fmap]; destruct (decide (RoleEditor = rA)) as [HrA|HrA].
  - eexists _, _, s. split.
    { cbn [sync.update_existing]. visit_A. keep_role. visit_B. cbn. reflexivity. }
    split_and!; [|done|done|by apply (Hsame rA)].
    exists true. by rewrite lookup_insert_ne, lookup_insert_eq.
  - eexists _, _, promoted. split.
    { cbn [sync.update_existing]. visit_A. promote. visit_B. cbn. reflexivity. }
    split_and!; [|exact HnameA|by apply last_admin_set_role|apply roles_of_promoted].
    exists true. by rewrite lookup_insert_ne, lookup_insert_eq.
  - eexists _, _, s. split.
    { cbn [sync.update_existing]. visit_B. visit_A. keep_role. cbn. reflexivity. }
    split_and!; [|done|done|by apply (Hsame rA)].
    exists true. by rewrite lookup_insert_eq.
  - eexists _, _, promoted. split.
    { cbn [sync.update_existing]. visit_B. visit_A. promote. cbn. reflexivity. }
    split_and!; [|exact HnameA|by apply last_admin_set_role|apply roles_of_promoted].
    exists true. by rewrite lookup_insert_eq.
Qed.

Lemma exec_add_new_known handled s1 :
  is_Some (handled !! idA) →
  memstore.org_by_name s1 nA = Some (mkOrg idA nA) →
  exec memstore.services (sync.add_new uid handled [(nA, RoleEditor)] []) s1
  = mkRun (Returned (sync.Next [idA])) s1
      [EvGetByName nA (Some (mkOrg idA nA), None)].
Proof.
  intros Hhandled Hname. cbn [sync.add_new].
  rewrite (step_GetByName _ _ _ _ Hname). cbn beta iota. cbn [Org_ID].
  by rewrite bool_decide_eq_true_2.
Qed.

Lemma exec_remove_stale_one s1 :
  exec memstore.services (sync.remove_stale uid [idB]) s1
  = if memstore.last_admin s1 idB uid
    then mkRun (Returned (sync.Next ())) s1
           [EvRemoveOrgUser (mkRemoveOrgUser idB uid) (Some ErrLastOrgAdmin)]
    else mkRun (Returned (sync.Next ()))
           (memstore.mkStore (memstore.orgs s1)
              (filter (λ m, ¬ (memstore.ou_OrgID m = idB ∧ memstore.ou_UserID m = uid))
                 (memstore.org_users s1))
              (memstore.user_org s1)
              (filter (λ p, p ≠ (idB, uid)) (memstore.permissions s1)))
           [EvRemoveOrgUser (mkRemoveOrgUser idB uid) None;
            EvDeleteUserPermissions idB uid None].
Proof.
  cbn [sync.remove_stale]. rewrite step_RemoveOrgUser. cbn [rem_OrgID rem_UserID].
  by destruct (memstore.last_admin s1 idB uid).
Qed.

Lemma exec_update_default_org_memstore id orgIDs s1 :
  ∃ id' s2 tr,
    exec memstore.services (sync.update_default_org id uid orgIDs) s1
    = mkRun (Returned (None, id')) s2 tr
    ∧ memstore.org_users s2 = memstore.org_users s1.
Proof.
  unfold sync.update_default_org. case_bool_decide; [|by eexists _, _, _].
  destruct (merge_sort _ _); by eexists _, _, _.
Qed.

Lemma roles_of_after_removal s1 :
  memstore.roles_of s1 uid ≡ₚ [(idA, RoleEditor); (idB, rB)] →
  (λ m, (memstore.ou_OrgID m, memstore.ou_Role m))
    <$> filter (λ m, memstore.ou_UserID m = uid)
          (filter (λ m, ¬ (memstore.ou_OrgID m = idB ∧ memstore.ou_UserID m = uid))
             (memstore.org_users s1))
  = [(idA, RoleEditor)].
Proof.
  intros Hroles. rewrite list_filter_filter.
  rewrite (list_filter_iff _
             (λ m, ¬ (memstore.ou_OrgID m = idB ∧ memstore.ou_UserID m = uid)
                   ∧ memstore.ou_UserID m = uid)).
  2:{ intros m. tauto. }
  rewrite <- list_filter_filter. fold (memstore.memberships_of s1 uid).
  destruct (memberships_two _ _ _ _ _ _ Hroles) as [-> | ->];
    rewrite !filter_cons, filter_nil; cbn [memstore.ou_OrgID memstore.ou_UserID];
    repeat case_decide; try done; intuition congruence.
Qed.
End two_memberships.

(** C1.  Against the in-memory services: a user whose memberships are A
    and B and who is asserted Editor of A alone ends the sync, without
    error, as Editor of A; the membership of B is gone, unless its removal
    was rejected because the user is the last admin of B, in which case
    the hook passes over that removal and the membership of B stays as it
    was. *)
Theorem sync_two_memberships (s : memstore.Store) (order : list (string * string))
    (id : Identity) (uid idA idB : Z) (nA nB rA rB : string) :
  sync.syncs id uid →
  OrgRoles id = {[ nA := RoleEditor ]} →
  sync.range_order (OrgRoles id) order →
  idA ≠ idB → nA ≠ nB →
  memstore.org_by_id s idA = Some (mkOrg idA nA) →
  memstore.org_by_id s idB = Some (mkOrg idB nB) →
  memstore.org_by_name s nA = Some (mkOrg idA nA) →
  memstore.roles_of s uid ≡ₚ [(idA, rA); (idB, rB)] →
  let r := exec memstore.services (sync.SyncOrgRolesHook order id) s in
  let rejected := memstore.last_admin s idB uid in
  (∃ id', result r = Returned (None, id'))
  ∧ EvRemoveOrgUser (mkRemoveOrgUser idB uid)
      (if rejected then Some ErrLastOrgAdmin else None) ∈ trace r
  ∧ memstore.roles_of (world r) uid
    ≡ₚ (if rejected then [(idA, RoleEditor); (idB, rB)] else [(idA, RoleEditor)]).
Proof.
  intros (Hsync & Hns & Hparse & Hne) Hroles Horder HidAB HnAB HA HB HnameA Hmem.
  unfold sync.range_order in Horder. rewrite Hroles in Horder.
  rewrite map_to_list_singleton in Horder.
  apply Permutation_singleton_r in Horder. subst order.
  destruct (exec_update_existing_two s uid idA idB nA nB rA rB
              HidAB HnAB HA HB HnameA Hmem)
    as (handled & tr1 & s1 & Hrun1 & Hhandled & Hname1 & Hla & Hroles1).
  unfold sync.SyncOrgRolesHook.
  rewrite Hsync. unfold IsNamespace. rewrite Hns, Hparse.
  rewrite bool_decide_eq_true_2 by done. cbn [negb].
  rewrite bool_decide_eq_false_2 by (by rewrite Hroles, map_size_singleton).
  cbn [exec svc_GetUserOrgList memstore.services].
  unfold memstore.GetUserOrgList. cbn [fst snd]. cbn beta iota.
  unfold sync.reconcile. rewrite Hroles.
  rewrite exec_bind, Hrun1. cbn [result world trace]. cbn beta iota.
  rewrite exec_bind, (exec_add_new_known uid idA nA handled s1 Hhandled Hname1).
  cbn [result world trace]. cbn beta iota.
  rewrite exec_bind, exec_remove_stale_one, Hla.
  destruct (memstore.last_admin s idB uid); cbn [result world trace]; cbn beta iota zeta;
    match goal with |- context [exec _ (sync.update_default_org ?i ?u ?l) ?w] =>
      destruct (exec_update_default_org_memstore u i l w)
        as (id' & s2 & tr & -> & Husers) end;
    cbn [logged result world trace]; (split_and!; [by eexists|set_solver|]);
    unfold memstore.roles_of, memstore.memberships_of; rewrite Husers.
  - exact Hroles1.
  - cbn [memstore.org_users]. by rewrite (roles_of_after_removal uid idA idB rB).
Qed.

(** A viewer of A and B asserted Editor of A: B is left, A is promoted. *)
Lemma sync_two_memberships_witness :
  memstore.roles_of
    (world (exec memstore.services
              (sync.SyncOrgRolesHook [("A", "Editor")] scenario.alice)
              scenario.two_orgs_viewer)) 7
  ≡ₚ [(5%Z, RoleEditor)].
Proof.
  pose proof (sync_two_memberships scenario.two_orgs_viewer [("A", "Editor")]
                scenario.alice 7 5 2 "A" "B" "Viewer" "Viewer"
                ltac:(unfold sync.syncs; split_and!;
                      [vm_compute; reflexivity..|apply insert_non_empty])
                ltac:(reflexivity)
                ltac:(unfold sync.range_order; vm_compute; reflexivity)
                ltac:(discriminate) ltac:(discriminate)
                ltac:(vm_compute; reflexivity) ltac:(vm_compute; reflexivity)
                ltac:(vm_compute; reflexivity) ltac:(vm_compute; reflexivity))
    as (_ & _ & Hroles).
  exact Hroles.
Defined.

(** * Further properties *)

(** ** [SetDefaultOrgHook] and [validateUsingOrg] *)

Lemma errors_Is_refl (e : error) : errors_Is e e = true.
Proof. destruct e; simpl; rewrite ?bool_decide_eq_true_2 by done; done. Qed.

Lemma org_listed_elem (orgID : Z) (result : list UserOrgDTO) :
  defaultorg.org_listed orgID result = true ↔ orgID ∈ dto_OrgID <$> result.
Proof.
  induction result as [|other rest IH]; simpl.
  - split; [done|]. by intros ?%elem_of_nil.
  - rewrite elem_of_cons. case_bool_decide as Hother.
    + split; [|done]. intros _. by left.
    + rewrite IH. split; [by right|]. by intros [?|?].
Qed.

(** [validateUsingOrg] makes one call, the fetch of the user's
    memberships.  It answers true exactly when the fetch succeeds and
    some membership has the organisation id (an exact match on the id);
    a failed fetch gives false together with an error that wraps the
    fetch error. *)
Theorem validateUsingOrg_answers {W} (h : Services W) (userID orgID : Z) (w : W) :
  let fetch := svc_GetUserOrgList h userID w in
  let r := exec h (defaultorg.validateUsingOrg userID orgID) w in
  trace r = [EvGetUserOrgList userID fetch.1]
  ∧ world r = fetch.2
  ∧ ∃ answer err,
      result r = Returned (answer, err)
      ∧ (answer = true ↔
           fetch.1.2 = None ∧ orgID ∈ dto_OrgID <$> fetch.1.1)
      ∧ (err = None ↔ fetch.1.2 = None)
      ∧ (∀ e, fetch.1.2 = Some e → ∃ e', err = Some e' ∧ errors_Is e' e = true).
Proof.
  simpl. destruct (svc_GetUserOrgList h userID w) as [[l [e|]] w1]; simpl.
  - split_and!; [done..|]. eexists _, _. split_and!; [done| | |].
    + split; [done|]. by intros [? _].
    + done.
    + intros e0 [= <-]. eexists. split; [done|]. simpl.
      by rewrite errors_Is_refl, orb_true_r.
  - split_and!; [done..|]. eexists _, _. split_and!; [done| |done|done].
    rewrite org_listed_elem. split; [by intros ?|by intros [_ ?]].
Qed.

Section default_org.
Context {W : Type} (h : Services W).

Lemma exec_SetDefaultOrgHook d cur err userID (w : W) :
  defaultorg.applies d cur err userID →
  exec h (defaultorg.SetDefaultOrgHook d cur err) w
  = let fetch := svc_GetUserOrgList h userID w in
    match fetch.1.2 with
    | Some _ => mkRun (Returned ()) fetch.2 [EvGetUserOrgList userID fetch.1]
    | None =>
        if defaultorg.org_listed d fetch.1.1 then
          let upd := svc_Update h (mkUpdateUser userID (Some d)) fetch.2 in
          mkRun (Returned ()) upd.2
            [EvGetUserOrgList userID fetch.1;
             EvUpdate (mkUpdateUser userID (Some d)) upd.1]
        else mkRun (Returned ()) fetch.2 [EvGetUserOrgList userID fetch.1]
    end.
Proof.
  intros (Hd & -> & id & -> & Hns & Hparse).
  unfold defaultorg.SetDefaultOrgHook, IsNamespace.
  rewrite bool_decide_eq_false_2 by lia.
  rewrite Hns, Hparse. simpl.
  destruct (svc_GetUserOrgList h userID w) as [[l [e|]] w1]; simpl; [done|].
  by destruct (defaultorg.org_listed d l).
Qed.

(** When no default organisation is configured, the identity is nil, the
    authentication failed, the identity is not a user or its id does not
    parse, [SetDefaultOrgHook] calls no service at all. *)
Theorem SetDefaultOrgHook_skips (d : Z) (cur : option Identity)
    (err : option error) (w : W) :
  (∀ userID, ¬ defaultorg.applies d cur err userID) →
  exec h (defaultorg.SetDefaultOrgHook d cur err) w = mkRun (Returned ()) w [].
Proof.
  intros Hnot. unfold defaultorg.SetDefaultOrgHook, IsNamespace.
  case_bool_decide as Hd; [done|].
  destruct cur as [id|]; [|done]. destruct err as [e|]; [done|].
  case_bool_decide as Hns; simpl; [|done].
  destruct (ParseInt (ID id)) as [userID|] eqn:Hparse; [|done].
  destruct (Hnot userID). split_and!; [lia|done|]. by exists id.
Qed.

(** Otherwise the hook fetches the user's memberships and, exactly when
    the fetch succeeds and the default organisation is among them, asks
    the user directory to make it the active organisation.  These are
    its only calls (no membership is added, changed or removed), and no
    failure of either call reaches the caller. *)
Theorem SetDefaultOrgHook_updates_members_only (d : Z) (cur : option Identity)
    (err : option error) (userID : Z) (w : W) :
  defaultorg.applies d cur err userID →
  let fetch := svc_GetUserOrgList h userID w in
  let upd := svc_Update h (mkUpdateUser userID (Some d)) fetch.2 in
  let r := exec h (defaultorg.SetDefaultOrgHook d cur err) w in
  result r = Returned ()
  ∧ ((fetch.1.2 = None ∧ d ∈ dto_OrgID <$> fetch.1.1) →
       trace r = [EvGetUserOrgList userID fetch.1;
                  EvUpdate (mkUpdateUser userID (Some d)) upd.1]
       ∧ world r = upd.2)
  ∧ (¬ (fetch.1.2 = None ∧ d ∈ dto_OrgID <$> fetch.1.1) →
       trace r = [EvGetUserOrgList userID fetch.1] ∧ world r = fetch.2).
Proof.
  intros Happ. simpl. rewrite (exec_SetDefaultOrgHook _ _ _ _ _ Happ). simpl.
  destruct (svc_GetUserOrgList h userID w) as [[l [e|]] w1]; simpl.
  - split_and!; [done| |done]. by intros [[=] _].
  - destruct (defaultorg.org_listed d l) eqn:Hl; simpl.
    + apply org_listed_elem in Hl. split_and!; [done|done|]. intros []. done.
    + split_and!; [done| |done]. intros [_ Hin%org_listed_elem]. congruence.
Qed.
End default_org.

(** A user of organisations 5 and 2 with default organisation 2. *)
Lemma SetDefaultOrgHook_updates_members_only_witness :
  trace (exec memstore.services
           (defaultorg.SetDefaultOrgHook 2 (Some scenario.alice) None)
           scenario.two_orgs)
  = [EvGetUserOrgList 7 ([mkUserOrgDTO 5 "A" "Viewer"; mkUserOrgDTO 2 "B" "Admin"], None);
     EvUpdate (mkUpdateUser 7 (Some 2%Z)) None].
Proof.
  apply (proj1 (proj2 (SetDefaultOrgHook_updates_members_only memstore.services 2
                         (Some scenario.alice) None 7 scenario.two_orgs
                         ltac:(unfold defaultorg.applies; split_and!;
                               [lia|done|by exists scenario.alice])))).
  vm_compute. split; [reflexivity|set_solver].
Defined.

(** An anonymous identity is not a user: the hook does nothing. *)
Lemma SetDefaultOrgHook_skips_witness :
  exec memstore.services
    (defaultorg.SetDefaultOrgHook 2
       (Some (anonimpl.newAnonymousIdentity scenario.anon_cfg scenario.main_org)) None)
    scenario.one_org
  = mkRun (Returned ()) scenario.one_org [].
Proof.
  apply SetDefaultOrgHook_skips.
  intros userID (_ & _ & id & [= <-] & Hns & _). discriminate.
Defined.

(** Against the in-memory services the hook never touches memberships,
    organisations or permissions, and the user's active organisation
    becomes the default organisation exactly when the user is a member
    of it; otherwise the store is left as it was. *)
Theorem SetDefaultOrgHook_memstore (d : Z) (cur : option Identity)
    (err : option error) (userID : Z) (s : memstore.Store) :
  defaultorg.applies d cur err userID →
  world (exec memstore.services (defaultorg.SetDefaultOrgHook d cur err) s)
  = if memstore.is_member s d userID
    then memstore.mkStore (memstore.orgs s) (memstore.org_users s)
           (<[userID := d]> (memstore.user_org s)) (memstore.permissions s)
    else s.
Proof.
  intros Happ. rewrite (exec_SetDefaultOrgHook _ _ _ _ _ _ Happ). simpl.
  assert (defaultorg.org_listed d (memstore.to_dto s <$> memstore.memberships_of s userID)
          = memstore.is_member s d userID) as ->.
  { apply eq_true_iff_eq. rewrite org_listed_elem. unfold memstore.is_member.
    rewrite bool_decide_eq_true, Exists_exists, <- list_fmap_compose.
    rewrite list_elem_of_fmap. unfold memstore.memberships_of.
    split.
    - intros (m & -> & [Hu Hm]%list_elem_of_filter). by exists m.
    - intros (m & Hm & <- & Hu). exists m. split; [done|].
      by apply list_elem_of_filter. }
  by destruct (memstore.is_member s d userID).
Qed.

Lemma SetDefaultOrgHook_memstore_witness :
  memstore.user_org
    (world (exec memstore.services
              (defaultorg.SetDefaultOrgHook 5 (Some scenario.alice) None)
              scenario.two_orgs)) !! 7%Z = Some 5%Z.
Proof.
  rewrite (SetDefaultOrgHook_memstore 5 (Some scenario.alice) None 7 scenario.two_orgs
             ltac:(unfold defaultorg.applies; split_and!;
                   [lia|done|by exists scenario.alice])).
  vm_compute. reflexivity.
Defined.

(** ** [OrgRedirect] *)

(** [OrgRedirect] asks the user directory for a switch exactly when the
    [orgId] parameter is a non-zero int64, the request is signed in and
    the id differs from the active organisation; the switch is for the
    signed-in user and the id given.  It writes a response only when
    that call fails, and then a 404.  In every other case it calls
    nothing and writes nothing. *)
Theorem OrgRedirect_switches_signed_in {W} (h : Services W) (orgIdValue : string)
    (ctx : middleware.ReqContext) (w : W) :
  let r := exec h (middleware.OrgRedirect orgIdValue ctx) w in
  (∀ orgId, middleware.switch_requested orgIdValue ctx orgId →
     let cmd := mkUpdateUser (middleware.ctx_UserID ctx) (Some orgId) in
     let upd := svc_Update h cmd w in
     trace r = [EvUpdate cmd upd.1] ∧ world r = upd.2
     ∧ result r =
         Returned
           (match upd.1 with
            | None => None
            | Some _ =>
                Some (if middleware.IsApiRequest ctx
                      then middleware.JsonApiErr 404 "Not found"
                      else middleware.HttpError "Not found" 404)
            end))
  ∧ ((∀ orgId, ¬ middleware.switch_requested orgIdValue ctx orgId) →
       r = mkRun (Returned None) w []).
Proof.
  simpl. unfold middleware.OrgRedirect, middleware.switch_requested. split.
  - intros orgId (-> & Hnz & -> & Hne). simpl.
    rewrite !bool_decide_eq_false_2 by done.
    simpl. destruct (svc_Update h _ w) as [[e|] w1]; simpl;
      [destruct (middleware.IsApiRequest ctx)|]; done.
  - intros Hnot. destruct (middleware.ParseInt64 orgIdValue) as [orgId|]; [|done].
    case_bool_decide as Hz; [done|].
    destruct (middleware.IsSignedIn ctx) eqn:Hs; simpl; [|done].
    case_bool_decide as Hsame; [done|]. by destruct (Hnot orgId).
Qed.

(** A signed-in user of organisation 2 following a link to organisation 5. *)
Lemma OrgRedirect_switches_signed_in_witness :
  memstore.user_org
    (world (exec memstore.services
              (middleware.OrgRedirect "5" (middleware.mkReqContext true 2 7 false))
              scenario.two_orgs)) !! 7%Z = Some 5%Z.
Proof.
  destruct (proj1 (OrgRedirect_switches_signed_in memstore.services "5"
                     (middleware.mkReqContext true 2 7 false) scenario.two_orgs)
              5%Z ltac:(unfold middleware.switch_requested; split_and!;
                        [vm_compute; reflexivity|lia|reflexivity|simpl; lia]))
    as (_ & -> & _).
  vm_compute. reflexivity.
Defined.

(** ** The anonymous client, further *)

(** Resolving the anonymous identity makes one call, the lookup of the
    configured organisation: it never tags a device.  [Authenticate]
    makes the same lookup and, exactly when the lookup returns no error,
    one [TagDevice] call on the copy of the request. *)
Theorem anonymous_calls {W} (h : Services W) (cfg : anonimpl.Cfg) (w : W)
    (orgID : Z) (namespaceID : NamespaceID) (r : Request) :
  let lookup := svc_GetByName h (anonimpl.AnonymousOrgName cfg) w in
  let tagged := svc_TagDevice h (anonimpl.httpReqCopy r) lookup.2 in
  let resolve := exec h (anonimpl.ResolveIdentity cfg orgID namespaceID) w in
  let auth := exec h (anonimpl.Authenticate cfg r) w in
  trace resolve = [EvGetByName (anonimpl.AnonymousOrgName cfg) lookup.1]
  ∧ world resolve = lookup.2
  ∧ trace auth =
      EvGetByName (anonimpl.AnonymousOrgName cfg) lookup.1
      :: match lookup.1.2 with
         | Some _ => []
         | None => [EvTagDevice (anonimpl.httpReqCopy r) tagged.1]
         end
  ∧ world auth = match lookup.1.2 with Some _ => lookup.2 | None => tagged.2 end.
Proof.
  simpl. unfold anonimpl.ResolveIdentity, anonimpl.Authenticate. simpl.
  destruct (svc_GetByName h _ w) as [[o [e|]] w1]; simpl; [done|].
  split_and!.
  - destruct o; [|done]. by repeat case_bool_decide.
  - destruct o; [|done]. by repeat case_bool_decide.
  - destruct (svc_TagDevice h _ w1) as [[e|] w2]; simpl;
      [destruct (errors_Is e ErrDeviceLimitReached)|]; by destruct o.
  - destruct (svc_TagDevice h _ w1) as [[e|] w2]; simpl;
      [destruct (errors_Is e ErrDeviceLimitReached)|]; by destruct o.
Qed.

(** The identity a successful anonymous authentication returns has no
    unique id, and its organisation role ([GetOrgRole]) is the
    configured role, or None when the configured role is empty. *)
Theorem anonymous_identity_role {W} (h : Services W) (cfg : anonimpl.Cfg)
    (r : Request) (w : W) (id : Identity) :
  result (exec h (anonimpl.Authenticate cfg r) w) = Returned (Some id, None) →
  identity.HasUniqueId id = false
  ∧ identity.GetOrgRole id
    = (if bool_decide (anonimpl.AnonymousOrgRole cfg = "") then RoleNone
       else anonimpl.AnonymousOrgRole cfg).
Proof.
  unfold anonimpl.Authenticate. simpl.
  destruct (svc_GetByName h _ w) as [[o [e|]] w1]; simpl; [done|].
  assert (∀ o', id = anonimpl.newAnonymousIdentity cfg o' →
            identity.HasUniqueId id = false
            ∧ identity.GetOrgRole id
              = (if bool_decide (anonimpl.AnonymousOrgRole cfg = "") then RoleNone
                 else anonimpl.AnonymousOrgRole cfg)) as Hnew.
  { intros o' ->. split; [done|]. unfold identity.GetOrgRole, map_index. simpl.
    by rewrite lookup_singleton_eq. }
  destruct (svc_TagDevice h _ w1) as [[e|] w2]; simpl;
    [destruct (errors_Is e ErrDeviceLimitReached)|]; destruct o as [o|]; simpl;
    intros [=]; by eapply Hnew.
Qed.

Lemma anonymous_identity_role_witness :
  identity.GetOrgRole
    (anonimpl.newAnonymousIdentity scenario.anon_cfg scenario.main_org) = "Viewer".
Proof.
  apply (anonymous_identity_role memstore.services scenario.anon_cfg
           scenario.no_request scenario.one_org).
  vm_compute. reflexivity.
Defined.

(** ** The token of a request *)

(** [stripSensitiveParam] leaves the headers and every query parameter
    other than [auth_token] alone, and does nothing at all without URL
    login.  With URL login the parameter is gone afterwards, so a request
    without a token header yields the empty token; a token in the header
    is read as before. *)
Theorem stripSensitiveParam_removes_token (cfg : jwt.Cfg) (req : jwt.HTTPRequest) :
  let req' := jwt.stripSensitiveParam cfg req in
  jwt.HeaderGet req' = jwt.HeaderGet req
  ∧ (∀ k, k ≠ jwt.authQueryParamName → jwt.Query req' !! k = jwt.Query req !! k)
  ∧ (jwt.URLLogin cfg = false → req' = req)
  ∧ (jwt.URLLogin cfg = true →
       jwt.Query req' !! jwt.authQueryParamName = None
       ∧ (jwt.HeaderGet req (jwt.HeaderName cfg) = "" →
          jwt.retrieveToken cfg req' = ""))
  ∧ (jwt.HeaderGet req (jwt.HeaderName cfg) ≠ "" →
       jwt.retrieveToken cfg req' = jwt.retrieveToken cfg req).
Proof.
  simpl. unfold jwt.stripSensitiveParam, jwt.values_Has.
  destruct (jwt.URLLogin cfg) eqn:Hurl.
  - case_bool_decide as Hhas; simpl.
    + split_and!; [done| |done| |].
      * intros k Hk. by rewrite lookup_delete_ne.
      * intros _. rewrite lookup_delete_eq. split; [done|]. intros Hhdr.
        unfold jwt.retrieveToken, jwt.values_Get. simpl.
        rewrite Hhdr, Hurl. simpl. unfold jwt.authQueryParamName.
        by rewrite lookup_delete_eq.
      * intros Hhdr. unfold jwt.retrieveToken. simpl.
        by rewrite !bool_decide_eq_false_2.
    + split_and!; [done..| |done]. intros _.
      assert (jwt.Query req !! jwt.authQueryParamName = None) as Hnone.
      { destruct (jwt.Query req !! jwt.authQueryParamName) eqn:Heq; [|done].
        destruct Hhas. by eexists. }
      split; [done|]. intros Hhdr. unfold jwt.retrieveToken, jwt.values_Get.
      rewrite Hhdr, Hurl. simpl. unfold jwt.authQueryParamName in Hnone.
      by rewrite Hnone.
  - by split_and!.
Qed.

(** A login link [?auth_token=...&kiosk] keeps [kiosk] and loses the token. *)
Lemma stripSensitiveParam_removes_token_witness :
  let cfg := jwt.mkCfg true "X-JWT-Assertion" true in
  let req := jwt.mkHTTPRequest (λ _, "")
               {[ "auth_token" := ["eyJhbGciOi"]; "kiosk" := [""] ]} in
  jwt.retrieveToken cfg req = "eyJhbGciOi"
  ∧ jwt.retrieveToken cfg (jwt.stripSensitiveParam cfg req) = "".
Proof.
  split; [vm_compute; reflexivity|].
  apply (stripSensitiveParam_removes_token
           (jwt.mkCfg true "X-JWT-Assertion" true)
           (jwt.mkHTTPRequest (λ _, "")
              {[ "auth_token" := ["eyJhbGciOi"]; "kiosk" := [""] ]}));
    reflexivity.
Defined.

(** [Test] accepts a request only with the client enabled, a header
    name configured and a non-empty token with a [sub] claim.  Once
    [stripSensitiveParam] has run on a request, only a token in the
    header is accepted: a request that carried its token in the URL does
    not pass [Test] again. *)
Theorem Test_accepts (HasSubClaim : string → bool) (cfg : jwt.Cfg)
    (req : jwt.HTTPRequest) :
  (jwt.Test HasSubClaim cfg req = true →
     jwt.Enabled cfg = true ∧ jwt.HeaderName cfg ≠ ""
     ∧ jwt.retrieveToken cfg req ≠ ""
     ∧ HasSubClaim (jwt.retrieveToken cfg req) = true
     ∧ (jwt.URLLogin cfg = false → jwt.HeaderGet req (jwt.HeaderName cfg) ≠ ""))
  ∧ (jwt.Test HasSubClaim cfg (jwt.stripSensitiveParam cfg req) = true →
       jwt.HeaderGet req (jwt.HeaderName cfg) ≠ "").
Proof.
  assert (∀ req0, jwt.Test HasSubClaim cfg req0 = true →
            jwt.Enabled cfg = true ∧ jwt.HeaderName cfg ≠ ""
            ∧ jwt.retrieveToken cfg req0 ≠ ""
            ∧ HasSubClaim (jwt.retrieveToken cfg req0) = true) as Htest.
  { intros req0. unfold jwt.Test.
    destruct (jwt.Enabled cfg); simpl; [|done].
    case_bool_decide; [done|]. case_bool_decide; [done|].
    by destruct (HasSubClaim _). }
  assert (∀ req0, jwt.retrieveToken cfg req0 ≠ "" →
            jwt.HeaderGet req0 (jwt.HeaderName cfg) = "" →
            jwt.URLLogin cfg = true
            ∧ is_Some (jwt.Query req0 !! jwt.authQueryParamName)) as Hquery.
  { intros req0 Htoken Hhdr. unfold jwt.retrieveToken, jwt.values_Get in Htoken.
    rewrite Hhdr in Htoken. simpl in Htoken.
    destruct (jwt.URLLogin cfg); simpl in Htoken; [|done]. split; [done|].
    unfold jwt.authQueryParamName.
    destruct (jwt.Query req0 !! "auth_token"); [by eexists|done]. }
  split.
  - intros (? & ? & Htoken & ?)%Htest. split_and!; try done.
    intros Hurl Hhdr. destruct (Hquery req Htoken Hhdr). congruence.
  - intros (_ & _ & Htoken & _)%Htest Hhdr.
    destruct (Hquery _ Htoken) as [Hurl [v Hv]].
    { unfold jwt.stripSensitiveParam. destruct (jwt.URLLogin cfg); [|done].
      by destruct (jwt.values_Has _ _). }
    unfold jwt.stripSensitiveParam, jwt.values_Has in Hv. rewrite Hurl in Hv.
    case_bool_decide as Hhas; simpl in Hv.
    + by rewrite lookup_delete_eq in Hv.
    + destruct Hhas. by eexists.
Qed.

(** A token in the header passes before and after stripping. *)
Lemma Test_accepts_witness :
  let cfg := jwt.mkCfg true "X-JWT-Assertion" true in
  let req := jwt.mkHTTPRequest (λ _, "Bearer eyJhbGciOi") ∅ in
  jwt.HeaderGet req (jwt.HeaderName cfg) ≠ "".
Proof.
  apply (proj2 (Test_accepts (λ _, true) (jwt.mkCfg true "X-JWT-Assertion" true)
                  (jwt.mkHTTPRequest (λ _, "Bearer eyJhbGciOi") ∅))).
  vm_compute. reflexivity.
Defined.

(** The single-role extraction grants the server-admin flag exactly for
    the role claim [GrafanaAdmin], found without error under a
    configured path, and then returns the role Admin: it never returns
    [GrafanaAdmin] as a role, and it returns the empty role whenever the
    search fails or no path is configured. *)
Theorem extractRoleAndAdmin_admin {Claims : Type}
    (Search : string → Claims → string * option error)
    (path : string) (claims : Claims) :
  let out := jwt.extractRoleAndAdmin Search path claims in
  (out.2 = true ↔ path ≠ "" ∧ Search path claims = (jwt.roleGrafanaAdmin, None))
  ∧ (out.2 = true → out.1 = RoleAdmin)
  ∧ out.1 ≠ jwt.roleGrafanaAdmin
  ∧ (path = "" ∨ is_Some (Search path claims).2 → out = ("", false)).
Proof.
  simpl. unfold jwt.extractRoleAndAdmin.
  case_bool_decide as Hpath.
  { split_and!; [|done..]. split; [done|]. by intros [? _]. }
  destruct (Search path claims) as [role err]. simpl.
  destruct err as [e|]; simpl.
  { split_and!; [|done..]. split; [done|]. by intros [_ [=]]. }
  case_bool_decide as Hrole; simpl.
  { subst role. split_and!; [|done|done|]; [|by intros [?|[? [=]]]].
    split; [done|]. by intros [_ [=]]. }
  case_bool_decide as Hadmin; simpl.
  - subst role. split_and!; [done|done|done|]. by intros [?|[? [=]]].
  - split_and!; [|done|done|by intros [?|[? [=]]]].
    split; [done|]. intros [_ [= ?]]. done.
Qed.

(** ** Role extraction, further *)

Section extraction.
Import clients.
Context {Claims : Type}.
Variable Search : string → Claims → list string * option error.
Variable MustCompile : string → option Regexp.

(** Role extraction never grants the server-admin flag, and without a
    role attribute path, after a failed search or with no role string
    found it returns the empty mapping: the search error is dropped and
    no pattern is compiled, so not even a bad pattern can panic. *)
Theorem extractRolesAndAdmin_no_admin_no_roles (cfg : setting.AuthJWTSettings)
    (order : nat → list (string * string)) (claims : Claims) :
  (∀ m admin,
     extractRolesAndAdmin Search MustCompile cfg order claims = Returned (m, admin) →
     admin = false)
  ∧ (setting.RoleAttributePath cfg = ""
     ∨ (Search (setting.RoleAttributePath cfg) claims).2 ≠ None
     ∨ (Search (setting.RoleAttributePath cfg) claims).1 = [] →
     extractRolesAndAdmin Search MustCompile cfg order claims = Returned (∅, false)).
Proof.
  unfold extractRolesAndAdmin. split.
  - intros m admin. case_bool_decide; [by intros [= _ <-]|].
    destruct (Search _ claims) as [roles err].
    destruct (bool_decide (is_Some err) || bool_decide (length roles = 0%nat));
      [by intros [= _ <-]|].
    case_bool_decide; [|by intros [= _ <-]].
    destruct (regex_roles _ _ _ _ _); [by intros [= _ <-]|done].
  - intros Hnone. case_bool_decide as Hpath; [done|].
    destruct (Search _ claims) as [roles err]. simpl in Hnone.
    destruct Hnone as [?|[Herr| ->]]; [done| |].
    + rewrite (bool_decide_eq_true_2 (is_Some err)); [done|].
      destruct err; [by eexists|done].
    + by rewrite orb_true_r.
Qed.

End extraction.

Lemma extractRolesAndAdmin_no_admin_no_roles_witness :
  clients.extractRolesAndAdmin (λ _ (_ : unit), ([], Some (ErrOther "no such attribute")))
    (λ _, None) scenario.regex_cfg scenario.admin_first ()
  = Returned (∅, false).
Proof.
  apply (extractRolesAndAdmin_no_admin_no_roles _ _ scenario.regex_cfg
           scenario.admin_first ()).
  right. left. discriminate.
Defined.

Section regex_extraction.
Import clients.
Context {Claims : Type}.
Variable Search : string → Claims → list string * option error.
Variable MustCompile : string → option Regexp.

Lemma assign_groups_keeps (names : list string) (i : nat) (match_ : list string)
    (role : string) (res res' : gmap string string) (org r : string) :
  res !! org = Some r → r ≠ "" →
  assign_groups names i match_ role res = Returned res' →
  res' !! org = Some r.
Proof.
  intros Hr Hne. revert i res Hr.
  induction names as [|name names IH]; intros i res Hr; simpl.
  - by intros [= <-].
  - destruct (bool_decide (i ≠ 0%nat) && bool_decide (name = "org")); [|by apply IH].
    destruct (match_ !! i) as [org'|]; [|done].
    case_bool_decide as Hempty; [|by apply IH].
    apply IH. rewrite lookup_insert_ne; [done|].
    intros ->. unfold map_index in Hempty. by rewrite Hr in Hempty.
Qed.

Lemma match_patterns_keeps (patterns : list (string * string)) (jwtRole : string)
    (res res' : gmap string string) (org r : string) :
  res !! org = Some r → r ≠ "" →
  match_patterns MustCompile patterns jwtRole res = Returned res' →
  res' !! org = Some r.
Proof.
  intros Hr Hne. revert res Hr.
  induction patterns as [|[p role] patterns IH]; intros res Hr; simpl.
  - by intros [= <-].
  - destruct (MustCompile p) as [re|]; [|done].
    case_bool_decide; [|by apply IH].
    destruct (assign_groups _ _ _ _ _) as [res1|] eqn:Hassign; [|done].
    apply IH. by eapply assign_groups_keeps.
Qed.

Lemma regex_roles_keeps (order : nat → list (string * string)) (n : nat)
    (roles : list string) (res res' : gmap string string) (org r : string) :
  res !! org = Some r → r ≠ "" →
  regex_roles MustCompile order n roles res = Returned res' →
  res' !! org = Some r.
Proof.
  intros Hr Hne. revert n res Hr.
  induction roles as [|jwtRole roles IH]; intros n res Hr; simpl.
  - by intros [= <-].
  - destruct (match_patterns _ _ _ _) as [res1|] eqn:Hmatch; [|done].
    apply IH. by eapply match_patterns_keeps.
Qed.

Lemma regex_roles_app (order : nat → list (string * string)) (n : nat)
    (roles1 roles2 : list string) (res : gmap string string) :
  regex_roles MustCompile order n (roles1 ++ roles2) res
  = match regex_roles MustCompile order n roles1 res with
    | Returned res1 =>
        regex_roles MustCompile order (n + length roles1) roles2 res1
    | Panicked => Panicked
    end.
Proof.
  revert n res. induction roles1 as [|jwtRole roles1 IH]; intros n res; simpl.
  - by rewrite Nat.add_0_r.
  - destruct (match_patterns _ _ _ _) as [res1|]; [|done].
    rewrite IH. by rewrite Nat.add_succ_r.
Qed.

(** In regex mode the first resolution of an organisation stands: a
    non-empty role that the role strings seen so far gave an organisation
    is still its role after any further role strings are processed,
    whatever patterns those match. *)
Theorem regex_first_resolution_stands (cfg : setting.AuthJWTSettings)
    (order : nat → list (string * string)) (seen further : Claims)
    (roles more : list string) (m m' : gmap string string) (admin admin' : bool)
    (org r : string) :
  Search (setting.RoleAttributePath cfg) seen = (roles, None) →
  Search (setting.RoleAttributePath cfg) further = (roles ++ more, None) →
  (0 < size (setting.RegexOrgRoleMapper cfg))%nat →
  extractRolesAndAdmin Search MustCompile cfg order seen = Returned (m, admin) →
  extractRolesAndAdmin Search MustCompile cfg order further = Returned (m', admin') →
  m !! org = Some r → r ≠ "" →
  m' !! org = Some r.
Proof.
  unfold extractRolesAndAdmin. intros -> -> Hsize.
  case_bool_decide; [by intros [= <- _]|]. simpl.
  rewrite (bool_decide_eq_true_2 _ Hsize).
  destruct roles as [|jwtRole roles]; [by intros [= <- _]|].
  change (bool_decide (length (jwtRole :: roles) = 0%nat)) with false.
  change (bool_decide (length ((jwtRole :: roles) ++ more) = 0%nat)) with false.
  rewrite regex_roles_app.
  destruct (regex_roles _ _ _ (jwtRole :: roles) ∅) as [res|]; [|done].
  intros [= <- _].
  destruct (regex_roles _ _ _ more res) as [res'|] eqn:Hmore; [|done].
  intros [= <- _] Hr Hne. by eapply regex_roles_keeps.
Qed.

Section justified.
Variable order : nat → list (string * string).
Variable roles : list string.

Local Abbreviation configured := (extractfacts.configured order).
Local Abbreviation all_matched := (extractfacts.all_matched MustCompile order roles).

Lemma assign_groups_matched (pattern role jwtRole : string) (re : Regexp)
    (names : list string) (i : nat) (res res' : gmap string string) :
  configured pattern role → jwtRole ∈ roles → MustCompile pattern = Some re →
  (∀ j name, names !! j = Some name → SubexpNames re !! (i + j)%nat = Some name) →
  all_matched res →
  assign_groups names i (FindStringSubmatch re jwtRole) role res = Returned res' →
  all_matched res'.
Proof.
  intros Hcfg Hin Hre. revert i res.
  induction names as [|name names IH]; intros i res Hnames Hres; simpl.
  - by intros [= <-].
  - assert (∀ j name', names !! j = Some name' →
                       SubexpNames re !! (S i + j)%nat = Some name') as Hrest.
    { intros j name' Hj. specialize (Hnames (S j) name' Hj).
      by rewrite Nat.add_succ_r in Hnames. }
    destruct (bool_decide (i ≠ 0%nat) && bool_decide (name = "org")) eqn:Hcond;
      [|by apply IH].
    apply andb_prop in Hcond as [Hi%bool_decide_eq_true_1 ->%bool_decide_eq_true_1].
    destruct (FindStringSubmatch re jwtRole !! i) as [org'|] eqn:Hgroup; [|done].
    case_bool_decide; [|by apply IH].
    apply IH; [done|].
    intros org r. destruct (decide (org' = org)) as [->|Hne].
    + rewrite lookup_insert_eq. intros [= <-].
      exists pattern, re, jwtRole, i. repeat split; try done.
      specialize (Hnames 0%nat "org" eq_refl). by rewrite Nat.add_0_r in Hnames.
    + rewrite lookup_insert_ne by done. apply Hres.
Qed.

Lemma match_patterns_matched (patterns : list (string * string))
    (jwtRole : string) (res res' : gmap string string) :
  (∀ p r, (p, r) ∈ patterns → configured p r) → jwtRole ∈ roles →
  all_matched res →
  match_patterns MustCompile patterns jwtRole res = Returned res' →
  all_matched res'.
Proof.
  intros Hcfg Hin. revert res.
  induction patterns as [|[p role] patterns IH]; intros res Hres; simpl.
  - by intros [= <-].
  - assert (∀ p' r, (p', r) ∈ patterns → configured p' r) as Hrest.
    { intros p' r ?. apply Hcfg. by right. }
    destruct (MustCompile p) as [re|] eqn:Hre; [|done].
    case_bool_decide; [|by apply IH].
    destruct (assign_groups _ _ _ _ _) as [res1|] eqn:Hassign; [|done].
    apply IH; [done|].
    eapply (assign_groups_matched p role jwtRole re); [|done..| |done|done].
    + apply Hcfg. by left.
    + by intros j name ?.
Qed.

Lemma regex_roles_matched (n : nat) (rest : list string)
    (res res' : gmap string string) :
  rest ⊆ roles → all_matched res →
  regex_roles MustCompile order n rest res = Returned res' →
  all_matched res'.
Proof.
  revert n res. induction rest as [|jwtRole rest IH]; intros n res Hsub Hres; simpl.
  - by intros [= <-].
  - destruct (match_patterns _ _ _ _) as [res1|] eqn:Hmatch; [|done].
    apply IH; [set_solver|].
    eapply match_patterns_matched; [|by apply Hsub; left|done|done].
    intros p r ?. by exists n.
Qed.

Lemma match_patterns_bad_pattern (patterns : list (string * string))
    (jwtRole p r : string) (res : gmap string string) :
  (p, r) ∈ patterns → MustCompile p = None →
  match_patterns MustCompile patterns jwtRole res = Panicked.
Proof.
  intros Hin Hbad. revert res.
  induction patterns as [|[p' r'] patterns IH]; intros res; simpl.
  - by apply elem_of_nil in Hin.
  - apply elem_of_cons in Hin as [[= <- <-]|Hin]; [by rewrite Hbad|].
    destruct (MustCompile p'); [|done].
    case_bool_decide; [|by apply IH].
    destruct (assign_groups _ _ _ _ _); [by apply IH|done].
Qed.
End justified.

(** Every assignment of regex mode is backed by the configuration and
    the token: if organisation [org] gets role [r], then [r] is the
    value of a configured pattern that compiles and matches one of the
    role strings found in the claims, and [org] is the text captured
    there by a group named [org] (never group 0, the whole match). *)
Theorem regex_roles_are_matched (cfg : setting.AuthJWTSettings)
    (order : nat → list (string * string)) (claims : Claims)
    (m : gmap string string) (admin : bool) (org r : string) :
  range_orders (setting.RegexOrgRoleMapper cfg) order →
  (0 < size (setting.RegexOrgRoleMapper cfg))%nat →
  extractRolesAndAdmin Search MustCompile cfg order claims = Returned (m, admin) →
  m !! org = Some r →
  extractfacts.matched MustCompile
    (λ pattern r, setting.RegexOrgRoleMapper cfg !! pattern = Some r)
    (Search (setting.RoleAttributePath cfg) claims).1 org r.
Proof.
  unfold extractRolesAndAdmin. intros Horder Hsize.
  case_bool_decide; [by intros [= <- _]|].
  destruct (Search _ claims) as [roles err]. simpl.
  destruct (bool_decide (is_Some err) || bool_decide (length roles = 0%nat));
    [by intros [= <- _]|].
  rewrite (bool_decide_eq_true_2 _ Hsize).
  destruct (regex_roles _ _ _ _ _) as [res|] eqn:Hres; [|done].
  intros [= <- _] Hr.
  assert (extractfacts.all_matched MustCompile order roles res) as Hall.
  { apply (regex_roles_matched order roles 0 roles ∅ res); [done| |done].
    by intros ?? ?. }
  destruct (Hall org r Hr) as (pattern & re & jwtRole & i & [n Hcfg] & ?).
  exists pattern, re, jwtRole, i. split; [|done].
  apply elem_of_map_to_list. by rewrite <-(Horder n).
Qed.

(** [regexp.MustCompile] runs inside the loops, on every configured
    pattern for every role string: with at least one role string in the
    claims, a single configured pattern that does not compile makes the
    extraction panic, whatever the order of the map and whether or not
    any other pattern matches. *)
Theorem regex_bad_pattern_panics (cfg : setting.AuthJWTSettings)
    (order : nat → list (string * string)) (claims : Claims)
    (roles : list string) (pattern r : string) :
  range_orders (setting.RegexOrgRoleMapper cfg) order →
  setting.RoleAttributePath cfg ≠ "" →
  Search (setting.RoleAttributePath cfg) claims = (roles, None) →
  roles ≠ [] →
  setting.RegexOrgRoleMapper cfg !! pattern = Some r →
  MustCompile pattern = None →
  extractRolesAndAdmin Search MustCompile cfg order claims = Panicked.
Proof.
  unfold extractRolesAndAdmin. intros Horder Hpath -> Hroles Hcfg Hbad.
  rewrite (bool_decide_eq_false_2 _ Hpath). simpl.
  destruct roles as [|jwtRole roles]; [done|].
  change (bool_decide (length (jwtRole :: roles) = 0%nat)) with false.
  rewrite bool_decide_eq_true_2.
  - simpl. rewrite (match_patterns_bad_pattern _ _ pattern r); [done| |done].
    rewrite (Horder 0%nat). by apply elem_of_map_to_list.
  - assert (size (setting.RegexOrgRoleMapper cfg) ≠ 0%nat); [|lia].
    intros Hzero%map_size_empty_inv. by rewrite Hzero in Hcfg.
Qed.
End regex_extraction.

Lemma range_orders_admin_first :
  clients.range_orders scenario.role_mapper scenario.admin_first.
Proof.
  intros n. unfold scenario.admin_first. vm_compute map_to_list.
  first [reflexivity | apply perm_swap].
Qed.

Lemma range_orders_admin_last :
  clients.range_orders scenario.role_mapper scenario.admin_last.
Proof.
  intros n. unfold scenario.admin_last. vm_compute map_to_list.
  first [reflexivity | apply perm_swap].
Qed.

(** [teamA:admin] makes teamA an Editor; a later [teamA:dev], which only
    the catch-all Viewer rule matches, does not change that. *)
Lemma regex_first_resolution_stands_witness :
  ∃ m', clients.extractRolesAndAdmin scenario.claimed_roles
          (regexp.MustCompile scenario.known_patterns) scenario.regex_cfg
          scenario.admin_first ["teamA:admin"; "teamA:dev"] = Returned (m', false)
        ∧ m' !! "teamA" = Some "Editor".
Proof.
  eexists. split; [vm_compute; reflexivity|].
  apply (regex_first_resolution_stands scenario.claimed_roles
           (regexp.MustCompile scenario.known_patterns) scenario.regex_cfg
           scenario.admin_first ["teamA:admin"] ["teamA:admin"; "teamA:dev"]
           ["teamA:admin"] ["teamA:dev"] {[ "teamA" := "Editor" ]} _ false false).
  - reflexivity.
  - reflexivity.
  - vm_compute. lia.
  - vm_compute. reflexivity.
  - vm_compute. reflexivity.
  - vm_compute. reflexivity.
  - discriminate.
Defined.

Lemma regex_roles_are_matched_witness :
  extractfacts.matched (regexp.MustCompile scenario.known_patterns)
    (λ pattern r, scenario.role_mapper !! pattern = Some r)
    ["teamA:admin"] "teamA" "Editor".
Proof.
  apply (regex_roles_are_matched scenario.claimed_roles
           (regexp.MustCompile scenario.known_patterns) scenario.regex_cfg
           scenario.admin_first ["teamA:admin"] {[ "teamA" := "Editor" ]} false).
  - exact range_orders_admin_first.
  - vm_compute. lia.
  - vm_compute. reflexivity.
  - vm_compute. reflexivity.
Defined.

(** Only the catch-all pattern compiles: it is visited first and
    matches, and the extraction still panics on the admin pattern. *)
Lemma regex_bad_pattern_panics_witness :
  clients.extractRolesAndAdmin scenario.claimed_roles
    (regexp.MustCompile (drop 1 scenario.known_patterns)) scenario.regex_cfg
    scenario.admin_last ["teamA:dev"] = Panicked.
Proof.
  apply (regex_bad_pattern_panics scenario.claimed_roles
           (regexp.MustCompile (drop 1 scenario.known_patterns))
           scenario.regex_cfg scenario.admin_last ["teamA:dev"] ["teamA:dev"]
           scenario.admin_pattern "Editor").
  - exact range_orders_admin_last.
  - discriminate.
  - reflexivity.
  - discriminate.
  - vm_compute. reflexivity.
  - vm_compute. reflexivity.
Defined.

(** ** Role sync: the reason of every call *)

Section sync_justified.
Import sync syncfacts.
Context (id : Identity) (order : list (string * string)) (userID : Z).

Local Abbreviation roles := (OrgRoles id).
Local Abbreviation reasons past := (justified_from roles order userID past).

Lemma each_with_past_nil (φ : list event → event → Prop) : each_with_past φ [].
Proof. intros pre ev post Heq. by destruct pre. Qed.

Lemma each_with_past_cons (φ : list event → event → Prop) ev tr :
  φ [] ev → each_with_past (λ pre, φ (ev :: pre)) tr → each_with_past φ (ev :: tr).
Proof.
  intros H0 Hrest pre ev' post Heq.
  destruct pre as [|x pre]; simplify_eq/=; [done|]. by eapply Hrest.
Qed.

Lemma justified_from_nil {A} past (o : outcome A) : reasons past [] o.
Proof. apply each_with_past_nil. Qed.

Lemma justified_from_step {A} past ev (p : Prog A) :
  justified roles order userID past ev →
  all_runs (reasons (past ++ [ev])) p →
  all_runs (λ tr, reasons past (ev :: tr)) p.
Proof.
  intros Hev Hp. eapply all_runs_mono; [|exact Hp]. intros tr o Htr.
  apply each_with_past_cons; [by rewrite app_nil_r|].
  intros pre ev' post Heq. specialize (Htr pre ev' post Heq). simpl in Htr.
  by rewrite <-app_assoc in Htr.
Qed.

Lemma fetched_app l past more :
  fetched userID l past → fetched userID l (past ++ more).
Proof. unfold fetched. by destruct past. Qed.

Lemma unasserted_app past more x :
  unasserted roles userID past x → unasserted roles userID (past ++ more) x.
Proof.
  intros (l & dto & org & e & ? & ? & ? & ? & ?). exists l, dto, org, e.
  split_and!; [by apply fetched_app|done|done| |done].
  apply elem_of_app. by left.
Qed.

Lemma update_existing_justified {A} l result past handled deletes
    (f : flow (gmap Z bool * list Z) → Prog A) :
  (∀ e past', all_runs (reasons past') (f (Return e))) →
  (∀ past' handled' deletes',
     fetched userID l past' →
     (∀ dto, dto ∈ l → is_Some (handled' !! dto_OrgID dto)) →
     Forall (unasserted roles userID past') deletes' →
     all_runs (reasons past') (f (Next (handled', deletes')))) →
  fetched userID l past →
  result ⊆ l →
  (∀ dto, dto ∈ l → dto ∈ result ∨ is_Some (handled !! dto_OrgID dto)) →
  Forall (unasserted roles userID past) deletes →
  all_runs (reasons past) (bind (update_existing roles userID result handled deletes) f).
Proof.
  intros Hret Hnext. revert past handled deletes.
  induction result as [|orga rest IH]; intros past handled deletes Hfetch Hsub Hcov Hdel;
    simpl.
  { apply Hnext; [done| |done]. intros dto Hin.
    by destruct (Hcov dto Hin) as [?%elem_of_nil|?]. }
  assert (rest ⊆ l) as Hrest by set_solver.
  assert (∀ dto, dto ∈ l →
            dto ∈ rest ∨ is_Some (<[dto_OrgID orga := true]> handled !! dto_OrgID dto))
    as Hcov'.
  { intros dto Hin. rewrite lookup_insert_is_Some.
    destruct (Hcov dto Hin) as [[->|?]%elem_of_cons|?]; [by right; left|by left|].
    right. destruct (decide (dto_OrgID orga = dto_OrgID dto)); [by left|by right]. }
  intros [orgb e]. apply justified_from_step.
  { exists l, orga. split_and!; [done| |done]. apply Hsub. by left. }
  destruct orgb as [orgb|]; simpl; [|apply justified_from_nil].
  assert (∀ more, Forall (unasserted roles userID (past ++ more)) deletes) as Hdel'.
  { intros more. eapply Forall_impl; [exact Hdel|]. intros x. apply unasserted_app. }
  case_bool_decide as Hext.
  - apply IH; [by apply fetched_app|done|done|].
    apply Forall_app. split; [done|]. constructor; [|done].
    exists l, orga, orgb, e. split_and!; [by apply fetched_app| |done| |done].
    + apply Hsub. by left.
    + apply elem_of_app. right. by left.
  - case_bool_decide as Hneq.
    + intros err. apply justified_from_step.
      { split; [done|]. exists l, orga, orgb, e.
        split_and!; [by apply fetched_app| |done|by rewrite last_snoc|done..].
        apply Hsub. by left. }
      destruct err as [e'|]; simpl; [apply Hret|].
      apply IH; [by do 2 apply fetched_app|done|done|].
      rewrite <-app_assoc. apply Hdel'.
    + apply IH; [by apply fetched_app|done|done|done].
Qed.

Lemma add_new_justified {A} l deletes entries past handled orgIDs
    (f : flow (list Z) → Prog A) :
  (∀ e past', all_runs (reasons past') (f (Return e))) →
  (∀ past' orgIDs',
     fetched userID l past' → Forall (unasserted roles userID past') deletes →
     all_runs (reasons past') (f (Next orgIDs'))) →
  (∀ dto, dto ∈ l → is_Some (handled !! dto_OrgID dto)) →
  entries ⊆ order →
  fetched userID l past →
  Forall (unasserted roles userID past) deletes →
  all_runs (reasons past) (bind (add_new userID handled entries orgIDs) f).
Proof.
  intros Hret Hnext Hcov. revert past orgIDs.
  induction entries as [|[orgName orgRole] rest IH]; intros past orgIDs Hsub Hfetch Hdel;
    simpl.
  { by apply Hnext. }
  assert (rest ⊆ order) as Hrest by set_solver.
  assert (∀ more, Forall (unasserted roles userID (past ++ more)) deletes) as Hdel'.
  { intros more. eapply Forall_impl; [exact Hdel|]. intros x. apply unasserted_app. }
  intros [orga e]. apply justified_from_step.
  { exists orgRole. apply Hsub. by left. }
  destruct orga as [orga|], e as [e|]; simpl;
    try (apply IH; [done|by apply fetched_app|done]).
  case_bool_decide as Hhandled; [apply IH; [done|by apply fetched_app|done]|].
  intros err. apply justified_from_step.
  { split; [done|]. exists orgName, orga, l.
    split_and!; [by rewrite last_snoc| |done|by apply fetched_app|].
    - apply Hsub. by left.
    - intros (dto & Hid & Hin)%list_elem_of_fmap. apply Hhandled.
      rewrite Hid. by apply Hcov. }
  assert (all_runs
            (reasons ((past ++ [EvGetByName orgName (Some orga, None)])
                      ++ [EvAddOrgUser (mkAddOrgUser userID orgRole (Org_ID orga)) err]))
            (bind (add_new userID handled rest (orgIDs ++ [Org_ID orga])) f)) as Hgo.
  { apply IH; [done|by do 2 apply fetched_app|]. rewrite <-app_assoc. apply Hdel'. }
  destruct err as [e'|]; simpl; [|done].
  destruct (errors_Is e' ErrOrgNotFound); simpl; [done|apply Hret].
Qed.

Lemma remove_stale_justified {A} deletes past (f : flow unit → Prog A) :
  (∀ e past', all_runs (reasons past') (f (Return e))) →
  (∀ past' s, all_runs (reasons past') (f (Next s))) →
  Forall (unasserted roles userID past) deletes →
  all_runs (reasons past) (bind (remove_stale userID deletes) f).
Proof.
  intros Hret Hnext. revert past.
  induction deletes as [|orgID rest IH]; intros past Hdel; simpl.
  { apply Hnext. }
  apply Forall_cons in Hdel as [Hfirst Hdel].
  assert (∀ more, Forall (unasserted roles userID (past ++ more)) rest) as Hdel'.
  { intros more. eapply Forall_impl; [exact Hdel|]. intros x. apply unasserted_app. }
  intros err. apply justified_from_step; [by split|].
  destruct err as [e|]; simpl.
  - destruct (errors_Is e ErrLastOrgAdmin); simpl; [by apply IH|apply Hret].
  - intros r. apply justified_from_step; [by split; [|rewrite last_snoc]|].
    apply IH. rewrite <-app_assoc. apply Hdel'.
Qed.

Lemma update_default_org_justified past orgIDs :
  all_runs (reasons past) (update_default_org id userID orgIDs).
Proof.
  unfold update_default_org. case_bool_decide; [|apply justified_from_nil].
  destruct (merge_sort _ _); simpl; [apply justified_from_nil|].
  intros r pre ev post Heq.
  destruct pre as [|x pre]; simplify_eq/=; [done|]. by destruct pre.
Qed.

Lemma SyncOrgRolesHook_justified :
  ParseInt (ID id) = Some userID →
  all_runs (reasons []) (SyncOrgRolesHook order id).
Proof.
  intros Hparse. unfold SyncOrgRolesHook. rewrite Hparse.
  destruct (negb _); [apply justified_from_nil|].
  destruct (negb _); [apply justified_from_nil|].
  case_bool_decide; [apply justified_from_nil|]. simpl.
  intros [result err]. apply justified_from_step; [done|].
  destruct err as [e|]; simpl; [apply justified_from_nil|].
  unfold reconcile.
  apply (update_existing_justified result);
    [intros; apply justified_from_nil| |done|done|by left; done|done].
  intros past1 handled deletes Hfetch1 Hcov Hdel1.
  apply (add_new_justified result deletes);
    [intros; apply justified_from_nil| |done|done|done|done].
  intros past2 orgIDs Hfetch2 Hdel2.
  apply remove_stale_justified; [intros; apply justified_from_nil| |done].
  intros past3 []. apply update_default_org_justified.
Qed.
End sync_justified.

Section sync_calls.
Context {W : Type} (h : Services W) (order : list (string * string))
  (id : Identity) (userID : Z) (w : W).

Lemma sync_trace_justified :
  ParseInt (ID id) = Some userID →
  syncfacts.each_with_past (syncfacts.justified (OrgRoles id) order userID)
    (trace (exec h (sync.SyncOrgRolesHook order id) w)).
Proof.
  intros Hparse.
  exact (all_runs_exec h _ _ w (SyncOrgRolesHook_justified id order userID Hparse)).
Qed.

Lemma asserted_role (name role : string) :
  map_index (OrgRoles id) name = role → role ≠ "" →
  OrgRoles id !! name = Some role.
Proof.
  unfold map_index. destruct (OrgRoles id !! name); simpl; congruence.
Qed.

(** Whatever the services answer, every call of the hook that names a
    user names the authenticated one: the membership list fetched, every
    membership updated, added or removed, every deletion of permissions
    and the default-organisation update are that user's, and no device is
    tagged. *)
Theorem sync_calls_concern_user :
  ParseInt (ID id) = Some userID →
  Forall (syncfacts.about_user userID)
    (trace (exec h (sync.SyncOrgRolesHook order id) w)).
Proof.
  intros Hrun%sync_trace_justified. apply Forall_forall. intros ev Hin.
  apply list_elem_of_split in Hin as (pre & post & Heq).
  specialize (Hrun pre ev post Heq).
  destruct ev; simpl in *; try done; by destruct Hrun.
Qed.

(** The hook looks up by id only organisations of fetched memberships,
    and by name only organisations with an asserted role. *)
Theorem sync_lookups_in_scope :
  ParseInt (ID id) = Some userID →
  sync.range_order (OrgRoles id) order →
  let tr := trace (exec h (sync.SyncOrgRolesHook order id) w) in
  (∀ orgID r, EvGetByID orgID r ∈ tr →
     ∃ l dto, head tr = Some (EvGetUserOrgList userID (l, None))
              ∧ dto ∈ l ∧ dto_OrgID dto = orgID)
  ∧ (∀ name r, EvGetByName name r ∈ tr → is_Some (OrgRoles id !! name)).
Proof.
  intros Hrun%sync_trace_justified Horder. simpl. split.
  - intros orgID r (pre & post & Heq)%list_elem_of_split.
    destruct (Hrun pre _ post Heq) as (l & dto & Hfetch & Hin & Hid).
    exists l, dto. split_and!; [|done..].
    rewrite Heq. unfold syncfacts.fetched in Hfetch. by destruct pre.
  - intros name r (pre & post & Heq)%list_elem_of_split.
    destruct (Hrun pre _ post Heq) as [role Hin].
    exists role. apply elem_of_map_to_list. by rewrite <-Horder.
Qed.

(** A membership is updated only right after the organisation was
    looked up: the role written is the non-empty role asserted for the
    name found, and it differs from the role of a fetched membership in
    that organisation. *)
Theorem sync_updates_changed_roles :
  ParseInt (ID id) = Some userID →
  ∀ pre cmd r post,
    trace (exec h (sync.SyncOrgRolesHook order id) w)
      = pre ++ EvUpdateOrgUser cmd r :: post →
    ∃ l dto org e,
      head pre = Some (EvGetUserOrgList userID (l, None))
      ∧ dto ∈ l ∧ dto_OrgID dto = upd_OrgID cmd
      ∧ last pre = Some (EvGetByID (upd_OrgID cmd) (Some org, e))
      ∧ OrgRoles id !! Org_Name org = Some (upd_Role cmd)
      ∧ upd_Role cmd ≠ "" ∧ upd_Role cmd ≠ dto_Role dto.
Proof.
  intros Hrun%sync_trace_justified pre cmd r post Heq.
  destruct (Hrun pre _ post Heq)
    as (_ & l & dto & org & e & Hfetch & Hin & Hid & Hlast & Hrole & Hne & Hnew).
  exists l, dto, org, e. split_and!; try done. by apply asserted_role.
Qed.

(** A membership is added only right after a lookup by an asserted name
    found the organisation without error: the membership is for that
    organisation, with the role asserted for the name, and the user had
    no fetched membership in it. *)
Theorem sync_adds_missing_memberships :
  ParseInt (ID id) = Some userID →
  sync.range_order (OrgRoles id) order →
  ∀ pre cmd r post,
    trace (exec h (sync.SyncOrgRolesHook order id) w)
      = pre ++ EvAddOrgUser cmd r :: post →
    ∃ name org l,
      last pre = Some (EvGetByName name (Some org, None))
      ∧ OrgRoles id !! name = Some (add_Role cmd)
      ∧ add_OrgID cmd = Org_ID org
      ∧ head pre = Some (EvGetUserOrgList userID (l, None))
      ∧ Org_ID org ∉ (dto_OrgID <$> l).
Proof.
  intros Hrun%sync_trace_justified Horder pre cmd r post Heq.
  destruct (Hrun pre _ post Heq)
    as (_ & name & org & l & Hlast & Hin & Hid & Hfetch & Hnew).
  exists name, org, l. split_and!; try done.
  apply elem_of_map_to_list. by rewrite <-Horder.
Qed.

End sync_calls.

Lemma sync_calls_concern_user_witness :
  Forall (syncfacts.about_user 7)
    (trace (exec memstore.services
              (sync.SyncOrgRolesHook [("A", "Editor")] scenario.alice)
              scenario.two_orgs_viewer)).
Proof.
  apply (sync_calls_concern_user memstore.services [("A", "Editor")]
           scenario.alice 7 scenario.two_orgs_viewer).
  vm_compute. reflexivity.
Defined.

(** User 7, a viewer of A and B with the role Editor asserted for A:
    the lookup by name is for A. *)
Lemma sync_lookups_in_scope_witness :
  is_Some (OrgRoles scenario.alice !! "A").
Proof.
  apply (proj2 (sync_lookups_in_scope memstore.services [("A", "Editor")]
                  scenario.alice 7 scenario.two_orgs_viewer
                  ltac:(vm_compute; reflexivity)
                  ltac:(unfold sync.range_order; vm_compute map_to_list; reflexivity))
           "A" (Some (mkOrg 5 "A"), None)).
  vm_compute. set_solver.
Defined.

(** The user's role in A is raised from Viewer to Editor. *)
Lemma sync_updates_changed_roles_witness :
  ∃ l dto org e,
    head [EvGetUserOrgList 7 ([mkUserOrgDTO 5 "A" "Viewer"; mkUserOrgDTO 2 "B" "Viewer"], None);
          EvGetByID 5 (Some (mkOrg 5 "A"), None)]
      = Some (EvGetUserOrgList 7 (l, None))
    ∧ dto ∈ l ∧ dto_OrgID dto = 5%Z
    ∧ last [EvGetUserOrgList 7 ([mkUserOrgDTO 5 "A" "Viewer"; mkUserOrgDTO 2 "B" "Viewer"], None);
            EvGetByID 5 (Some (mkOrg 5 "A"), None)]
      = Some (EvGetByID 5 (Some org, e))
    ∧ OrgRoles scenario.alice !! Org_Name org = Some "Editor"
    ∧ "Editor" ≠ "" ∧ "Editor" ≠ dto_Role dto.
Proof.
  apply (sync_updates_changed_roles memstore.services [("A", "Editor")]
           scenario.alice 7 scenario.two_orgs_viewer
           ltac:(vm_compute; reflexivity)
           _ (mkUpdateOrgUser 5 7 "Editor") None
           [EvGetByID 2 (Some (mkOrg 2 "B"), None);
            EvGetByName "A" (Some (mkOrg 5 "A"), None);
            EvRemoveOrgUser (mkRemoveOrgUser 2 7) None;
            EvDeleteUserPermissions 2 7 None;
            EvUpdate (mkUpdateUser 7 (Some 5%Z)) None]).
  vm_compute. reflexivity.
Defined.

(** With no membership yet, the user is added to A as Editor. *)
Lemma sync_adds_missing_memberships_witness :
  ∃ name org l,
    last [EvGetUserOrgList 7 ([], None);
          EvGetByName "A" (Some (mkOrg 5 "A"), None)]
      = Some (EvGetByName name (Some org, None))
    ∧ OrgRoles scenario.alice !! name = Some "Editor"
    ∧ 5%Z = Org_ID org
    ∧ head [EvGetUserOrgList 7 ([], None);
            EvGetByName "A" (Some (mkOrg 5 "A"), None)]
      = Some (EvGetUserOrgList 7 (l, None))
    ∧ Org_ID org ∉ (dto_OrgID <$> l).
Proof.
  apply (sync_adds_missing_memberships memstore.services [("A", "Editor")]
           scenario.alice 7 scenario.no_memberships
           ltac:(vm_compute; reflexivity)
           ltac:(unfold sync.range_order; vm_compute map_to_list; reflexivity)
           _ (mkAddOrgUser 7 "Editor" 5) None
           [EvUpdate (mkUpdateUser 7 (Some 5%Z)) None]).
  vm_compute. reflexivity.
Defined.


(** ** Role sync: what the hook hands back *)

Section sync_outcome.
Import sync syncfacts.
Context (id : Identity) (order : list (string * string)).

Lemma set_OrgID_same (i : Identity) : set_OrgID i (OrgID i) = i.
Proof. by destruct i. Qed.

Lemma no_Update_step {A} ev (p : Prog A) :
  is_Update ev = false →
  all_runs no_Update p → all_runs (λ tr, no_Update (ev :: tr)) p.
Proof.
  intros Hev. apply all_runs_mono. intros tr o Htr. by constructor.
Qed.

Lemma update_existing_no_Update roles userID result handled deletes :
  all_runs no_Update (update_existing roles userID result handled deletes).
Proof.
  revert handled deletes.
  induction result as [|orga rest IH]; intros handled deletes; simpl; [constructor|].
  intros [[orgb|] e]; (apply no_Update_step; [done|]); simpl; [|constructor].
  repeat case_bool_decide; try apply IH.
  intros [e'|]; (apply no_Update_step; [done|]); simpl; [constructor|apply IH].
Qed.

Lemma add_new_no_Update userID handled entries orgIDs :
  all_runs no_Update (add_new userID handled entries orgIDs).
Proof.
  revert orgIDs.
  induction entries as [|[orgName orgRole] rest IH]; intros orgIDs; simpl; [constructor|].
  intros [[orga|] [e|]]; (apply no_Update_step; [done|]); simpl; try apply IH.
  case_bool_decide; [apply IH|].
  intros [e'|]; (apply no_Update_step; [done|]); simpl; [|apply IH].
  destruct (errors_Is e' ErrOrgNotFound); simpl; [apply IH|constructor].
Qed.

Lemma remove_stale_no_Update userID deletes :
  all_runs no_Update (remove_stale userID deletes).
Proof.
  induction deletes as [|orgID rest IH]; simpl; [constructor|].
  intros [e|]; (apply no_Update_step; [done|]); simpl.
  - destruct (errors_Is e ErrLastOrgAdmin); simpl; [apply IH|constructor].
  - intros r. by apply no_Update_step.
Qed.

Lemma identity_kept_bind {S} (m : Prog (flow S))
    (f : flow S → Prog (option error * Identity)) :
  all_runs no_Update m →
  (∀ e, f (Return e) = Ret (e, id)) →
  (∀ s, all_runs (identity_kept id) (f (Next s))) →
  all_runs (identity_kept id) (bind m f).
Proof.
  intros Hm Hret Hnext. apply all_runs_bind.
  eapply all_runs_mono; [|exact Hm]. intros tr [[e|s]|] Hquiet; simpl.
  - rewrite Hret. simpl. rewrite app_nil_r.
    split; [|done]. by rewrite set_OrgID_same.
  - eapply all_runs_mono; [|apply Hnext]. intros tr2 o [Hid Hquiet2].
    split; [done|]. intros Hactive. apply Forall_app. split; [done|by apply Hquiet2].
  - done.
Qed.

Lemma update_default_org_kept userID orgIDs :
  all_runs (identity_kept id) (update_default_org id userID orgIDs).
Proof.
  unfold update_default_org.
  assert (identity_kept id [] (Returned (None, id))) as Hsame.
  { split; [|done]. by rewrite set_OrgID_same. }
  case_bool_decide as Hactive; [|done].
  destruct (merge_sort _ _); simpl; [done|].
  intros r. split; [split; [done|]|]; intros [? Hsome]; congruence.
Qed.

Lemma SyncOrgRolesHook_kept :
  all_runs (identity_kept id) (SyncOrgRolesHook order id).
Proof.
  assert (identity_kept id [] (Returned (None, id))) as Hsame.
  { split; [|done]. by rewrite set_OrgID_same. }
  unfold SyncOrgRolesHook.
  destruct (negb _); [done|]. destruct (negb _); [done|].
  destruct (ParseInt _) as [userID|]; [|done].
  case_bool_decide; [done|]. simpl.
  assert (∀ ev (p : Prog (option error * Identity)),
            is_Update ev = false →
            all_runs (identity_kept id) p →
            all_runs (λ tr, identity_kept id (ev :: tr)) p) as Hstep.
  { intros ev p Hev. apply all_runs_mono. intros tr o [Hid Hquiet].
    split; [done|]. intros Hactive. constructor; [done|by apply Hquiet]. }
  intros [result [e|]]; apply Hstep; try done. simpl.
  unfold reconcile.
  apply identity_kept_bind; [apply update_existing_no_Update|done|].
  intros [handled deletes].
  apply identity_kept_bind; [apply add_new_no_Update|done|]. intros orgIDs.
  apply identity_kept_bind; [apply remove_stale_no_Update|done|]. intros [].
  apply update_default_org_kept.
Qed.

Lemma surfaced_step {A} (err_of : A → option error) ev (p : Prog A) :
  all_runs (surfaced err_of) p → all_runs (λ tr, surfaced err_of (ev :: tr)) p.
Proof.
  apply all_runs_mono. intros tr o Htr a e Ho He.
  destruct (Htr a e Ho He) as (pre & ev' & -> & Hev').
  by exists (ev :: pre), ev'.
Qed.

Lemma surfaced_last {A} (err_of : A → option error) ev (a : A) :
  (∀ e, err_of a = Some e → fatal ev = Some e ∨ ∃ cmd, ev = EvUpdate cmd (Some e)) →
  surfaced err_of [ev] (Returned a).
Proof. intros Hev a' e [= <-] He. exists [], ev. split; [done|by apply Hev]. Qed.

Lemma surfaced_none {A} (err_of : A → option error) tr (a : A) :
  err_of a = None → surfaced err_of tr (Returned a).
Proof. intros Hnone a' e [= <-] He. congruence. Qed.

Lemma update_existing_surfaced roles userID result handled deletes :
  all_runs (surfaced flow_error) (update_existing roles userID result handled deletes).
Proof.
  revert handled deletes.
  induction result as [|orga rest IH]; intros handled deletes; simpl;
    [by apply surfaced_none|].
  intros [[orgb|] e]; apply surfaced_step; simpl; [|done].
  repeat case_bool_decide; try apply IH.
  intros [e'|]; simpl; [|apply surfaced_step, IH].
  apply surfaced_last. intros e0 [= <-]. by left.
Qed.

Lemma add_new_surfaced userID handled entries orgIDs :
  all_runs (surfaced flow_error) (add_new userID handled entries orgIDs).
Proof.
  revert orgIDs.
  induction entries as [|[orgName orgRole] rest IH]; intros orgIDs; simpl;
    [by apply surfaced_none|].
  intros [[orga|] [e|]]; apply surfaced_step; simpl; try apply IH.
  case_bool_decide; [apply IH|].
  intros [e'|]; simpl; [|apply surfaced_step, IH].
  destruct (errors_Is e' ErrOrgNotFound) eqn:Hnf; simpl; [apply surfaced_step, IH|].
  apply surfaced_last. intros e0 [= <-]. left. simpl. by rewrite Hnf.
Qed.

Lemma remove_stale_surfaced userID deletes :
  all_runs (surfaced flow_error) (remove_stale userID deletes).
Proof.
  induction deletes as [|orgID rest IH]; simpl; [by apply surfaced_none|].
  intros [e|]; simpl.
  - destruct (errors_Is e ErrLastOrgAdmin) eqn:Hla; simpl; [apply surfaced_step, IH|].
    apply surfaced_last. intros e0 [= <-]. left. simpl. by rewrite Hla.
  - intros r. eapply all_runs_mono; [|apply IH]. intros tr o Htr a e0 Ho He.
    destruct (Htr a e0 Ho He) as (pre & ev & -> & Hev).
    by exists (EvRemoveOrgUser (mkRemoveOrgUser orgID userID) None
               :: EvDeleteUserPermissions orgID userID r :: pre), ev.
Qed.

Lemma surfaced_bind {S} (m : Prog (flow S))
    (f : flow S → Prog (option error * Identity)) :
  all_runs (surfaced flow_error) m →
  (∀ e, f (Return e) = Ret (e, id)) →
  (∀ s, all_runs (surfaced fst) (f (Next s))) →
  all_runs (surfaced fst) (bind m f).
Proof.
  intros Hm Hret Hnext. apply all_runs_bind.
  eapply all_runs_mono; [|exact Hm]. intros tr [[e|s]|] Hflow; simpl.
  - rewrite Hret. simpl. rewrite app_nil_r.
    intros a e' [= <-] He. simpl in He. by apply (Hflow (Return e) e').
  - eapply all_runs_mono; [|apply Hnext]. intros tr2 o Htr2 a e Ho He.
    destruct (Htr2 a e Ho He) as (pre & ev & -> & Hev).
    exists (tr ++ pre), ev. by rewrite <-app_assoc.
  - by intros a e [=].
Qed.

Lemma SyncOrgRolesHook_surfaced :
  all_runs (surfaced fst) (SyncOrgRolesHook order id).
Proof.
  unfold SyncOrgRolesHook.
  destruct (negb _); [by apply surfaced_none|].
  destruct (negb _); [by apply surfaced_none|].
  destruct (ParseInt _) as [userID|]; [|by apply surfaced_none].
  case_bool_decide; [by apply surfaced_none|]. simpl.
  intros [result [e|]]; simpl; [by apply surfaced_none|].
  apply surfaced_step. unfold reconcile.
  apply surfaced_bind; [apply update_existing_surfaced|done|].
  intros [handled deletes].
  apply surfaced_bind; [apply add_new_surfaced|done|]. intros orgIDs.
  apply surfaced_bind; [apply remove_stale_surfaced|done|]. intros [].
  unfold update_default_org. case_bool_decide; [|by apply surfaced_none].
  destruct (merge_sort _ _); simpl; [by apply surfaced_none|].
  intros r. apply surfaced_last. simpl. intros e ->. right. by eexists.
Qed.

Lemma cleaned_up_step {A} ev (p : Prog A) :
  (∀ cmd, ev ≠ EvRemoveOrgUser cmd None) →
  all_runs removals_cleaned_up p →
  all_runs (λ tr, removals_cleaned_up (ev :: tr)) p.
Proof.
  intros Hev. apply all_runs_mono. intros tr o Htr.
  apply each_event_cons; [|done].
  destruct ev as [| | | | |cmd [e|]| | |]; try done. by destruct (Hev cmd).
Qed.

Lemma cleaned_up_app {A B} tr1 tr2 (o1 : outcome A) (o2 : outcome B) :
  removals_cleaned_up tr1 o1 → removals_cleaned_up tr2 o2 →
  removals_cleaned_up (tr1 ++ tr2) o2.
Proof.
  revert o1. induction tr1 as [|ev tr1 IH]; intros o1 H1 H2; [done|].
  assert (removals_cleaned_up tr1 o1) as Hrest.
  { intros pre ev' post ->. by apply (H1 (ev :: pre) ev' post). }
  apply each_event_cons; [|by eapply IH].
  specialize (H1 [] ev tr1 eq_refl).
  destruct ev as [| | | | |cmd [e|]| | |]; try done.
  destruct H1 as (r & post' & ->). by exists r, (post' ++ tr2).
Qed.

Lemma update_existing_cleaned_up roles userID result handled deletes :
  all_runs removals_cleaned_up (update_existing roles userID result handled deletes).
Proof.
  revert handled deletes.
  induction result as [|orga rest IH]; intros handled deletes; simpl;
    [apply each_event_nil|].
  intros [[orgb|] e]; (apply cleaned_up_step; [done|]); simpl; [|apply each_event_nil].
  repeat case_bool_decide; try apply IH.
  intros [e'|]; (apply cleaned_up_step; [done|]); simpl; [apply each_event_nil|apply IH].
Qed.

Lemma add_new_cleaned_up userID handled entries orgIDs :
  all_runs removals_cleaned_up (add_new userID handled entries orgIDs).
Proof.
  revert orgIDs.
  induction entries as [|[orgName orgRole] rest IH]; intros orgIDs; simpl;
    [apply each_event_nil|].
  intros [[orga|] [e|]]; (apply cleaned_up_step; [done|]); simpl; try apply IH.
  case_bool_decide; [apply IH|].
  intros [e'|]; (apply cleaned_up_step; [done|]); simpl; [|apply IH].
  destruct (errors_Is e' ErrOrgNotFound); simpl; [apply IH|apply each_event_nil].
Qed.

Lemma remove_stale_cleaned_up userID deletes :
  all_runs removals_cleaned_up (remove_stale userID deletes).
Proof.
  induction deletes as [|orgID rest IH]; simpl; [apply each_event_nil|].
  intros [e|]; simpl.
  - apply cleaned_up_step; [done|].
    destruct (errors_Is e ErrLastOrgAdmin); simpl; [apply IH|apply each_event_nil].
  - intros r. eapply all_runs_mono; [|apply IH]. intros tr o Htr.
    apply each_event_cons; [by exists r, tr|].
    by apply each_event_cons.
Qed.

Lemma cleaned_up_bind {S} (m : Prog (flow S))
    (f : flow S → Prog (option error * Identity)) :
  all_runs removals_cleaned_up m →
  (∀ e, f (Return e) = Ret (e, id)) →
  (∀ s, all_runs removals_cleaned_up (f (Next s))) →
  all_runs removals_cleaned_up (bind m f).
Proof.
  intros Hm Hret Hnext. apply all_runs_bind.
  eapply all_runs_mono; [|exact Hm]. intros tr [[e|s]|] Htr; simpl.
  - rewrite Hret. simpl. rewrite app_nil_r.
    intros pre ev post Heq. by apply (Htr pre ev post).
  - eapply all_runs_mono; [|apply Hnext]. intros tr2 o Htr2.
    by eapply cleaned_up_app.
  - intros pre ev post Heq. by apply (Htr pre ev post).
Qed.

Lemma SyncOrgRolesHook_cleaned_up :
  all_runs removals_cleaned_up (SyncOrgRolesHook order id).
Proof.
  unfold SyncOrgRolesHook.
  destruct (negb _); [apply each_event_nil|].
  destruct (negb _); [apply each_event_nil|].
  destruct (ParseInt _) as [userID|]; [|apply each_event_nil].
  case_bool_decide; [apply each_event_nil|]. simpl.
  intros [result [e|]]; (apply cleaned_up_step; [done|]); simpl;
    [apply each_event_nil|].
  unfold reconcile.
  apply cleaned_up_bind; [apply update_existing_cleaned_up|done|].
  intros [handled deletes].
  apply cleaned_up_bind; [apply add_new_cleaned_up|done|]. intros orgIDs.
  apply cleaned_up_bind; [apply remove_stale_cleaned_up|done|]. intros [].
  unfold update_default_org. case_bool_decide; [|apply each_event_nil].
  destruct (merge_sort _ _); simpl; [apply each_event_nil|].
  intros r. apply each_event_cons; [done|apply each_event_nil].
Qed.
End sync_outcome.

Section sync_results.
Context {W : Type} (h : Services W) (order : list (string * string))
  (id : Identity) (w : W).

(** The hook gets past its guards exactly when role sync is on, the
    identity is a user with a numeric id and some role is asserted; its
    first call is then the fetch of that user's memberships.  In every
    other case it makes no call, leaves the world and the identity alone
    and returns nil. *)
Theorem sync_guards :
  let r := exec h (sync.SyncOrgRolesHook order id) w in
  (∃ userID, sync.syncs id userID
             ∧ head (trace r)
               = Some (EvGetUserOrgList userID (svc_GetUserOrgList h userID w).1))
  ∨ ((∀ userID, ¬ sync.syncs id userID) ∧ r = mkRun (Returned (None, id)) w []).
Proof.
  simpl. unfold sync.SyncOrgRolesHook, sync.syncs, IsNamespace.
  destruct (SyncOrgRoles (Params id)); simpl;
    [|right; split; [by intros ? (? & _)|done]].
  case_bool_decide as Hns; simpl;
    [|right; split; [by intros ? (_ & ? & _)|done]].
  destruct (ParseInt (ID id)) as [userID|];
    [|right; split; [by intros ? (_ & _ & ? & _)|done]].
  case_bool_decide as Hsize.
  - right. split; [|done]. intros ? (_ & _ & _ & Hroles).
    by apply map_size_empty_iff in Hsize.
  - left. exists userID. split; [|done]. split_and!; try done.
    intros Hempty. by rewrite Hempty in Hsize.
Qed.

(** The hook hands the identity back as it got it, up to [OrgID]: in
    particular the name of the active organisation and the role there
    ([GetOrgRole]) are as before, also after another organisation was
    made the active one.  With an active organisation among the asserted
    roles not even [OrgID] changes, and [userService.Update] is not
    called. *)
Theorem sync_identity_kept (e : option error) (id' : Identity) :
  let r := exec h (sync.SyncOrgRolesHook order id) w in
  result r = Returned (e, id') →
  id' = set_OrgID id (OrgID id')
  ∧ identity.GetOrgRole id' = identity.GetOrgRole id
  ∧ (is_Some (OrgRoles id !! OrgName id) →
       id' = id ∧ ∀ cmd res, EvUpdate cmd res ∉ trace r).
Proof.
  simpl. intros Hres.
  pose proof (all_runs_exec h _ _ w (SyncOrgRolesHook_kept id order)) as [Hid Hquiet].
  rewrite Hres in Hid. destruct Hid as [Hid Hsame].
  split_and!; [done|by rewrite Hid|].
  intros Hactive. split; [by apply Hsame|].
  intros cmd res Hin. specialize (Hquiet Hactive).
  rewrite Forall_forall in Hquiet. by specialize (Hquiet _ Hin).
Qed.

(** An error the hook returns is the answer of its last call, and that
    call is a membership update, an add that failed with something other
    than [ErrOrgNotFound], a removal that failed with something other
    than [ErrLastOrgAdmin], or the update of the default organisation:
    errors of the membership fetch, of the lookups and of the deletion
    of permissions never reach the caller. *)
Theorem sync_returned_error (e : error) (id' : Identity) :
  let r := exec h (sync.SyncOrgRolesHook order id) w in
  result r = Returned (Some e, id') →
  ∃ pre ev, trace r = pre ++ [ev]
            ∧ (sync.fatal ev = Some e ∨ ∃ cmd, ev = EvUpdate cmd (Some e)).
Proof.
  simpl. intros Hres.
  exact (all_runs_exec h _ _ w (SyncOrgRolesHook_surfaced id order)
           (Some e, id') e Hres eq_refl).
Qed.

(** Every removal that succeeds is followed at once by the deletion of
    the user's permissions in the organisation left. *)
Theorem sync_removal_cleanup (pre post : list event) (cmd : RemoveOrgUserCommand) :
  trace (exec h (sync.SyncOrgRolesHook order id) w)
    = pre ++ EvRemoveOrgUser cmd None :: post →
  ∃ r post',
    post = EvDeleteUserPermissions (rem_OrgID cmd) (rem_UserID cmd) r :: post'.
Proof.
  intros Heq.
  exact (all_runs_exec h _ _ w (SyncOrgRolesHook_cleaned_up id order) pre _ post Heq).
Qed.
End sync_results.

(** User 7 acts in B, where no role is asserted, and is moved to A: the
    identity's role in its active organisation stays empty. *)
Lemma sync_identity_kept_witness :
  identity.GetOrgRole (set_OrgID scenario.alice 5) = identity.GetOrgRole scenario.alice.
Proof.
  apply (sync_identity_kept memstore.services [("A", "Editor")] scenario.alice
           scenario.two_orgs None (set_OrgID scenario.alice 5)).
  vm_compute. reflexivity.
Defined.

(** A membership service that refuses every add: the refusal is the
    hook's last call and its error. *)
Lemma sync_returned_error_witness :
  ∃ pre ev,
    trace (exec (scenario.with_AddOrgUser (Some (ErrOther "read-only")))
             (sync.SyncOrgRolesHook [("A", "Editor")] scenario.alice)
             scenario.no_memberships) = pre ++ [ev]
    ∧ (sync.fatal ev = Some (ErrOther "read-only")
       ∨ ∃ cmd, ev = EvUpdate cmd (Some (ErrOther "read-only"))).
Proof.
  apply (sync_returned_error (scenario.with_AddOrgUser (Some (ErrOther "read-only")))
           [("A", "Editor")] scenario.alice scenario.no_memberships
           (ErrOther "read-only") scenario.alice).
  vm_compute. reflexivity.
Defined.

Lemma sync_removal_cleanup_witness :
  ∃ r post',
    [EvDeleteUserPermissions 2 7 None; EvUpdate (mkUpdateUser 7 (Some 5%Z)) None]
    = EvDeleteUserPermissions 2 7 r :: post'.
Proof.
  apply (sync_removal_cleanup memstore.services [("A", "Editor")] scenario.alice
           scenario.two_orgs_viewer
           [EvGetUserOrgList 7
              ([mkUserOrgDTO 5 "A" "Viewer"; mkUserOrgDTO 2 "B" "Viewer"], None);
            EvGetByID 5 (Some (mkOrg 5 "A"), None);
            EvUpdateOrgUser (mkUpdateOrgUser 5 7 "Editor") None;
            EvGetByID 2 (Some (mkOrg 2 "B"), None);
            EvGetByName "A" (Some (mkOrg 5 "A"), None)] _ (mkRemoveOrgUser 2 7)).
  vm_compute. reflexivity.
Defined.

(** ** The role mapper read from the configuration *)

Section mapper.
Import setting gostrings.
Variable Fields : string → list string.

Lemma assignments_empty {K : Type} `{Countable K} {V : Type}
    (kvs : list (K * V)) (m0 : gmap K V) :
  foldl assign m0 kvs = ∅ → kvs = [] ∧ m0 = ∅.
Proof.
  revert m0. induction kvs as [|[k v] kvs IH]; intros m0; simpl; [done|].
  intros [_ Hins]%IH. unfold assign in Hins. simpl in Hins.
  by apply insert_non_empty in Hins.
Qed.

Lemma assignments_size {K : Type} `{Countable K} {V : Type}
    (kvs : list (K * V)) (m0 : gmap K V) :
  size (foldl assign m0 kvs) ≤ size m0 + length kvs.
Proof.
  revert m0. induction kvs as [|[k v] kvs IH]; intros m0; simpl; [lia|].
  etrans; [apply IH|]. unfold assign. simpl.
  destruct (m0 !! k) eqn:Hk.
  - rewrite map_size_insert_Some by done. lia.
  - rewrite map_size_insert_None by done. lia.
Qed.

(** The mapper has at most one entry per token of the configured
    string, and it is empty exactly when that string has no token (it is
    empty or blank), which is when role extraction falls back to the
    static [scope:org:kind] mode.  No role of the mapper contains a
    colon: everything up to the last colon of a token is pattern. *)
Theorem parseOrgMapperConfig_entries (input : string) (m : gmap string string) :
  parseOrgMapperConfig Fields input = Returned m →
  size m ≤ length (Fields input)
  ∧ (m = ∅ ↔ input = "" ∨ Fields input = [])
  ∧ (∀ pattern role, m !! pattern = Some role → contains_byte role ":" = false).
Proof.
  unfold parseOrgMapperConfig. case_bool_decide as Hin.
  { intros [= <-]. rewrite map_size_empty. split_and!; [lia| |done].
    split; [by left|done]. }
  intros (kvs & Hkvs & ->)%add_mappings_returns. split_and!.
  - etrans; [apply assignments_size|].
    rewrite map_size_empty. by rewrite (Forall2_length _ _ _ Hkvs).
  - split.
    + intros [-> _]%assignments_empty. right. by apply Forall2_nil_inv_r in Hkvs.
    + intros [?|Hnone]; [done|]. rewrite Hnone in Hkvs.
      by apply Forall2_nil_inv_l in Hkvs as ->.
  - intros pattern role Hlook.
    apply lookup_assignments in Hlook as [(pre & post & -> & _)|[_ Hempty]]; [|done].
    apply Forall2_app_inv_r in Hkvs as (tpre & trest & _ & Hrest & _).
    apply Forall2_cons_inv_r in Hrest as (t & tpost & [_ Hrole] & _ & _).
    done.
Qed.
End mapper.

Lemma parseOrgMapperConfig_entries_witness :
  size scenario.role_mapper ≤ length (gostrings.Fields scenario.mapper_config)
  ∧ (scenario.role_mapper = ∅ ↔
       scenario.mapper_config = "" ∨ gostrings.Fields scenario.mapper_config = [])
  ∧ (∀ pattern role, scenario.role_mapper !! pattern = Some role →
       gostrings.contains_byte role ":" = false).
Proof.
  apply (parseOrgMapperConfig_entries gostrings.Fields scenario.mapper_config
           scenario.role_mapper).
  vm_compute. reflexivity.
Defined.

(** ** Role sync: a nil return means the work was done *)

Section sync_complete.
Import sync syncfacts.
Context (roles : gmap string string) (userID : Z).

Lemma reconciled_mono (deleted deleted' : Z → Prop) (tr tr' : list event) dto :
  (∀ x, deleted x → deleted' x) → tr ⊆ tr' →
  reconciled roles userID deleted tr dto → reconciled roles userID deleted' tr' dto.
Proof.
  intros Hdel Htr (org & e & Hev & Hdec). exists org, e. split; [by apply Htr|].
  case_bool_decide; [by apply Hdel|].
  destruct Hdec as [?|?]; [by left|right; by apply Htr].
Qed.

Lemma provisioned_mono (known known' : Z → Prop) (tr tr' : list event) entry :
  (∀ x, known x → known' x) → tr ⊆ tr' →
  provisioned userID known tr entry → provisioned userID known' tr' entry.
Proof.
  intros Hknown Htr (r & Hev & Hadd). exists r. split; [by apply Htr|].
  intros org Hr. destruct (Hadd org Hr) as [?|[e ?]]; [left; by apply Hknown|].
  right. exists e. by apply Htr.
Qed.

Lemma memberships_done_step (pre : list event) orga rest handled deletes deletes2 tr o :
  deletes ⊆ deletes2 →
  (∀ d', deletes2 ⊆ d' → reconciled roles userID (λ x, x ∈ d') pre orga) →
  memberships_done roles userID rest (<[dto_OrgID orga := true]> handled) deletes2 tr o →
  memberships_done roles userID (orga :: rest) handled deletes (pre ++ tr) o.
Proof.
  intros Hsub Hfirst [Herr Hnext]. split; [done|].
  intros handled' deletes' Ho. destruct (Hnext _ _ Ho) as (Hrec & Hsub' & Hhandled).
  split_and!.
  - intros dto [->|Hin]%elem_of_cons.
    + eapply reconciled_mono; [| |by apply Hfirst]; [done|by apply list_subseteq_app_l].
    + eapply reconciled_mono; [| |by apply Hrec]; [done|by apply list_subseteq_app_r].
  - intros x Hx. by apply Hsub', Hsub.
  - intros x Hx. rewrite fmap_cons, elem_of_cons.
    destruct (Hhandled x Hx) as [Hs|?]; [|by right; right].
    apply lookup_insert_is_Some in Hs as [<-|[_ ?]]; [right; by left|by left].
Qed.

Lemma update_existing_done result handled deletes :
  all_runs (memberships_done roles userID result handled deletes)
    (update_existing roles userID result handled deletes).
Proof.
  revert handled deletes.
  induction result as [|orga rest IH]; intros handled deletes; simpl.
  { split; [by intros e [=]|]. intros handled' deletes' [= <- <-].
    split_and!; [by intros ? ?%elem_of_nil|done|by left]. }
  intros [[orgb|] e]; simpl; [|by split; [intros ? [=]|intros ?? [=]]].
  case_bool_decide as Hext; [|case_bool_decide as Hneq].
  - eapply all_runs_mono; [|apply IH]. intros tr o.
    apply (memberships_done_step [EvGetByID (dto_OrgID orga) (Some orgb, e)]);
      [by apply list_subseteq_app_l|].
    intros d' Hd'. exists orgb, e. split; [by left|].
    rewrite bool_decide_eq_true_2 by done. apply Hd', elem_of_app. right. by left.
  - intros [e'|]; simpl.
    { split; [intros ? [= <-]; by eexists|by intros ?? [=]]. }
    eapply all_runs_mono; [|apply IH]. intros tr o.
    apply (memberships_done_step
             [EvGetByID (dto_OrgID orga) (Some orgb, e);
              EvUpdateOrgUser
                (mkUpdateOrgUser (dto_OrgID orga) userID
                   (map_index roles (Org_Name orgb))) None]); [done|].
    intros d' Hd'. exists orgb, e. split; [by left|].
    rewrite bool_decide_eq_false_2 by done. right. right. by left.
  - eapply all_runs_mono; [|apply IH]. intros tr o.
    apply (memberships_done_step [EvGetByID (dto_OrgID orga) (Some orgb, e)]);
      [done|].
    intros d' Hd'. exists orgb, e. split; [by left|].
    rewrite bool_decide_eq_false_2 by done. left.
    by destruct (decide (map_index roles (Org_Name orgb) = dto_Role orga));
      [|destruct Hneq].
Qed.

Lemma roles_done_step (pre : list event) handled entry rest tr o :
  provisioned userID (λ x, is_Some (handled !! x)) pre entry →
  roles_done userID handled rest tr o →
  roles_done userID handled (entry :: rest) (pre ++ tr) o.
Proof.
  intros Hfirst [Herr Hnext]. split; [done|].
  intros orgIDs' Ho entry' [->|Hin]%elem_of_cons.
  - eapply provisioned_mono; [| |exact Hfirst]; [done|by apply list_subseteq_app_l].
  - eapply provisioned_mono; [| |by eapply Hnext]; [done|by apply list_subseteq_app_r].
Qed.

Lemma add_new_done handled entries orgIDs :
  all_runs (roles_done userID handled entries)
    (add_new userID handled entries orgIDs).
Proof.
  revert orgIDs.
  induction entries as [|[orgName orgRole] rest IH]; intros orgIDs; simpl.
  { split; [by intros e [=]|]. by intros ? _ ? ?%elem_of_nil. }
  assert (∀ r, (∀ org, r ≠ (Some org, None)) →
            provisioned userID (λ x, is_Some (handled !! x))
              [EvGetByName orgName r] (orgName, orgRole)) as Hmissing.
  { intros r Hr. exists r. split; [by left|]. intros org ->. by destruct (Hr org). }
  intros [[orga|] [e|]]; simpl;
    try (eapply all_runs_mono; [|apply IH]; intros tr o;
         apply (roles_done_step [EvGetByName orgName _]); by apply Hmissing).
  case_bool_decide as Hhandled.
  { eapply all_runs_mono; [|apply IH]. intros tr o.
    apply (roles_done_step [EvGetByName orgName (Some orga, None)]).
    exists (Some orga, None). split; [by left|]. intros org [= <-]. by left. }
  assert (∀ err,
            provisioned userID (λ x, is_Some (handled !! x))
              [EvGetByName orgName (Some orga, None);
               EvAddOrgUser (mkAddOrgUser userID orgRole (Org_ID orga)) err]
              (orgName, orgRole)) as Hadded.
  { intros err. exists (Some orga, None). split; [by left|].
    intros org [= <-]. right. exists err. right. by left. }
  intros [e'|]; simpl.
  - destruct (errors_Is e' ErrOrgNotFound); simpl.
    + eapply all_runs_mono; [|apply IH]. intros tr o.
      apply (roles_done_step [_; _]), Hadded.
    + split; [intros ? [= <-]; by eexists|by intros ? [=]].
  - eapply all_runs_mono; [|apply IH]. intros tr o.
    apply (roles_done_step [_; _]), Hadded.
Qed.

Lemma removals_done_step (pre : list event) orgID rest tr o :
  removal_tried userID pre orgID →
  removals_done userID rest tr o →
  removals_done userID (orgID :: rest) (pre ++ tr) o.
Proof.
  intros [r Hfirst] [Herr Hnext]. split; [done|].
  intros s Ho x [->|Hin]%elem_of_cons.
  - exists r. apply elem_of_app. by left.
  - destruct (Hnext s Ho x Hin) as [r' ?]. exists r'. apply elem_of_app. by right.
Qed.

Lemma remove_stale_done deletes :
  all_runs (removals_done userID deletes) (remove_stale userID deletes).
Proof.
  induction deletes as [|orgID rest IH]; simpl.
  { split; [by intros e [=]|]. by intros ? _ ? ?%elem_of_nil. }
  intros [e|]; simpl.
  - destruct (errors_Is e ErrLastOrgAdmin); simpl.
    + eapply all_runs_mono; [|apply IH]. intros tr o.
      apply (removals_done_step [_]). eexists. by left.
    + split; [intros ? [= <-]; by eexists|by intros ? [=]].
  - intros r. eapply all_runs_mono; [|apply IH]. intros tr o.
    apply (removals_done_step [_; _]). eexists. by left.
Qed.

End sync_complete.

Section sync_complete_hook.
Import sync syncfacts.
Context (userID : Z).

Lemma reconcile_done order id result :
  all_runs (all_done (OrgRoles id) order userID result)
    (reconcile order id userID result).
Proof.
  unfold reconcile. apply all_runs_bind.
  eapply all_runs_mono; [|apply update_existing_done].
  intros tr1 [[e|[handled deletes]]|] [Herr1 Hnext1]; simpl;
    [intros id' [= -> _]; by destruct (Herr1 None eq_refl)| |by intros ? [=]].
  destruct (Hnext1 _ _ eq_refl) as (Hrec & _ & Hhandled).
  apply all_runs_bind. eapply all_runs_mono; [|apply add_new_done].
  intros tr2 [[e|orgIDs]|] [Herr2 Hnext2]; simpl;
    [intros id' [= -> _]; by destruct (Herr2 None eq_refl)| |by intros ? [=]].
  specialize (Hnext2 _ eq_refl).
  apply all_runs_bind. eapply all_runs_mono; [|apply remove_stale_done].
  intros tr3 [[e|[]]|] [Herr3 Hnext3]; simpl;
    [intros id' [= -> _]; by destruct (Herr3 None eq_refl)| |by intros ? [=]].
  specialize (Hnext3 _ eq_refl).
  eapply all_runs_mono; [|apply all_runs_true]. intros tr4 o _ id' _. split.
  - intros dto Hin.
    eapply reconciled_mono; [| |by apply Hrec]; [|by apply list_subseteq_app_l].
    intros x Hx. destruct (Hnext3 x Hx) as [r ?]. exists r.
    rewrite !elem_of_app. right. right. by left.
  - intros entry Hin.
    eapply provisioned_mono; [| |by apply Hnext2];
      [|by apply list_subseteq_app_r, list_subseteq_app_l].
    intros x Hx. destruct (Hhandled x Hx) as [Hempty|?]; [|done].
    rewrite lookup_empty in Hempty. by destruct Hempty.
Qed.
End sync_complete_hook.

(** When the hook returns nil after a successful fetch, every fetched
    membership was dealt with and so was every asserted role.  Each
    membership had its organisation looked up; with no role, or the
    empty role, asserted for the name found its removal was asked for,
    and otherwise it has the asserted role already or was updated to it
    with success.  Each asserted name was looked up, and where the
    organisation was found without error the user has a fetched
    membership there or an add with the asserted role was asked for. *)
Theorem sync_nil_return_complete {W} (h : Services W) (order : list (string * string))
    (id id' : Identity) (w : W) (userID : Z) (l : list UserOrgDTO) :
  let r := exec h (sync.SyncOrgRolesHook order id) w in
  sync.range_order (OrgRoles id) order →
  result r = Returned (None, id') →
  head (trace r) = Some (EvGetUserOrgList userID (l, None)) →
  (∀ dto, dto ∈ l →
     syncfacts.reconciled (OrgRoles id) userID
       (syncfacts.removal_tried userID (trace r)) (trace r) dto)
  ∧ (∀ name role, OrgRoles id !! name = Some role →
       syncfacts.provisioned userID (λ x, x ∈ dto_OrgID <$> l) (trace r) (name, role)).
Proof.
  simpl. intros Horder.
  assert (all_runs (λ tr o,
            o = Returned (None, id') →
            head tr = Some (EvGetUserOrgList userID (l, None)) →
            (∀ dto, dto ∈ l →
               syncfacts.reconciled (OrgRoles id) userID
                 (syncfacts.removal_tried userID tr) tr dto)
            ∧ (∀ entry, entry ∈ order →
                 syncfacts.provisioned userID (λ x, x ∈ dto_OrgID <$> l) tr entry))
            (sync.SyncOrgRolesHook order id)) as Hrun.
  { unfold sync.SyncOrgRolesHook.
    destruct (negb _); [done|]. destruct (negb _); [done|].
    destruct (ParseInt _) as [uid|]; [|done].
    case_bool_decide; [done|]. simpl.
    intros [fetched [e|]]; simpl; [by intros _ [=]|].
    eapply all_runs_mono; [|by apply (reconcile_done uid)].
    intros tr o Hdone Ho [= -> ->]. destruct (Hdone id' Ho) as [Hrec Hprov]. split.
    - intros dto Hin.
      eapply reconciled_mono; [| |by apply Hrec]; [|by apply list_subseteq_cons].
      intros x [r ?]. exists r. by right.
    - intros entry Hin.
      eapply provisioned_mono; [| |by apply Hprov]; [done|by apply list_subseteq_cons]. }
  intros Hres Hhead.
  destruct (all_runs_exec h _ _ w Hrun Hres Hhead) as [Hrec Hprov].
  split; [done|]. intros name role Hrole. apply Hprov.
  rewrite Horder. by apply elem_of_map_to_list.
Qed.

(** User 7, a viewer of A and B with the role Editor asserted for A. *)
Lemma sync_nil_return_complete_witness :
  let tr := trace (exec memstore.services
                     (sync.SyncOrgRolesHook [("A", "Editor")] scenario.alice)
                     scenario.two_orgs_viewer) in
  (∀ dto, dto ∈ [mkUserOrgDTO 5 "A" "Viewer"; mkUserOrgDTO 2 "B" "Viewer"] →
     syncfacts.reconciled (OrgRoles scenario.alice) 7
       (syncfacts.removal_tried 7 tr) tr dto)
  ∧ (∀ name role, OrgRoles scenario.alice !! name = Some role →
       syncfacts.provisioned 7
         (λ x, x ∈ dto_OrgID <$> [mkUserOrgDTO 5 "A" "Viewer"; mkUserOrgDTO 2 "B" "Viewer"])
         tr (name, role)).
Proof.
  apply (sync_nil_return_complete memstore.services [("A", "Editor")]
           scenario.alice (set_OrgID scenario.alice 5) scenario.two_orgs_viewer 7).
  - unfold sync.range_order. vm_compute map_to_list. reflexivity.
  - vm_compute. reflexivity.
  - vm_compute. reflexivity.
Defined.
